(** * Group layout, membership and type registry of fabric.js

    A shallow embedding of
    - [src/unnamed/part_000]          (the [Registry] class),
    - [src/src/shapes/group.class.js] (the [fabric.Group] class),
    - [src/src/filters/saturate_filter.class.ts] (the saturation filter),
    - [src/unnamed/part_001]          ([projectStrokeOnPoints]),
    followed by the properties established about them.

    Numbers are modelled as exact rationals ([Q]); objects live in a heap
    indexed by references, so that back-references ([object.group]) and
    child lists ([_objects]) alias the same objects as they do in the
    source.  The first part of the file holds every definition, the second
    part every statement and proof. *)

From Stdlib Require Import QArith Qminmax Qabs Qround Qfield Lqa Lia List Ascii String Bool.
From stdpp Require Import base option list gmap strings functions.
Import ListNotations.

Set Warnings "-register-all".

(* ================================================================== *)
(** * Part I.  Definitions                                             *)
(* ================================================================== *)

(** ** JavaScript values *)

Module JS.

(** The values a deserialisation record ([Record<string, unknown>]) can
    hold. *)
Inductive Value :=
  | VUndefined
  | VNull
  | VBool (b : bool)
  | VNumber (q : Q)
  | VNaN
  | VString (s : string)
  | VArray (items : list Value)
  | VObject (fields : list (string * Value)).

(** [ToBoolean]: the test performed by [if (v)], [!v] and [!!v]. *)
Definition truthy (v : Value) : bool :=
  match v with
  | VUndefined | VNull | VNaN => false
  | VBool b => b
  | VNumber q => negb (Qeq_bool q 0)
  | VString s => negb (String.eqb s "")
  | VArray _ | VObject _ => true
  end.

End JS.

(** ** The type registry ([src/unnamed/part_000]) *)

Module Registry.
Import JS.

Section WithHandlers.

(** The (de)serialisation functions stored in the registry are opaque to
    it. *)
Context {Handler : Type}.

(** [TRegistry]: [json] is mandatory, [svg] optional. *)
Record TRegistry := { json : Handler; svg : option Handler }.

(** [TClassIO]: a class with its static [fromObject] / [fromElement]. *)
Record TClassIO := { fromObject : Handler; fromElement : option Handler }.

(** [readonly registry: Map<string, TRegistry>] *)
Definition RegistryMap := gmap string TRegistry.

(** [Record<string, unknown>] *)
Definition Data := gmap string Value.

(** Property read [data.k]: an absent property reads [undefined]. *)
Definition prop (data : Data) (k : string) : Value :=
  default VUndefined (data !! k).

(** [register(type, value)] *)
Definition register (registry : RegistryMap) (type : string) (value : TRegistry)
  : RegistryMap :=
  <[type := value]> registry.

(** [registerClass(key, klass)] *)
Definition registerClass (registry : RegistryMap) (key : string) (klass : TClassIO)
  : RegistryMap :=
  register registry key {| json := fromObject klass; svg := fromElement klass |}.

(** [resolveJSONKey(data)]: the [as string | undefined] cast is erased at
    run time, so the result is whatever value [data.type] holds. *)
Definition resolveJSONKey (data : Data) : Value :=
  if truthy (prop data "colorStops") then VString "gradient"
  else prop data "type".

(** [this.registry.get(key)]: the map is keyed by strings, a key of any
    other type finds nothing. *)
Definition registryGet (registry : RegistryMap) (key : Value) : option TRegistry :=
  match key with
  | VString s => registry !! s
  | _ => None
  end.

(** What [!!key && this.registry.get(key)?.json] can evaluate to. *)
Inductive HandlerValue :=
  | HFalse
  | HUndefined
  | HFunction (h : Handler).

Definition isHandler (v : HandlerValue) : bool :=
  match v with HFunction _ => true | _ => false end.

(** [new Error(`fabric: failed to get JSON handler for key "${key}"`)];
    the error is identified by the key it reports. *)
Inductive RegistryError :=
  | FailedToGetJSONHandler (key : Value).

Inductive Completion (A : Type) :=
  | Return (a : A)
  | Throw (e : RegistryError).

(** [getJSONHandler(data, strict = true)] *)
Definition getJSONHandler (registry : RegistryMap) (data : Data) (strict : bool)
  : Completion HandlerValue :=
  let key := resolveJSONKey data in
  let handler :=
    if truthy key then
      match registryGet registry key with
      | Some entry => HFunction (json entry)
      | None => HUndefined
      end
    else HFalse in
  if negb (isHandler handler) && strict
  then Throw _ (FailedToGetJSONHandler key)
  else Return _ handler.

(** The handler registered for a resolved key, if any. *)
Definition registeredHandler (registry : RegistryMap) (key : Value) : option Handler :=
  json <$> registryGet registry key.

End WithHandlers.

Arguments TRegistry : clear implicits.
Arguments TClassIO : clear implicits.
Arguments RegistryMap : clear implicits.
Arguments HandlerValue : clear implicits.
Arguments Completion : clear implicits.
Arguments Return {A} a.
Arguments Throw {A} e.

End Registry.

(** ** 2D affine primitives

    [util/misc/matrix] and [point.class] are imported by the sources
    ([src/unnamed/part_001]) but are not part of them. *)

Module Affine.
Local Open Scope Q_scope.

Record Point := mkPoint { x : Q; y : Q }.

(** [TMat2D]: the array [[a, b, c, d, e, f]]. *)
Record TMat2D := mkMat { ma : Q; mb : Q; mc : Q; md : Q; me : Q; mf : Q }.

Definition iMatrix : TMat2D := mkMat 1 0 0 1 0 0.

(** Equality of points and matrices up to the representation of the
    rationals. *)
Definition point_eq (p q : Point) : Prop := x p == x q /\ y p == y q.
Definition mat_eq (m n : TMat2D) : Prop :=
  ma m == ma n /\ mb m == mb n /\ mc m == mc n /\
  md m == md n /\ me m == me n /\ mf m == mf n.

Definition det (t : TMat2D) : Q := ma t * md t - mb t * mc t.

(** Modelled from the spec: [Point] arithmetic of the math utility library
    (standard 2D vector semantics). *)
Definition add (p q : Point) : Point := mkPoint (x p + x q) (y p + y q).
Definition subtract (p q : Point) : Point := mkPoint (x p - x q) (y p - y q).
Definition multiply (p q : Point) : Point := mkPoint (x p * x q) (y p * y q).
Definition scalarAdd (p : Point) (s : Q) : Point := mkPoint (x p + s) (y p + s).
Definition scalarDivide (p : Point) (s : Q) : Point := mkPoint (x p / s) (y p / s).
Definition eq (p q : Point) : bool := Qeq_bool (x p) (x q) && Qeq_bool (y p) (y q).
Definition midPointFrom (p q : Point) : Point :=
  mkPoint (x p + (x q - x p) * (1 # 2)) (y p + (y q - y p) * (1 # 2)).

(** Modelled from the spec: [multiplyTransformMatrices(a, b, is2x2)], the
    product of two affine matrices (standard 2D affine semantics). *)
Definition multiplyTransformMatrices (a b : TMat2D) (is2x2 : bool) : TMat2D :=
  mkMat (ma a * ma b + mc a * mb b)
        (mb a * ma b + md a * mb b)
        (ma a * mc b + mc a * md b)
        (mb a * mc b + md a * md b)
        (if is2x2 then 0 else ma a * me b + mc a * mf b + me a)
        (if is2x2 then 0 else mb a * me b + md a * mf b + mf a).

(** Modelled from the spec: [transformPoint(p, t, ignoreOffset)]. *)
Definition transformPoint (p : Point) (t : TMat2D) (ignoreOffset : bool) : Point :=
  if ignoreOffset
  then mkPoint (ma t * x p + mc t * y p) (mb t * x p + md t * y p)
  else mkPoint (ma t * x p + mc t * y p + me t) (mb t * x p + md t * y p + mf t).

(** Modelled from the spec: [invertTransform(t)].  The inverse exists for a
    non-zero determinant; for a singular matrix JavaScript produces
    non-finite entries, which no rational stands for ([1 / 0] is [0] in
    [Q]), so every statement about inverses below assumes that [det t] is
    not zero. *)
Definition invertTransform (t : TMat2D) : TMat2D :=
  let a := 1 / det t in
  let r := mkMat (a * md t) (- a * mb t) (- a * mc t) (a * ma t) 0 0 in
  let o := transformPoint (mkPoint (me t) (mf t)) r true in
  mkMat (ma r) (mb r) (mc r) (md r) (- x o) (- y o).

End Affine.

(** ** Runs over a heap

    Methods that mutate objects are functions from the heap to a result:
    normal completion with the new heap, an exception with the heap as it
    is when thrown, or a halt.  A halt is the exhaustion of the recursion
    budget (the walks up the [group] chain and down the [_objects] tree
    terminate in the source because the ownership graph is acyclic) or the
    appearance of a value that is not a number. *)

Module Run.

(** Why a run stops short: the recursion budget is spent, or a number that
    is [undefined] or not finite enters the arithmetic. *)
Inductive Halt := NoFuel | NotANumber.

(** Outcome of a read-only computation. *)
Inductive Answer (A : Type) :=
  | Val (a : A)
  | Stop (why : Halt).
Arguments Val {A} a.
Arguments Stop {A} why.

(** Outcome of a computation on the heap. *)
Inductive Result (E S A : Type) :=
  | Ok (a : A) (s : S)
  | Raise (e : E) (s : S)
  | Halted (why : Halt).
Arguments Ok {E S A} a s.
Arguments Raise {E S A} e s.
Arguments Halted {E S A} why.

Definition M (E S A : Type) := S -> Result E S A.

Definition ret {E S A} (a : A) : M E S A := fun s => Ok a s.

Definition bind {E S A B} (m : M E S A) (k : A -> M E S B) : M E S B :=
  fun s =>
    match m s with
    | Ok a s' => k a s'
    | Raise e s' => Raise e s'
    | Halted why => Halted why
    end.

Definition get {E S} : M E S S := fun s => Ok s s.
Definition modify {E S} (f : S -> S) : M E S unit := fun s => Ok tt (f s).
Definition throw {E S A} (e : E) : M E S A := fun s => Raise e s.
Definition exhausted {E S A} : M E S A := fun _ => Halted NoFuel.

(** Run a read-only computation on the current heap. *)
Definition ask {E S A} (r : S -> Answer A) : M E S A :=
  fun s => match r s with Val a => Ok a s | Stop why => Halted why end.

Definition when {E S} (b : bool) (m : M E S unit) : M E S unit :=
  if b then m else ret tt.

(** [forEach]: run [f] on every element, in order. *)
Fixpoint forEach {E S A} (f : A -> M E S unit) (l : list A) : M E S unit :=
  match l with
  | [] => ret tt
  | a :: l' => bind (f a) (fun _ => forEach f l')
  end.

Definition abind {A B} (m : Answer A) (k : A -> Answer B) : Answer B :=
  match m with Val a => k a | Stop why => Stop why end.

End Run.

Declare Scope run_scope.
Delimit Scope run_scope with run.
Notation "x <- m ;; k" := (Run.bind m (fun x => k))
  (at level 100, m at next level, right associativity) : run_scope.
Notation "m ;;; k" := (Run.bind m (fun _ => k))
  (at level 100, right associativity) : run_scope.
Notation "x <~ m ;; k" := (Run.abind m (fun x => k))
  (at level 100, m at next level, right associativity) : run_scope.

(** ** Membership and plane changes ([fabric.Group], enter / exit protocol)

    This module follows an object through [enterGroup] / [exitGroup].  An
    object is described here by its stored transform (the matrix
    [calcOwnMatrix] returns), its back-references and, for a group, its
    child list and bookkeeping. *)

Module Membership.
Import Affine Run.
Local Open Scope run_scope.

(** Object identity (a JavaScript reference). *)
Definition Ref := nat.

(** The part of a canvas the group reads: whether the canvas has a
    [getActiveObject] method (a static canvas has none), and what the
    method returns. *)
Record Canvas := mkCanvas {
  hasGetActiveObject : bool;
  _activeObject : option Ref;
  preserveObjectStacking : bool
}.

(** [ownMatrix] is the stored transform, [group] the owning-container
    back-reference, [_objects] the children of a group, [monitors] the
    groups listening to the object. *)
Record FObject := mkFObject {
  ownMatrix : TMat2D;
  group : option Ref;
  canvas : option Ref;
  _objects : list Ref;
  _activeObjects : list Ref;
  interactive : bool;
  subTargetCheck : bool;
  dirty : bool;
  monitors : list Ref
}.

Record Heap := mkHeap {
  objs : Ref -> FObject;
  canvases : Ref -> Canvas
}.

(** [new Error(message)] *)
Inductive Error := JSError (message : string).

Definition Op (A : Type) := M Error Heap A.

(** *** Field updates *)

Definition withOwnMatrix (m : TMat2D) (o : FObject) : FObject :=
  mkFObject m (group o) (canvas o) (_objects o) (_activeObjects o)
            (interactive o) (subTargetCheck o) (dirty o) (monitors o).

Definition withGroup (g : option Ref) (o : FObject) : FObject :=
  mkFObject (ownMatrix o) g (canvas o) (_objects o) (_activeObjects o)
            (interactive o) (subTargetCheck o) (dirty o) (monitors o).

Definition withCanvas (c : option Ref) (o : FObject) : FObject :=
  mkFObject (ownMatrix o) (group o) c (_objects o) (_activeObjects o)
            (interactive o) (subTargetCheck o) (dirty o) (monitors o).

Definition withObjects (l : list Ref) (o : FObject) : FObject :=
  mkFObject (ownMatrix o) (group o) (canvas o) l (_activeObjects o)
            (interactive o) (subTargetCheck o) (dirty o) (monitors o).

Definition withActiveObjects (l : list Ref) (o : FObject) : FObject :=
  mkFObject (ownMatrix o) (group o) (canvas o) (_objects o) l
            (interactive o) (subTargetCheck o) (dirty o) (monitors o).

Definition withDirty (b : bool) (o : FObject) : FObject :=
  mkFObject (ownMatrix o) (group o) (canvas o) (_objects o) (_activeObjects o)
            (interactive o) (subTargetCheck o) b (monitors o).

Definition withMonitors (l : list Ref) (o : FObject) : FObject :=
  mkFObject (ownMatrix o) (group o) (canvas o) (_objects o) (_activeObjects o)
            (interactive o) (subTargetCheck o) (dirty o) l.

(** Mutate the object behind reference [r]. *)
Definition update (r : Ref) (f : FObject -> FObject) (h : Heap) : Heap :=
  mkHeap (<[r := f (objs h r)]> (objs h)) (canvases h).

(** [a === b] on references that may be [undefined]. *)
Definition sameRef (a b : option Ref) : bool :=
  match a, b with
  | Some m, Some n => Nat.eqb m n
  | None, None => true
  | _, _ => false
  end.

(** [array.indexOf(r) > -1] *)
Definition includes (r : Ref) (l : list Ref) : bool := existsb (Nat.eqb r) l.

(** [index = array.indexOf(r); if (index > -1) array.splice(index, 1)] *)
Fixpoint spliceOut (r : Ref) (l : list Ref) : list Ref :=
  match l with
  | [] => []
  | a :: l' => if Nat.eqb r a then l' else a :: spliceOut r l'
  end.

(** *** The object contract consumed by the group *)

Definition calcOwnMatrix (o : FObject) : TMat2D := ownMatrix o.

(** Modelled from the spec: [calcTransformMatrix()] of [fabric.Object]
    (absent from the sources), the object's transform composed with those
    of all its ancestors. *)
Fixpoint calcTransformMatrix (fuel : nat) (h : Heap) (r : Ref) : Answer TMat2D :=
  match fuel with
  | O => Stop NoFuel
  | S fuel' =>
      let matrix := calcOwnMatrix (objs h r) in
      match group (objs h r) with
      | None => Val matrix
      | Some g =>
          parent <~ calcTransformMatrix fuel' h g ;;
          Val (multiplyTransformMatrices parent matrix false)
      end
  end.

(** Modelled from the spec: [applyTransformToObject(object, transform)]
    (absent from the sources) rewrites the object's transform as the given
    matrix. *)
Definition applyTransformToObject (object : Ref) (transform : TMat2D) : Heap -> Heap :=
  update object (withOwnMatrix transform).

(** Modelled from the spec: [isDescendantOf(target)] of [fabric.Object]
    (absent from the sources): [target] is found on the way up the chain
    of owning containers. *)
Fixpoint isDescendantOf (fuel : nat) (h : Heap) (this target : Ref) : Answer bool :=
  match fuel with
  | O => Stop NoFuel
  | S fuel' =>
      match group (objs h this) with
      | None => Val false
      | Some parent =>
          if Nat.eqb target parent then Val true
          else isDescendantOf fuel' h parent target
      end
  end.

(** *** [fabric.Group] *)

(** [_set('canvas', value)]: the write, propagated to the children when the
    value changes. *)
Fixpoint _set_canvas (fuel : nat) (object : Ref) (value : option Ref) : Op unit :=
  match fuel with
  | O => exhausted
  | S fuel' =>
      h <- get ;;
      let prev := canvas (objs h object) in
      modify (update object (withCanvas value)) ;;;
      when (negb (sameRef prev value))
           (forEach (fun child => _set_canvas fuel' child value)
                    (_objects (objs h object)))
  end.

(** [_set('dirty', value)] *)
Definition _set_dirty (this : Ref) (value : bool) : Op unit :=
  modify (update this (withDirty value)).

(** [_watchObject(watch, object)]: the four subscriptions ([changed],
    [modified], [selected], [deselected]) are attached and detached
    together; attaching first detaches, to listen only once. *)
Definition _watchObject (watch : bool) (this object : Ref) : Heap -> Heap :=
  update object (fun o =>
    let detached := List.filter (fun g => negb (Nat.eqb g this)) (monitors o) in
    withMonitors (if watch then detached ++ [this] else detached) o).

(** [canEnter(object)]: the deprecated, warning-only check. *)
Definition canEnter (h : Heap) (this object : Ref) : bool :=
  if Nat.eqb object this then false
  else if sameRef (group (objs h object)) (Some this) then false
  else true.

Definition cycleMessage : string := "fabric.Group: trying to add group to itself".
Definition duplicateMessage : string :=
  "fabric.Group: duplicate objects are not supported inside group".

(** [canEnterGroup(object)]: the strict, throwing check. *)
Definition canEnterGroup (fuel : nat) (this object : Ref) : Op bool :=
  cyclic <- (if Nat.eqb object this then ret true
             else ask (fun h => isDescendantOf fuel h this object)) ;;
  if (cyclic : bool) then throw (JSError cycleMessage)
  else
    h <- get ;;
    if sameRef (group (objs h object)) (Some this)
    then throw (JSError duplicateMessage)
    else ret true.

(** [_enterGroup(object, removeParentTransform)]; the coordinates refreshed
    by [setCoords] are not part of the state. *)
Definition _enterGroup (fuel : nat) (this object : Ref) (removeParentTransform : bool)
  : Op unit :=
  when removeParentTransform
       (inverse <- ask (fun h =>
                          m <~ calcTransformMatrix fuel h this ;;
                          Val (invertTransform m)) ;;
        own <- ask (fun h => calcTransformMatrix fuel h object) ;;
        modify (applyTransformToObject object
                  (multiplyTransformMatrices inverse own false))) ;;;
  modify (update object (withGroup (Some this))) ;;;
  h <- get ;;
  _set_canvas fuel object (canvas (objs h this)) ;;;
  when (interactive (objs h this)) (modify (_watchObject true this object)).

(** [_exitGroup(object, removeParentTransform)] *)
Definition _exitGroup (fuel : nat) (this object : Ref) (removeParentTransform : bool)
  : Op unit :=
  modify (update object (withGroup None)) ;;;
  when (negb removeParentTransform)
       (container <- ask (fun h => calcTransformMatrix fuel h this) ;;
        own <- ask (fun h => calcTransformMatrix fuel h object) ;;
        modify (applyTransformToObject object
                  (multiplyTransformMatrices container own false))) ;;;
  modify (_watchObject false this object) ;;;
  modify (update this (fun g =>
            withActiveObjects (spliceOut object (_activeObjects g)) g)).

(** [exitGroup(object, removeParentTransform)] *)
Definition exitGroup (fuel : nat) (this object : Ref) (removeParentTransform : bool)
  : Op unit :=
  _exitGroup fuel this object removeParentTransform ;;;
  _set_canvas fuel object None.

(** [_onObjectRemoved(object, removeParentTransform)]; the events fired
    carry no state. *)
Definition _onObjectRemoved (fuel : nat) (this object : Ref)
           (removeParentTransform : bool) : Op unit :=
  exitGroup fuel this object removeParentTransform.

(** The two triggers of [_onAfterObjectsChange]. *)
Inductive Trigger := added | removed.

Section WithLayout.

(** The layout pass run after a membership change ([_applyLayoutStrategy]
    with an [added] / [removed] context).  It acts on the geometry of the
    container and of its children, which module [Layout] describes; here
    it is a parameter. *)
Variable layoutPass : Trigger -> Ref -> list Ref -> Heap -> Heap.

(** [_onAfterObjectsChange(type, targets)] *)
Definition _onAfterObjectsChange (this : Ref) (type : Trigger) (targets : list Ref)
  : Op unit :=
  modify (layoutPass type this targets) ;;;
  _set_dirty this true.

(** Modelled from the spec: [fabric.Collection.remove] (absent from the
    sources) takes each object that is in the child sequence out of it,
    runs the removal callback on it and returns the removed objects. *)
Fixpoint collectionRemove (fuel : nat) (this : Ref) (objectsToRemove : list Ref)
  : Op (list Ref) :=
  match objectsToRemove with
  | [] => ret []
  | object :: rest =>
      h <- get ;;
      if includes object (_objects (objs h this)) then
        modify (update this (fun g =>
                  withObjects (spliceOut object (_objects g)) g)) ;;;
        _onObjectRemoved fuel this object false ;;;
        others <- collectionRemove fuel this rest ;;
        ret (object :: others)
      else collectionRemove fuel this rest
  end.

(** [remove(...objects)] *)
Definition remove (fuel : nat) (this : Ref) (objects : list Ref) : Op (list Ref) :=
  removedObjects <- collectionRemove fuel this objects ;;
  _onAfterObjectsChange this removed removedObjects ;;;
  ret removedObjects.

(** [enterGroup(object, removeParentTransform)].  The class body defines
    the method twice; the later definition, which calls [canEnterGroup],
    is the one in effect. *)
Definition enterGroup (fuel : nat) (this object : Ref) (removeParentTransform : bool)
  : Op bool :=
  allowed <- canEnterGroup fuel this object ;;
  if negb allowed then ret false
  else
    h <- get ;;
    match group (objs h object) with
    | Some previous => _ <- remove fuel previous [object] ;; ret tt
    | None => ret tt
    end ;;;
    _enterGroup fuel this object removeParentTransform ;;;
    h <- get ;;
    let activeObject :=
      match canvas (objs h this) with
      | Some c =>
          if hasGetActiveObject (canvases h c) then _activeObject (canvases h c)
          else None
      | None => None
      end in
    match activeObject with
    | Some active =>
        inside <- (if Nat.eqb active object then ret true
                   else ask (fun h => isDescendantOf fuel h object active)) ;;
        when inside
             (modify (update this (fun g =>
                        withActiveObjects (_activeObjects g ++ [object]) g)))
    | None => ret tt
    end ;;;
    ret true.

End WithLayout.

(** A layout pass respects membership when it leaves every object's
    back-reference, canvas and child list as they are. *)
Definition keepsMembership (layoutPass : Trigger -> Ref -> list Ref -> Heap -> Heap)
  : Prop :=
  forall t g l h r,
    group (objs (layoutPass t g l h) r) = group (objs h r) /\
    _objects (objs (layoutPass t g l h) r) = _objects (objs h r) /\
    canvas (objs (layoutPass t g l h) r) = canvas (objs h r).

(** The chain of owning containers above [r] ends within [n] steps. *)
Inductive ancestry (h : Heap) : nat -> Ref -> Prop :=
  | ancestry_root n r : group (objs h r) = None -> ancestry h (S n) r
  | ancestry_step n r p :
      group (objs h r) = Some p -> ancestry h n p -> ancestry h (S n) r.

(** Two heaps that hold the same objects up to their [canvas] field. *)
Definition sameButCanvas (h h' : Heap) : Prop :=
  canvases h' = canvases h /\
  forall r, objs h' r = withCanvas (canvas (objs h' r)) (objs h r).

(** The subtree below [r] has height less than [n]. *)
Inductive nestedWithin (h : Heap) : nat -> Ref -> Prop :=
  | nested_node n r :
      (forall c, In c (_objects (objs h r)) -> nestedWithin h n c) ->
      nestedWithin h (S n) r.

End Membership.

(** ** Layout ([fabric.Group], layout strategies and invalidation)

    Here an object is described by its geometry: position, size, scale,
    skew, angle, stroke and origin anchors. *)

Module Layout.
Import Affine Run.
Local Open Scope Q_scope.
Local Open Scope run_scope.

(** Object identity (a JavaScript reference). *)
Definition Ref := nat.

(** [fabric.util.sin], [fabric.util.cos] and [Math.tan], each applied to
    [degreesToRadians] of an angle in degrees.  They belong to the math
    library, which is not part of the sources, and are taken as a
    parameter (a floating point sine maps rationals to rationals). *)
Record MathLib := mkMathLib {
  sinDeg : Q -> Q;
  cosDeg : Q -> Q;
  tanDeg : Q -> Q
}.

(** What [instanceof] can tell about an object. *)
Inductive Klass := IsObject | IsGroup | IsLayer.

(** The named origin anchors. *)
Inductive Origin := originLeft | originTop | originCenter | originRight | originBottom.

Record Canvas := mkCanvas { preserveObjectStacking : bool }.

Record FObject := mkFObject {
  klass : Klass;
  left : Q;
  top : Q;
  width : Q;
  height : Q;
  scaleX : Q;
  scaleY : Q;
  skewX : Q;
  skewY : Q;
  angle : Q;
  strokeWidth : Q;
  strokeUniform : bool;
  flipX : bool;
  flipY : bool;
  originX : Origin;
  originY : Origin;
  layout : string;
  group : option Ref;
  canvas : option Canvas;
  _objects : list Ref;
  clipPath : option Ref;
  absolutePositioned : bool;
  subTargetCheck : bool;
  dirty : bool;
  ownCaching : bool;
  _firstLayoutDone : bool;
  _layoutInProgress : bool
}.

Definition Heap := Ref -> FObject.
Definition Op (A : Type) := M Empty_set Heap A.

(** *** Field updates ([set]) *)

Definition withPosition (l t : Q) (o : FObject) : FObject :=
  mkFObject (klass o) l t (width o) (height o) (scaleX o) (scaleY o)
    (skewX o) (skewY o) (angle o) (strokeWidth o) (strokeUniform o) (flipX o) (flipY o)
    (originX o) (originY o) (layout o) (group o) (canvas o) (_objects o) (clipPath o)
    (absolutePositioned o) (subTargetCheck o) (dirty o) (ownCaching o)
    (_firstLayoutDone o) (_layoutInProgress o).

Definition withSize (w h : Q) (o : FObject) : FObject :=
  mkFObject (klass o) (left o) (top o) w h (scaleX o) (scaleY o)
    (skewX o) (skewY o) (angle o) (strokeWidth o) (strokeUniform o) (flipX o) (flipY o)
    (originX o) (originY o) (layout o) (group o) (canvas o) (_objects o) (clipPath o)
    (absolutePositioned o) (subTargetCheck o) (dirty o) (ownCaching o)
    (_firstLayoutDone o) (_layoutInProgress o).

Definition withInitialTransform (a sx sy : Q) (o : FObject) : FObject :=
  mkFObject (klass o) (left o) (top o) (width o) (height o) (scaleX o) (scaleY o)
    sx sy a (strokeWidth o) (strokeUniform o) (flipX o) (flipY o)
    (originX o) (originY o) (layout o) (group o) (canvas o) (_objects o) (clipPath o)
    (absolutePositioned o) (subTargetCheck o) (dirty o) (ownCaching o)
    (_firstLayoutDone o) (_layoutInProgress o).

Definition withLayout (l : string) (o : FObject) : FObject :=
  mkFObject (klass o) (left o) (top o) (width o) (height o) (scaleX o) (scaleY o)
    (skewX o) (skewY o) (angle o) (strokeWidth o) (strokeUniform o) (flipX o) (flipY o)
    (originX o) (originY o) l (group o) (canvas o) (_objects o) (clipPath o)
    (absolutePositioned o) (subTargetCheck o) (dirty o) (ownCaching o)
    (_firstLayoutDone o) (_layoutInProgress o).

Definition withDirty (b : bool) (o : FObject) : FObject :=
  mkFObject (klass o) (left o) (top o) (width o) (height o) (scaleX o) (scaleY o)
    (skewX o) (skewY o) (angle o) (strokeWidth o) (strokeUniform o) (flipX o) (flipY o)
    (originX o) (originY o) (layout o) (group o) (canvas o) (_objects o) (clipPath o)
    (absolutePositioned o) (subTargetCheck o) b (ownCaching o)
    (_firstLayoutDone o) (_layoutInProgress o).

Definition withFirstLayoutDone (b : bool) (o : FObject) : FObject :=
  mkFObject (klass o) (left o) (top o) (width o) (height o) (scaleX o) (scaleY o)
    (skewX o) (skewY o) (angle o) (strokeWidth o) (strokeUniform o) (flipX o) (flipY o)
    (originX o) (originY o) (layout o) (group o) (canvas o) (_objects o) (clipPath o)
    (absolutePositioned o) (subTargetCheck o) (dirty o) (ownCaching o)
    b (_layoutInProgress o).

Definition withLayoutInProgress (b : bool) (o : FObject) : FObject :=
  mkFObject (klass o) (left o) (top o) (width o) (height o) (scaleX o) (scaleY o)
    (skewX o) (skewY o) (angle o) (strokeWidth o) (strokeUniform o) (flipX o) (flipY o)
    (originX o) (originY o) (layout o) (group o) (canvas o) (_objects o) (clipPath o)
    (absolutePositioned o) (subTargetCheck o) (dirty o) (ownCaching o)
    (_firstLayoutDone o) b.

(** Mutate the object behind reference [r]. *)
Definition update (r : Ref) (f : FObject -> FObject) (h : Heap) : Heap :=
  <[r := f (h r)]> h.

(** The truthiness of a number: [if (n)]. *)
Definition truthyNumber (q : Q) : bool := negb (Qeq_bool q 0).

Definition isSome {A} (o : option A) : bool :=
  match o with Some _ => true | None => false end.

(** [object.group === this] *)
Definition sameGroup (g : option Ref) (this : Ref) : bool :=
  match g with Some r => Nat.eqb r this | None => false end.

(** [object instanceof fabric.Layer] *)
Definition isLayer (o : FObject) : bool :=
  match klass o with IsLayer => true | _ => false end.

(** A layer is a group: both carry [_applyLayoutStrategy]. *)
Definition hasLayoutStrategy (o : FObject) : bool :=
  match klass o with IsObject => false | _ => true end.

(** *** The object contract consumed by the group

    The methods of [fabric.Object] below are called by the group but are
    not part of the sources. *)

Section Geometry.

Variable math : MathLib.

(** Modelled from the spec: origin anchors resolve to an offset from the
    centre, in units of the object's size. *)
Definition resolveOrigin (o : Origin) : Q :=
  match o with
  | originLeft | originTop => - (1 # 2)
  | originCenter => 0
  | originRight | originBottom => 1 # 2
  end.

(** Modelled from the spec: [calcDimensionsMatrix], the scale and skew part
    of an object's transform (standard 2D affine semantics). *)
Definition calcDimensionsMatrix (sx sy kx ky : Q) (fx fy : bool) : TMat2D :=
  let scaleMatrix := mkMat (if fx then - sx else sx) 0 0 (if fy then - sy else sy) 0 0 in
  let skewedX :=
    if truthyNumber kx
    then multiplyTransformMatrices scaleMatrix (mkMat 1 0 (tanDeg math kx) 1 0 0) true
    else scaleMatrix in
  if truthyNumber ky
  then multiplyTransformMatrices skewedX (mkMat 1 (tanDeg math ky) 0 1 0 0) true
  else skewedX.

(** Modelled from the spec: [sizeAfterTransform], the size of the
    axis-aligned box around a [w] by [h] rectangle after scale and skew. *)
Definition sizeAfterTransform (w h : Q) (o : FObject) : Point :=
  let t := calcDimensionsMatrix (scaleX o) (scaleY o) (skewX o) (skewY o) false false in
  let dimX := w / 2 in
  let dimY := h / 2 in
  let p1 := transformPoint (mkPoint (- dimX) (- dimY)) t false in
  let p2 := transformPoint (mkPoint dimX (- dimY)) t false in
  let p3 := transformPoint (mkPoint (- dimX) dimY) t false in
  let p4 := transformPoint (mkPoint dimX dimY) t false in
  let minX := Qmin (Qmin (Qmin (x p1) (x p2)) (x p3)) (x p4) in
  let maxX := Qmax (Qmax (Qmax (x p1) (x p2)) (x p3)) (x p4) in
  let minY := Qmin (Qmin (Qmin (y p1) (y p2)) (y p3)) (y p4) in
  let maxY := Qmax (Qmax (Qmax (y p1) (y p2)) (y p3)) (y p4) in
  mkPoint (maxX - minX) (maxY - minY).

(** Modelled from the spec: [_getTransformedDimensions(options)], the
    object's extents (twice its half-extents) before rotation; the options
    override the object's own [width], [height] and [strokeWidth]. *)
Definition _getTransformedDimensions (o : FObject) (w h stroke : option Q) : Point :=
  let w := default (width o) w in
  let h := default (height o) h in
  let stroke := default (strokeWidth o) stroke in
  let preScalingStrokeValue := if strokeUniform o then 0 else stroke in
  let postScalingStrokeValue := if strokeUniform o then stroke else 0 in
  let dimX := w + preScalingStrokeValue in
  let dimY := h + preScalingStrokeValue in
  let noSkew := Qeq_bool (skewX o) 0 && Qeq_bool (skewY o) 0 in
  let finalDimensions :=
    if noSkew then mkPoint (dimX * scaleX o) (dimY * scaleY o)
    else sizeAfterTransform dimX dimY o in
  scalarAdd finalDimensions postScalingStrokeValue.

(** Modelled from the spec: [rotatePoint(point, origin, angle)]. *)
Definition rotatePoint (p origin : Point) (degrees : Q) : Point :=
  let v := subtract p origin in
  let s := sinDeg math degrees in
  let c := cosDeg math degrees in
  add (mkPoint (x v * c - y v * s) (x v * s + y v * c)) origin.

(** Modelled from the spec: moving a point from one origin anchor of the
    object to another. *)
Definition translateToGivenOrigin (o : FObject) (p : Point)
           (fromX fromY toX toY : Origin) : Point :=
  let offsetX := resolveOrigin toX - resolveOrigin fromX in
  let offsetY := resolveOrigin toY - resolveOrigin fromY in
  if truthyNumber offsetX || truthyNumber offsetY then
    let dim := _getTransformedDimensions o None None None in
    mkPoint (x p + offsetX * x dim) (y p + offsetY * y dim)
  else p.

(** Modelled from the spec: from an anchor of the object to its centre. *)
Definition translateToCenterPoint (o : FObject) (p : Point) (ox oy : Origin) : Point :=
  let q := translateToGivenOrigin o p ox oy originCenter originCenter in
  if truthyNumber (angle o) then rotatePoint q p (angle o) else q.

(** Modelled from the spec: from the centre of the object to an anchor. *)
Definition translateToOriginPoint (o : FObject) (center : Point) (ox oy : Origin)
  : Point :=
  let q := translateToGivenOrigin o center originCenter originCenter ox oy in
  if truthyNumber (angle o) then rotatePoint q center (angle o) else q.

(** Modelled from the spec: [getRelativeCenterPoint()], the centre of the
    object in its own containing plane. *)
Definition getRelativeCenterPoint (o : FObject) : Point :=
  translateToCenterPoint o (mkPoint (left o) (top o)) (originX o) (originY o).

(** Modelled from the spec: [setPositionByOrigin(pos, originX, originY)]
    places the given anchor of the object at [pos]. *)
Definition setPositionByOrigin (pos : Point) (ox oy : Origin) (o : FObject) : FObject :=
  let center := translateToCenterPoint o pos ox oy in
  let position := translateToOriginPoint o center (originX o) (originY o) in
  withPosition (x position) (y position) o.

(** Modelled from the spec: [calcOwnMatrix()], the object's transform in
    its containing plane: translation to its centre, rotation, then scale
    and skew. *)
Definition calcOwnMatrix (o : FObject) : TMat2D :=
  let center := getRelativeCenterPoint o in
  let translated := mkMat 1 0 0 1 (x center) (y center) in
  let rotated :=
    if truthyNumber (angle o)
    then multiplyTransformMatrices translated
           (mkMat (cosDeg math (angle o)) (sinDeg math (angle o))
                  (- sinDeg math (angle o)) (cosDeg math (angle o)) 0 0) false
    else translated in
  if negb (Qeq_bool (scaleX o) 1) || negb (Qeq_bool (scaleY o) 1)
     || truthyNumber (skewX o) || truthyNumber (skewY o) || flipX o || flipY o
  then multiplyTransformMatrices rotated
         (calcDimensionsMatrix (scaleX o) (scaleY o) (skewX o) (skewY o)
                               (flipX o) (flipY o)) false
  else rotated.

(** Modelled from the spec: [calcTransformMatrix()], the transform composed
    with those of all ancestors. *)
Fixpoint calcTransformMatrix (fuel : nat) (h : Heap) (r : Ref) : Answer TMat2D :=
  match fuel with
  | O => Stop NoFuel
  | S fuel' =>
      let matrix := calcOwnMatrix (h r) in
      match group (h r) with
      | None => Val matrix
      | Some g =>
          parent <~ calcTransformMatrix fuel' h g ;;
          Val (multiplyTransformMatrices parent matrix false)
      end
  end.

(** Modelled from the spec: [getCenterPoint()], the centre in the canvas
    plane. *)
Definition getCenterPoint (fuel : nat) (h : Heap) (r : Ref) : Answer Point :=
  let relCenter := getRelativeCenterPoint (h r) in
  match group (h r) with
  | None => Val relCenter
  | Some g =>
      m <~ calcTransformMatrix fuel h g ;;
      Val (transformPoint relCenter m false)
  end.

End Geometry.

(** *** Layout contexts and results *)

(** [LayoutContextType] *)
Inductive LayoutContextType :=
  | initialization
  | object_modified
  | added
  | removed
  | layout_change
  | imperative
  | progress.

Definition isType (a b : LayoutContextType) : bool :=
  match a, b with
  | initialization, initialization | object_modified, object_modified
  | added, added | removed, removed | layout_change, layout_change
  | imperative, imperative | progress, progress => true
  | _, _ => false
  end.

(** The constructor options the initial layout reads; a field is [Some]
    when [typeof] reports a number. *)
Record Options := mkOptions {
  optLeft : option Q;
  optTop : option Q;
  optWidth : option Q;
  optHeight : option Q;
  optAngle : option Q;
  optSkewX : option Q;
  optSkewY : option Q
}.

(** [LayoutResult]; [getObjectsBoundingBox] also reports the offset of
    the box. *)
Record LayoutResult := mkResult {
  centerX : Q;
  centerY : Q;
  correctionX : option Q;
  correctionY : option Q;
  width_ : Q;
  height_ : Q;
  offsetX : option Q;
  offsetY : option Q
}.

(** [Partial<LayoutResult> & { layout?: string }], the argument of
    [triggerLayout]. *)
Record Overrides := mkOverrides {
  ovCenterX : option Q;
  ovCenterY : option Q;
  ovCorrectionX : option Q;
  ovCorrectionY : option Q;
  ovWidth : option Q;
  ovHeight : option Q;
  ovLayout : option string
}.

(** [LayoutContext] *)
Record LayoutContext := mkContext {
  type : LayoutContextType;
  targets : list Ref;
  options : option Options;
  objectsRelativeToGroup : bool;
  context : option Overrides;
  path : list Ref
}.

Definition contextOf (t : LayoutContextType) : LayoutContext :=
  mkContext t [] None false None [].

Definition withType (t : LayoutContextType) (c : LayoutContext) : LayoutContext :=
  mkContext t (targets c) (options c) (objectsRelativeToGroup c) (context c) (path c).

Definition withPath (p : list Ref) (c : LayoutContext) : LayoutContext :=
  mkContext (type c) (targets c) (options c) (objectsRelativeToGroup c) (context c) p.

(** [Object.assign(bbox || {}, overrides)]: a field missing from both
    sides is [undefined], and the geometry computed from it is not a
    number. *)
Definition assignOverrides (bbox : option LayoutResult) (ov : Overrides)
  : Answer LayoutResult :=
  match bbox with
  | Some b =>
      Val (mkResult (default (centerX b) (ovCenterX ov))
                    (default (centerY b) (ovCenterY ov))
                    (match ovCorrectionX ov with Some c => Some c | None => correctionX b end)
                    (match ovCorrectionY ov with Some c => Some c | None => correctionY b end)
                    (default (width_ b) (ovWidth ov))
                    (default (height_ b) (ovHeight ov))
                    (offsetX b) (offsetY b))
  | None =>
      match ovCenterX ov, ovCenterY ov, ovWidth ov, ovHeight ov with
      | Some cx, Some cy, Some w, Some h =>
          Val (mkResult cx cy (ovCorrectionX ov) (ovCorrectionY ov) w h None None)
      | _, _, _, _ => Stop NotANumber
      end
  end.

(** *** Bounding boxes *)

(** The running [min], [max] and [first] of [getObjectsBoundingBox]. *)
Record Bounds := mkBounds { lower : Point; upper : Point; first : bool }.

Definition noBounds : Bounds := mkBounds (mkPoint 0 0) (mkPoint 0 0) true.

(** One turn of the loop for an object whose corners are [a] and [b]. *)
Definition include (acc : Bounds) (ab : Point * Point) : Bounds :=
  let (a, b) := ab in
  if first acc
  then mkBounds (mkPoint (Qmin (x a) (x b)) (Qmin (y a) (y b)))
                (mkPoint (Qmax (x a) (x b)) (Qmax (y a) (y b))) false
  else mkBounds (mkPoint (Qmin (Qmin (x (lower acc)) (x a)) (x b))
                         (Qmin (Qmin (y (lower acc)) (y a)) (y b)))
                (mkPoint (Qmax (Qmax (x (upper acc)) (x a)) (x b))
                         (Qmax (Qmax (y (upper acc)) (y a)) (y b))) false.

Section Group.

Variable math : MathLib.

(** The half-extents and centre an object contributes, rotated when the
    object is; [None] when the loop skips the object.  [nested] is
    [object.getObjectsBoundingBox] for a layer. *)
Definition objectBounds
         (nested : Ref -> list Ref -> bool -> Answer (option LayoutResult))
         (h : Heap) (object : Ref) : Answer (option (Point * Point)) :=
  let o := h object in
  measured <~
    (if isLayer o then
       bbox <~ nested object (_objects o) false ;;
       match bbox with
       | None => Val None
       | Some b =>
           Val (Some (scalarDivide
                        (_getTransformedDimensions math o
                           (Some (width_ b)) (Some (height_ b)) None) 2,
                      mkPoint (centerX b) (centerY b)))
       end
     else if String.eqb (layout o) "fill-parent" then Val None
     else Val (Some (scalarDivide (_getTransformedDimensions math o None None None) 2,
                     getRelativeCenterPoint math o))) ;;
  match measured with
  | None => Val None
  | Some (sizeVector, objCenter) =>
      let sizeVector :=
        if truthyNumber (angle o) then
          let sin := Qabs (sinDeg math (angle o)) in
          let cos := Qabs (cosDeg math (angle o)) in
          mkPoint (x sizeVector * cos + y sizeVector * sin)
                  (x sizeVector * sin + y sizeVector * cos)
        else sizeVector in
      Val (Some (subtract objCenter sizeVector, add objCenter sizeVector))
  end.

(** The [objects.forEach] loop. *)
Fixpoint boundsLoop (measure : Ref -> Answer (option (Point * Point)))
       (objects : list Ref) (acc : Bounds) : Answer Bounds :=
  match objects with
  | [] => Val acc
  | object :: rest =>
      ab <~ measure object ;;
      boundsLoop measure rest
        (match ab with Some ab => include acc ab | None => acc end)
  end.

(** What [getObjectsBoundingBox] returns for the accumulated bounds. *)
Definition boxOf (this : FObject) (acc : Bounds) (ignoreOffset : bool) : LayoutResult :=
  let size := subtract (upper acc) (lower acc) in
  let relativeCenter :=
    if ignoreOffset then scalarDivide size 2
    else midPointFrom (lower acc) (upper acc) in
  let offset := transformPoint (lower acc) (calcOwnMatrix math this) false in
  let center := transformPoint relativeCenter (calcOwnMatrix math this) false in
  mkResult (x center) (y center) None None (x size) (y size)
           (Some (x offset)) (Some (y offset)).

(** [getObjectsBoundingBox(objects, ignoreOffset)] *)
Fixpoint getObjectsBoundingBox (fuel : nat) (h : Heap) (this : Ref)
       (objects : list Ref) (ignoreOffset : bool) : Answer (option LayoutResult) :=
  match fuel with
  | O => Stop NoFuel
  | S fuel' =>
      match objects with
      | [] => Val None
      | _ =>
          acc <~ boundsLoop (objectBounds (getObjectsBoundingBox fuel' h) h)
                            objects noBounds ;;
          Val (Some (boxOf (h this) acc ignoreOffset))
      end
  end.

(** The bounds accumulated over [objects] (the state of the loop when
    it ends). *)
Definition accumulatedBounds (fuel : nat) (h : Heap) (objects : list Ref) : Answer Bounds :=
  match fuel with
  | O => Stop NoFuel
  | S fuel' =>
      boundsLoop (objectBounds (getObjectsBoundingBox fuel' h) h) objects noBounds
  end.

(** [prepareInitialBoundingBox(layoutDirective, objects, context)] *)
Definition prepareInitialBoundingBox (fuel : nat) (h : Heap) (this : Ref)
         (layoutDirective : string) (objects : list Ref) (ctx : LayoutContext)
  : Answer (option LayoutResult) :=
  let g := h this in
  let hasX := isSome (options ctx ≫= optLeft) in
  let hasY := isSome (options ctx ≫= optTop) in
  let hasWidth := isSome (options ctx ≫= optWidth) in
  let hasHeight := isSome (options ctx ≫= optHeight) in
  if (hasX && hasY && hasWidth && hasHeight && objectsRelativeToGroup ctx)
     || Nat.eqb (length objects) 0
  then Val None
  else
    bbox <~ getObjectsBoundingBox fuel h this objects false ;;
    match bbox with
    | None => Stop NotANumber
    | Some bbox =>
        let width := if hasWidth then width g else width_ bbox in
        let height := if hasHeight then height g else height_ bbox in
        let calculatedCenter := mkPoint (centerX bbox) (centerY bbox) in
        let origin := mkPoint (resolveOrigin (originX g)) (resolveOrigin (originY g)) in
        let size := mkPoint width height in
        let strokeWidthVector :=
          _getTransformedDimensions math g (Some 0) (Some 0) None in
        let sizeAfter :=
          _getTransformedDimensions math g (Some width) (Some height) (Some 0) in
        let bboxSizeAfter :=
          _getTransformedDimensions math g
            (Some (width_ bbox)) (Some (height_ bbox)) (Some 0) in
        let rotationCorrection := mkPoint 0 0 in
        let originT := scalarAdd origin (1 # 2) in
        let originCorrection := multiply sizeAfter originT in
        let centerCorrection :=
          mkPoint (if hasWidth then x bboxSizeAfter / 2 else x originCorrection)
                  (if hasHeight then y bboxSizeAfter / 2 else y originCorrection) in
        let center :=
          mkPoint (if hasX
                   then left g - (x sizeAfter + x strokeWidthVector) * x origin
                   else x calculatedCenter - x centerCorrection)
                  (if hasY
                   then top g - (y sizeAfter + y strokeWidthVector) * y origin
                   else y calculatedCenter - y centerCorrection) in
        let offsetCorrection :=
          add (mkPoint
                 (if hasX
                  then x center - x calculatedCenter
                       + x bboxSizeAfter * (if hasWidth then 1 # 2 else 0)
                  else - (if hasWidth
                          then (x sizeAfter - x strokeWidthVector) * (1 # 2)
                          else x sizeAfter * x originT))
                 (if hasY
                  then y center - y calculatedCenter
                       + y bboxSizeAfter * (if hasHeight then 1 # 2 else 0)
                  else - (if hasHeight
                          then (y sizeAfter - y strokeWidthVector) * (1 # 2)
                          else y sizeAfter * y originT)))
              rotationCorrection in
        let correction :=
          add (mkPoint (if hasWidth then - x sizeAfter / 2 else 0)
                       (if hasHeight then - y sizeAfter / 2 else 0))
              offsetCorrection in
        Val (Some (mkResult (x center) (y center)
                            (Some (x correction)) (Some (y correction))
                            (x size) (y size) None None))
    end.

(** [prepareBoundingBox(layoutDirective, objects, context)] *)
Definition prepareBoundingBox (fuel : nat) (h : Heap) (this : Ref)
         (layoutDirective : string) (objects : list Ref) (ctx : LayoutContext)
  : Answer (option LayoutResult) :=
  match type ctx, context ctx with
  | initialization, _ =>
      prepareInitialBoundingBox fuel h this layoutDirective objects ctx
  | imperative, Some overrides =>
      bbox <~ getObjectsBoundingBox fuel h this objects false ;;
      merged <~ assignOverrides bbox overrides ;;
      Val (Some merged)
  | _, _ => getObjectsBoundingBox fuel h this objects false
  end.

(** [getLayoutStrategyResult(layoutDirective, objects, context)] *)
Definition getLayoutStrategyResult (fuel : nat) (h : Heap) (this : Ref)
         (layoutDirective : string) (objects : list Ref) (ctx : LayoutContext)
  : Answer (option LayoutResult) :=
  let g := h this in
  let initialOrChange :=
    isType (type ctx) initialization || isType (type ctx) layout_change in
  if isType (type ctx) progress then Val None
  else if String.eqb layoutDirective "fit-content-lazy"
          && isType (type ctx) added
          && Nat.ltb (length (targets ctx)) (length objects)
  then
    let addedObjects := targets ctx ++ [this] in
    prepareBoundingBox fuel h this layoutDirective addedObjects ctx
  else if String.eqb layoutDirective "fit-content"
          || String.eqb layoutDirective "fit-content-lazy"
          || (String.eqb layoutDirective "fixed"
              && (isType (type ctx) initialization || isType (type ctx) imperative))
  then prepareBoundingBox fuel h this layoutDirective objects ctx
  else if String.eqb layoutDirective "clip-path" && isSome (clipPath g)
  then
    match clipPath g with
    | None => Val None
    | Some clip =>
        let c := h clip in
        let clipPathSizeAfter := _getTransformedDimensions math c None None None in
        if absolutePositioned c && initialOrChange then
          canvasCenter <~ getCenterPoint math fuel h clip ;;
          clipPathCenter <~
            match group g with
            | Some parent =>
                m <~ calcTransformMatrix math fuel h parent ;;
                Val (transformPoint canvasCenter (invertTransform m) false)
            | None => Val canvasCenter
            end ;;
          Val (Some (mkResult (x clipPathCenter) (y clipPathCenter) None None
                              (x clipPathSizeAfter) (y clipPathSizeAfter) None None))
        else if negb (absolutePositioned c) then
          let clipPathRelativeCenter := getRelativeCenterPoint math c in
          let clipPathCenter :=
            transformPoint clipPathRelativeCenter (calcOwnMatrix math g) true in
          if initialOrChange then
            bbox <~ prepareBoundingBox fuel h this layoutDirective objects ctx ;;
            let center :=
              match bbox with
              | Some b => mkPoint (centerX b) (centerY b)
              | None => mkPoint 0 0
              end in
            Val (Some (mkResult
                         (x center + x clipPathCenter) (y center + y clipPathCenter)
                         ((fun k => k - x clipPathCenter) <$> (bbox ≫= correctionX))
                         ((fun k => k - y clipPathCenter) <$> (bbox ≫= correctionY))
                         (width c) (height c) None None))
          else
            let center := getRelativeCenterPoint math g in
            Val (Some (mkResult
                         (x center + x clipPathCenter) (y center + y clipPathCenter)
                         None None
                         (x clipPathSizeAfter) (y clipPathSizeAfter) None None))
        else Val None
    end
  else if String.eqb layoutDirective "svg" && isType (type ctx) initialization
  then
    bbox <~ getObjectsBoundingBox fuel h this objects true ;;
    match bbox with
    | None => Stop NotANumber
    | Some b =>
        Val (Some (mkResult (centerX b) (centerY b)
                            (Qopp <$> offsetX b) (Qopp <$> offsetY b)
                            (width_ b) (height_ b) (offsetX b) (offsetY b)))
    end
  else Val None.

(** [_adjustObjectPosition(object, diff, setCoords)]; the coordinates
    refreshed by [setCoords] are not part of the state. *)
Fixpoint _adjustObjectPosition (fuel : nat) (object : Ref) (diff : Point) : Op unit :=
  match fuel with
  | O => exhausted
  | S fuel' =>
      h <- get ;;
      if isLayer (h object) then
        forEach (fun obj => _adjustObjectPosition fuel' obj diff) (_objects (h object))
      else
        modify (update object (fun o =>
          withPosition (left o + x diff) (top o + y diff) o))
  end.

(** [initialTransform]: [options && { angle: options.angle || 0, ... }] *)
Definition initialTransformOf (o : Options) : Q * Q * Q :=
  (default 0 (optAngle o), default 0 (optSkewX o), default 0 (optSkewY o)).

Definition setInitialTransform (this : Ref) (t : option (Q * Q * Q)) : Op unit :=
  match t with
  | Some (a, sx, sy) => modify (update this (withInitialTransform a sx sy))
  | None => ret tt
  end.

(** [_applyLayoutStrategy(context)], with [_bubbleLayout(context)] at
    its end.  The [onLayout] hook and the [layout] event carry no
    state. *)
Fixpoint _applyLayoutStrategy (fuel : nat) (this : Ref) (ctx : LayoutContext) : Op unit :=
  match fuel with
  | O => exhausted
  | S fuel' =>
      h <- get ;;
      let g := h this in
      let isFirstLayout := isType (type ctx) initialization in
      if negb isFirstLayout && negb (_firstLayoutDone g) then ret tt
      else if isType (type ctx) progress && _layoutInProgress g then ret tt
      else
        let opts := if isFirstLayout then options ctx else None in
        let initialTransform := initialTransformOf <$> opts in
        let center := getRelativeCenterPoint math g in
        result <- ask (fun h =>
          getLayoutStrategyResult fuel h this (layout g) (_objects g) ctx) ;;
        proceed <-
          match result with
          | Some result =>
              modify (update this (withLayoutInProgress true)) ;;;
              let newCenter := mkPoint (centerX result) (centerY result) in
              let vector :=
                add (subtract center newCenter)
                    (mkPoint (default 0 (correctionX result))
                             (default 0 (correctionY result))) in
              now <- get ;;
              let diff :=
                transformPoint vector
                  (invertTransform (calcOwnMatrix math (now this))) true in
              modify (update this (withSize (width_ result) (height_ result))) ;;;
              when (negb (eq newCenter center) || isSome initialTransform)
                   (modify (update this
                              (setPositionByOrigin math newCenter
                                 originCenter originCenter)) ;;;
                    setInitialTransform this initialTransform) ;;;
              when (negb (objectsRelativeToGroup ctx))
                   (now <- get ;;
                    forEach (fun object =>
                               cur <- get ;;
                               when (sameGroup (group (cur object)) this)
                                    (_adjustObjectPosition fuel object diff))
                            (_objects (now this))) ;;;
              now <- get ;;
              match clipPath (now this) with
              | Some clip =>
                  when (negb isFirstLayout
                        && negb (String.eqb (layout (now this)) "clip-path")
                        && negb (absolutePositioned (now clip)))
                       (_adjustObjectPosition fuel clip diff)
              | None => ret tt
              end ;;;
              modify (update this (withLayoutInProgress false)) ;;;
              ret true
          | None =>
              if isFirstLayout
              then setInitialTransform this initialTransform ;;; ret true
              else ret false
          end ;;
        if negb proceed then ret tt
        else
          modify (update this (withFirstLayoutDone true)) ;;;
          now <- get ;;
          match group (now this) with
          | Some parent =>
              if hasLayoutStrategy (now parent)
              then _applyLayoutStrategy fuel' parent (withPath (path ctx ++ [this]) ctx)
              else ret tt
          | None => ret tt
          end
  end.

(** [isOnACache()] *)
Fixpoint isOnACache (fuel : nat) (h : Heap) (this : Ref) : Answer bool :=
  match fuel with
  | O => Stop NoFuel
  | S fuel' =>
      if ownCaching (h this) then Val true
      else match group (h this) with
           | Some parent => isOnACache fuel' h parent
           | None => Val false
           end
  end.

(** [_set('dirty', value)] *)
Definition _set_dirty (this : Ref) (value : bool) : Op unit :=
  modify (update this (withDirty value)).

(** [InvalidationContext] *)
Record InvalidationContext := mkInvalidation {
  target : Ref;
  key : string
}.

(** [invalidate(context)]; of the invalidation context only the type,
    overwritten with [progress], is read by the layout pass. *)
Definition invalidate (fuel : nat) (this : Ref) (ictx : InvalidationContext) : Op unit :=
  cached <- ask (fun h => isOnACache fuel h this) ;;
  h <- get ;;
  when (cached && match canvas (h this) with
                  | None => true
                  | Some c => preserveObjectStacking c
                  end)
       (_set_dirty this true) ;;;
  _applyLayoutStrategy fuel this (contextOf progress).

(** [triggerLayout(context)] *)
Definition triggerLayout (fuel : nat) (this : Ref) (overrides : option Overrides)
  : Op unit :=
  match overrides ≫= ovLayout with
  | Some l =>
      when (negb (String.eqb l "")) (modify (update this (withLayout l)))
  | None => ret tt
  end ;;;
  _applyLayoutStrategy fuel this (mkContext imperative [] None false overrides []).

(** [__objectMonitor(opt)] *)
Definition __objectMonitor (fuel : nat) (this : Ref) : Op unit :=
  _applyLayoutStrategy fuel this (contextOf object_modified) ;;;
  _set_dirty this true.

(** [_onAfterObjectsChange(type, targets)] *)
Definition _onAfterObjectsChange (fuel : nat) (this : Ref)
         (t : LayoutContextType) (objects : list Ref) : Op unit :=
  _applyLayoutStrategy fuel this (mkContext t objects None false None []) ;;;
  _set_dirty this true.

(** [_set('layout', value)] *)
Definition _set_layout (fuel : nat) (this : Ref) (value : string) : Op unit :=
  h <- get ;;
  let prev := layout (h this) in
  modify (update this (withLayout value)) ;;;
  when (negb (String.eqb prev value))
       (_applyLayoutStrategy fuel this (contextOf layout_change)).

(** [op] run [n] times in a row. *)
Fixpoint times (n : nat) (op : Op unit) : Op unit :=
  match n with
  | O => ret tt
  | S n' => op ;;; times n' op
  end.

End Group.

(** The chain of owning containers above [r] ends within [n] steps. *)
Inductive ancestry (h : Heap) : nat -> Ref -> Prop :=
  | ancestry_root n r : group (h r) = None -> ancestry h (S n) r
  | ancestry_step n r p : group (h r) = Some p -> ancestry h n p -> ancestry h (S n) r.

(** An unrotated, unscaled, unskewed rectangle without stroke, anchored
    at its top left corner [(l, t)]. *)
Definition plainRectangle (o : FObject) (l t w h : Q) : Prop :=
  klass o = IsObject /\ layout o <> "fill-parent" /\
  left o = l /\ top o = t /\ width o = w /\ height o = h /\
  scaleX o = 1 /\ scaleY o = 1 /\ skewX o = 0 /\ skewY o = 0 /\
  angle o = 0 /\ strokeWidth o = 0 /\
  originX o = originLeft /\ originY o = originTop.

(** The corners contributed by the objects the loop does not skip, in
    order. *)
Fixpoint corners (measure : Ref -> Answer (option (Point * Point)))
         (objects : list Ref) : Answer (list (Point * Point)) :=
  match objects with
  | [] => Val []
  | object :: rest =>
      ab <~ measure object ;;
      others <~ corners measure rest ;;
      Val (match ab with Some ab => ab :: others | None => others end)
  end%run.


(** Bounds that hold at least one object are ordered. *)
Definition orderedBounds (acc : Bounds) : Prop :=
  first acc = false ->
  x (lower acc) <= x (upper acc) /\ y (lower acc) <= y (upper acc).

(** Equality of bounds and of layout results, up to the representation of
    the rationals. *)
Definition sameBounds (a b : Bounds) : Prop :=
  point_eq (lower a) (lower b) /\ point_eq (upper a) (upper b) /\ first a = first b.

Definition sameNumber (a b : option Q) : Prop :=
  match a, b with
  | Some p, Some q => p == q
  | None, None => True
  | _, _ => False
  end.

Definition sameResult (r s : LayoutResult) : Prop :=
  centerX r == centerX s /\ centerY r == centerY s /\
  width_ r == width_ s /\ height_ r == height_ s /\
  sameNumber (correctionX r) (correctionX s) /\
  sameNumber (correctionY r) (correctionY s) /\
  sameNumber (offsetX r) (offsetX s) /\ sameNumber (offsetY r) (offsetY s).

(** A group whose own plane is the plane of its parent: centred on the
    origin, unrotated, unscaled, unskewed, without stroke. *)
Definition centredOnOrigin (o : FObject) : Prop :=
  klass o = IsGroup /\
  scaleX o = 1 /\ scaleY o = 1 /\ skewX o = 0 /\ skewY o = 0 /\ angle o = 0 /\
  strokeWidth o = 0 /\ flipX o = false /\ flipY o = false /\
  originX o = originLeft /\ originY o = originTop /\
  left o == - (width o / 2) /\ top o == - (height o / 2).

(** The box of a group, [width] by [height] around the origin of its own
    plane, is the box accumulated over [objects]. *)
Definition boxIsBoundsOf (o : FObject) (acc : Bounds) : Prop :=
  first acc = false /\
  x (lower acc) == - (width o / 2) /\ y (lower acc) == - (height o / 2) /\
  x (upper acc) == width o / 2 /\ y (upper acc) == height o / 2.

(** The constructor was given [left], [top], [width] and [height]. *)
Definition explicitBoxGiven (ctx : LayoutContext) : Prop :=
  exists o l t w h,
    options ctx = Some o /\ optLeft o = Some l /\ optTop o = Some t /\
    optWidth o = Some w /\ optHeight o = Some h.

(** [!this.canvas || this.canvas.preserveObjectStacking] *)
Definition stacking (o : FObject) : bool :=
  match canvas o with
  | None => true
  | Some c => preserveObjectStacking c
  end.

(** Two objects that differ in their dirty flag at most. *)
Definition sameButDirty (a b : FObject) : Prop :=
  exists d, a = withDirty d b.

End Layout.

(** ** Concrete scenes
    The scenes on which the definitions are run: the math library used to
    run them, and the objects of each scene. *)


Module Scenes.
Import Affine Run.
Local Open Scope Q_scope.

(** A rational sine: Bhaskara's formula after reduction to a half turn.
    It is exact at the multiples of 30 degrees whose sine is rational
    (0, 30, 90, 150, 180, ...). *)
Definition bhaskara (r : Q) : Q :=
  4 * r * (180 - r) / (40500 - r * (180 - r)).

Definition sine (degrees : Q) : Q :=
  let turns := inject_Z (Qfloor (degrees / 360)) in
  let r := degrees - 360 * turns in
  if Qle_bool r 180 then bhaskara r else - bhaskara (r - 180).

Definition cosine (degrees : Q) : Q := sine (degrees + 90).

Definition rationalMath : Layout.MathLib :=
  Layout.mkMathLib sine cosine (fun d => sine d / cosine d).

Module L := Layout.

(** A rectangle: unrotated, unscaled, unskewed, anchored at its top left
    corner. *)
Definition rect (l t w h stroke : Q) (owner : option L.Ref) : L.FObject :=
  L.mkFObject L.IsObject l t w h 1 1 0 0 0 stroke false false false
              L.originLeft L.originTop "" owner None [] None false
              false false false false false.

(** A group as the constructor leaves it before the initial layout. *)
Definition newGroup (layout : string) (children : list L.Ref) : L.FObject :=
  L.mkFObject L.IsGroup 0 0 0 0 1 1 0 0 0 0 false false false
              L.originLeft L.originTop layout None None children None false
              false false false false false.

(** A group whose first layout is done. *)
Definition laidOutGroup (layout : string) (l t w h : Q) (children : list L.Ref)
           (inProgress : bool) : L.FObject :=
  L.mkFObject L.IsGroup l t w h 1 1 0 0 0 0 false false false
              L.originLeft L.originTop layout None None children None false
              false false false true inProgress.

(** The heap in which every reference denotes an inert rectangle of size
    zero. *)
Definition emptyHeap : L.Heap := fun _ => rect 0 0 0 0 0 None.

Definition heapOf (l : list (L.Ref * L.FObject)) : L.Heap :=
  fold_right (fun ro h => <[ro.1 := ro.2]> h) emptyHeap l.

(** The scene of [test/unit/activeselection.js]: two rectangles, given in
    the canvas plane, grouped by the constructor. *)
Definition testScene : L.Heap :=
  heapOf [ (0%nat, newGroup "fit-content" [1%nat; 2%nat]);
           (1%nat, rect 100 100 30 10 0 (Some 0%nat));
           (2%nat, rect 50 120 10 40 0 (Some 0%nat)) ].

Definition testOptions : L.Options :=
  L.mkOptions None None None None None None None.

(** Scenario 1 of the specification: the two rectangles in the plane of
    their container. *)
Definition scenario1 : L.Heap :=
  heapOf [ (0%nat, laidOutGroup "fit-content" (-40) (-30) 80 60 [1%nat; 2%nat] false);
           (1%nat, rect 10 (-30) 30 10 0 (Some 0%nat));
           (2%nat, rect (-40) (-10) 10 40 0 (Some 0%nat)) ].

(** A container in the middle of a layout pass whose only child has grown
    from 10 to 20 units wide. *)
Definition midPass : L.Heap :=
  heapOf [ (0%nat, laidOutGroup "fit-content" 0 0 10 10 [1%nat] true);
           (1%nat, rect (-5) (-5) 20 10 0 (Some 0%nat)) ].

(** A [fixed] container under construction, given explicit [left],
    [top], [width] and [height], with one child. *)
Definition fixedScene : L.Heap :=
  heapOf [ (0%nat, L.withSize 100 100 (newGroup "fixed" [1%nat]));
           (1%nat, rect 10 10 20 20 0 (Some 0%nat)) ].

Definition explicitBox : L.Options :=
  L.mkOptions (Some 0) (Some 0) (Some 100) (Some 100) None None None.

Definition constructorContext (relative : bool) : L.LayoutContext :=
  L.mkContext L.initialization [] (Some explicitBox) relative None [].



Definition addedContext (l : list L.Ref) : L.LayoutContext :=
  L.mkContext L.added l None false None [].

(** A [fit-content-lazy] container built around a rectangle at (95, 95),
    to which a rectangle standing at (200, 200) in the canvas plane, that
    is at (100, 100) in the plane of the container, has just been
    added. *)
Definition offCentreScene : L.Heap :=
  heapOf [ (0%nat, laidOutGroup "fit-content-lazy" 95 95 10 10 [1%nat; 2%nat] false);
           (1%nat, rect (-5) (-5) 10 10 0 (Some 0%nat));
           (2%nat, rect 100 100 10 10 0 (Some 0%nat)) ].

(** A group owned by [owner], with its own cache or not, on a canvas or
    not; its first layout is done. *)
Definition groupIn (owner : option L.Ref) (caching : bool) (on : option L.Canvas)
           (children : list L.Ref) : L.FObject :=
  L.mkFObject L.IsGroup 0 0 10 10 1 1 0 0 0 0 false false false
              L.originLeft L.originTop "fit-content" owner on children None false
              false false caching true false.

(** A caching group (0) that owns a group (3), itself the owner of a
    rectangle (1); the rectangle is also under a selection container (4),
    which owns nothing. *)
Definition cachedScene : L.Heap :=
  heapOf [ (0%nat, groupIn None true None [3%nat]);
           (3%nat, groupIn (Some 0%nat) false None [1%nat]);
           (1%nat, rect 0 0 10 10 0 (Some 3%nat));
           (4%nat, groupIn None false None [1%nat]) ].

Definition fillChanged : L.InvalidationContext := L.mkInvalidation 1%nat "fill".

(** *** Containers and stored transforms *)

Module Mb := Membership.

Definition placed (m : TMat2D) (owner : option Mb.Ref) (children : list Mb.Ref)
  : Mb.FObject :=
  Mb.mkFObject m owner None children [] false false false [].

Definition staticCanvas : Mb.Canvas := Mb.mkCanvas false None false.

Definition placedHeap (l : list (Mb.Ref * Mb.FObject)) : Mb.Heap :=
  Mb.mkHeap (fold_right (fun ro h => <[ro.1 := ro.2]> h)
                        (fun _ => placed iMatrix None []) l)
            (fun _ => staticCanvas).

(** A container (0) scaled by 2 and moved to (10, 20); a free object (1);
    a container (5) stretched vertically that owns a rotated object (6). *)
Definition planeScene : Mb.Heap :=
  placedHeap [ (0%nat, placed (mkMat 2 0 0 2 10 20) None []);
               (1%nat, placed (mkMat 1 0 0 1 5 5) None []);
               (5%nat, placed (mkMat 1 0 0 3 7 0) None [6%nat]);
               (6%nat, placed (mkMat 0 1 (-1) 0 1 1) (Some 5%nat) []) ].

(** The layout pass of a container under the [fixed] directive: it leaves
    the heap as it is on [added] and [removed] triggers. *)
Definition fixedLayoutPass (t : Mb.Trigger) (g : Mb.Ref) (l : list Mb.Ref)
  : Mb.Heap -> Mb.Heap := fun h => h.

(** *** Deserialisation records *)

Module R := Registry.

(** Handlers are named by the function they stand for. *)
Definition classes : R.RegistryMap string :=
  R.registerClass
    (R.registerClass ∅ "rect" (R.Build_TClassIO "Rect.fromObject" None))
    "gradient" (R.Build_TClassIO "Gradient.fromObject" None).

(** [{ type: 'rect', colorStops: [] }] *)
Definition typedWithStops : R.Data :=
  <["type" := JS.VString "rect"]> (<["colorStops" := JS.VArray []]> ∅).

(** [{ type: 'rect', colorStops: null }] *)
Definition typedWithNullStops : R.Data :=
  <["type" := JS.VString "rect"]> (<["colorStops" := JS.VNull]> ∅).

(** [{ type: 'rect' }] and [{ type: 'star' }] *)
Definition rectRecord : R.Data := <["type" := JS.VString "rect"]> ∅.
Definition starRecord : R.Data := <["type" := JS.VString "star"]> ∅.

(** A registry with a class registered under the empty key, and the
    record [{ type: '' }]. *)
Definition anonymousClass : R.RegistryMap string :=
  R.register ∅ "" (R.Build_TRegistry "Anonymous.fromObject" None).
Definition emptyTypeRecord : R.Data := <["type" := JS.VString ""]> ∅.

End Scenes.

(** ** The type registry, SVG side ([src/unnamed/part_000]) *)

Module RegistrySVG.
Import JS Registry.

(** [s.slice(n)] *)
Fixpoint dropChars (n : nat) (s : string) : string :=
  match n, s with
  | S n', String _ s' => dropChars n' s'
  | _, _ => s
  end.

(** [s.replace(pattern, replacement)] for a string pattern: the first
    occurrence of the pattern, if any, is replaced.  The replacements used
    by the registry hold no [$] pattern. *)
Fixpoint replaceFirst (pattern replacement s : string) : string :=
  if String.prefix pattern s
  then String.append replacement (dropChars (String.length pattern) s)
  else match s with
       | EmptyString => EmptyString
       | String c s' => String c (replaceFirst pattern replacement s')
       end.

(** [resolveSVGKey(el)], a function of [el.tagName]. *)
Definition resolveSVGKey (tagName : string) : string :=
  replaceFirst "svg:" "" tagName.

(** The characters of a string. *)
Fixpoint chars (s : string) : list Ascii.ascii :=
  match s with
  | EmptyString => []
  | String c s' => c :: chars s'
  end.

Section WithHandlers.

Context {Handler : Type}.

(** [new Error(`fabric: failed to get SVG handler for key "${key}"`)] *)
Inductive SVGCompletion :=
  | SVGReturn (handler : Handler)
  | SVGThrow (key : string).

(** [getSVGHandler(el)] *)
Definition getSVGHandler (registry : RegistryMap Handler) (tagName : string)
  : SVGCompletion :=
  let key := resolveSVGKey tagName in
  match registry !! key ≫= svg with
  | Some handler => SVGReturn handler
  | None => SVGThrow key
  end.

End WithHandlers.

Arguments SVGCompletion : clear implicits.

End RegistrySVG.

(** ** Invariants of layout passes *)

Module LayoutInvariants.
Import Affine Run Layout.
Local Open Scope Q_scope.

(** [r] or one of the containers above it has its own cache. *)
Inductive cachedAbove (h : Heap) : Ref -> Prop :=
  | cached_here r : ownCaching (h r) = true -> cachedAbove h r
  | cached_parent r p :
      group (h r) = Some p -> cachedAbove h p -> cachedAbove h r.


(** Two objects that agree on every field but their position, size, angle,
    skew and layout flags. *)
Definition sameButGeometry (a b : FObject) : Prop :=
  klass a = klass b /\ scaleX a = scaleX b /\ scaleY a = scaleY b /\
  strokeWidth a = strokeWidth b /\ strokeUniform a = strokeUniform b /\
  flipX a = flipX b /\ flipY a = flipY b /\
  originX a = originX b /\ originY a = originY b /\
  layout a = layout b /\ group a = group b /\ canvas a = canvas b /\
  _objects a = _objects b /\ clipPath a = clipPath b /\
  absolutePositioned a = absolutePositioned b /\
  subTargetCheck a = subTargetCheck b /\
  dirty a = dirty b /\ ownCaching a = ownCaching b.

(** The corners [a] and [b] of an object lie inside the bounds. *)
Definition within (acc : Bounds) (ab : Point * Point) : Prop :=
  let (a, b) := ab in
  x (lower acc) <= x a <= x (upper acc) /\ y (lower acc) <= y a <= y (upper acc) /\
  x (lower acc) <= x b <= x (upper acc) /\ y (lower acc) <= y b <= y (upper acc).



(** An object that was moved at most. *)
Definition onlyMoved (new old : FObject) : Prop :=
  exists l t, new = withPosition l t old.

(** [h1] is [h] after the container [g] was given the size [w] by [hh]:
    the container has that size and is otherwise changed in its geometry
    at most, and every other object was moved at most. *)
Definition resized (h : Heap) (g : Ref) (w hh : Q) (h1 : Heap) : Prop :=
  (forall r, r <> g -> onlyMoved (h1 r) (h r)) /\
  sameButGeometry (h1 g) (h g) /\ width (h1 g) = w /\ height (h1 g) = hh.

End LayoutInvariants.

(** ** Selection bookkeeping and subscriptions ([fabric.Group]) *)

Module Bookkeeping.
Import Affine Run Membership.
Local Open Scope run_scope.

Definition withInteractive (b : bool) (o : FObject) : FObject :=
  mkFObject (ownMatrix o) (group o) (canvas o) (_objects o) (_activeObjects o)
            b (subTargetCheck o) (dirty o) (monitors o).

(** [__objectSelectionMonitor(selected, opt)], with [object] for
    [opt.target]. *)
Definition __objectSelectionMonitor (selected : bool) (this object : Ref) : Op unit :=
  if selected then
    modify (update this (fun g => withActiveObjects (_activeObjects g ++ [object]) g)) ;;;
    _set_dirty this true
  else
    h <- get ;;
    if Nat.ltb 0 (length (_activeObjects (objs h this))) then
      if includes object (_activeObjects (objs h this)) then
        modify (update this (fun g =>
                  withActiveObjects (spliceOut object (_activeObjects g)) g)) ;;;
        _set_dirty this true
      else ret tt
    else ret tt.

(** [_set('interactive', value)]: the write, then
    [forEachObject(this._watchObject.bind(this, value))]. *)
Definition _set_interactive (this : Ref) (value : bool) : Op unit :=
  modify (update this (withInteractive value)) ;;;
  h <- get ;;
  forEach (fun object => modify (_watchObject value this object))
          (_objects (objs h this)).

(** The number of subscriptions of [g] among the monitors of an object. *)
Definition subscriptions (g : Ref) (o : FObject) : nat :=
  count_occ Nat.eq_dec (monitors o) g.

End Bookkeeping.

(** ** Subtrees of child lists *)

Module Subtrees.
Import Affine Run Membership.

(** [d] is [r] or one of the objects below it in the tree of child
    lists. *)
Inductive below (h : Heap) : Ref -> Ref -> Prop :=
  | below_self r : below h r r
  | below_child r c d :
      In c (_objects (objs h r)) -> below h c d -> below h r d.

(** Every object of the subtree of [r] is on canvas [v]. *)
Definition allOn (h : Heap) (v : option Ref) (r : Ref) : Prop :=
  forall d, below h r d -> canvas (objs h d) = v.

(** Every object of the subtree of [r] is still on the old canvas, or is
    on the new one with all its subtree. *)
Definition pending (old value : option Ref) (h : Heap) (r : Ref) : Prop :=
  forall d, below h r d -> canvas (objs h d) = old \/ allOn h value d.

(** What a propagation leaves: the objects are the same up to their
    canvas, objects on the new canvas stay there, and an object whose
    canvas changed has all its subtree on the new canvas. *)
Definition propagated (value : option Ref) (h h' : Heap) : Prop :=
  sameButCanvas h h' /\
  (forall q, canvas (objs h q) = value -> canvas (objs h' q) = value) /\
  (forall q, canvas (objs h' q) <> canvas (objs h q) -> allOn h' value q).

End Subtrees.

(** ** Emptying a group ([fabric.Group]) *)

Module Emptying.
Import Affine Run Membership.
Local Open Scope run_scope.

(** [removeAll()] *)
Definition removeAll (layoutPass : Trigger -> Ref -> list Ref -> Heap -> Heap)
           (fuel : nat) (this : Ref) : Op (list Ref) :=
  modify (update this (withActiveObjects [])) ;;;
  h <- get ;;
  remove layoutPass fuel this (_objects (objs h this)).

End Emptying.

(** ** The saturation filter ([src/src/filters/saturate_filter.class.ts]) *)

Module Saturation.
Local Open Scope Q_scope.

(** A store into a [Uint8ClampedArray]: the number is clamped to
    [0, 255] and rounded to the nearest integer, ties to the even one. *)
Definition toUint8Clamp (q : Q) : Z :=
  if Qle_bool q 0 then 0%Z
  else if Qle_bool 255 q then 255%Z
  else
    let f := Qfloor q in
    let half := inject_Z f + (1 # 2) in
    if negb (Qle_bool q half) then (f + 1)%Z
    else if negb (Qle_bool half q) then f
    else if Z.even f then f else (f + 1)%Z.

(** [data[i] += max !== data[i] ? (max - data[i]) * adjust : 0] *)
Definition saturated (adjust : Q) (max value : Z) : Z :=
  toUint8Clamp
    (inject_Z value + (if Z.eqb max value then 0 else inject_Z (max - value) * adjust)).

(** The loop of [applyTo2d] over the pixels, four bytes each.  In a last
    chunk of one or two bytes the missing channels read [undefined], the
    maximum is not a number and the bytes are stored as 0. *)
Fixpoint applyPixels (adjust : Q) (data : list Z) : list Z :=
  match data with
  | r :: g :: b :: rest =>
      let max := Z.max (Z.max r g) b in
      saturated adjust max r :: saturated adjust max g :: saturated adjust max b
        :: match rest with
           | a :: rest' => a :: applyPixels adjust rest'
           | [] => []
           end
  | [_; _] => [0; 0]%Z
  | [_] => [0]%Z
  | [] => []
  end.

(** [applyTo2d({ imageData: { data } })], as a function from the bytes
    found to the bytes left. *)
Definition applyTo2d (saturation : Q) (data : list Z) : list Z :=
  if Qeq_bool saturation 0 then data else applyPixels (- saturation) data.

(** The element of a byte array: [0 <= b <= 255]. *)
Definition isByte (b : Z) : Prop := (0 <= b <= 255)%Z.

(** The red, green and blue bytes of pixel [k], and the brightest of
    them. *)
Definition channelOf (data : list Z) (k c : nat) : Z := nth (4 * k + c) data 0%Z.

Definition brightest (data : list Z) (k : nat) : Z :=
  Z.max (Z.max (channelOf data k 0) (channelOf data k 1)) (channelOf data k 2).

End Saturation.

(** ** Stroke projections ([src/unnamed/part_001], [projectStrokeOnPoints]) *)

Module Stroke.
Import Affine.

Section WithProjections.

(** The projection classes, the options they read and [findIndexRight]
    are imported by the source and are not part of it: they are
    parameters.  A neighbour read past the end of the array is
    [undefined]. *)
Context {Projection Options : Type}.
Variable capProjections : Point -> option Point -> Options -> list Projection.
Variable joinProjections : Point -> option Point -> option Point -> Options -> list Projection.
Variable findIndexRight : list Point -> (Point -> bool) -> Z.

(** The [reduce] callback: a point equal to the last one kept is
    dropped. *)
Fixpoint dedupe (last : Point) (points : list Point) : list Point :=
  match points with
  | [] => []
  | point :: rest =>
      if eq last point then dedupe last rest else point :: dedupe point rest
  end.

(** [points.reduce(..., [new Point(points[0])])] *)
Definition reducePoints (points : list Point) : list Point :=
  match points with
  | [] => []
  | first :: _ => first :: dedupe first points
  end.

(** [array.splice(start)]: the elements from [start] on are removed; a
    negative [start] counts from the end. *)
Definition spliceFrom (start : Z) (l : list Point) : list Point :=
  let len := Z.of_nat (length l) in
  let from := if (start <? 0)%Z then Z.max (len + start) 0 else Z.min start len in
  firstn (Z.to_nat from) l.

(** The callback of [reduced.forEach((A, index, points) => ...)]. *)
Definition projectionsAt (options : Options) (openPath : bool) (points : list Point)
           (index : nat) (A : Point) : list Projection :=
  let last := (length points - 1)%nat in
  let B :=
    if Nat.eqb index 0 then (if openPath then Some A else points !! last)
    else points !! (index - 1)%nat in
  let C :=
    if Nat.eqb index 0 then points !! 1%nat
    else if Nat.eqb index last then (if openPath then Some A else points !! 0%nat)
    else points !! (index + 1)%nat in
  if openPath && (Nat.eqb index 0 || Nat.eqb index last)
  then capProjections A (if Nat.eqb index 0 then C else B) options
  else joinProjections A B C options.

(** [projectStrokeOnPoints(points, options, openPath = false)] *)
Definition projectStrokeOnPoints (points : list Point) (options : Options)
           (openPath : bool) : list Projection :=
  match points with
  | [] => []
  | _ =>
      let reduced := reducePoints points in
      let openPath' := if Nat.eqb (length reduced) 1 then true else openPath in
      let reduced' :=
        if Nat.eqb (length reduced) 1 then reduced
        else if negb openPath then
          match reduced with
          | [] => reduced
          | start :: _ =>
              let index := findIndexRight reduced (fun point => negb (eq point start)) in
              spliceFrom (index + 1) reduced
          end
        else reduced in
      concat (imap (projectionsAt options openPath' reduced') reduced')
  end.

(** The projections of an open path after its first point: a join at
    each point that has a successor, between its two neighbours, and a cap
    at the last point, towards the point before it. *)
Fixpoint openPathAfter (options : Options) (previous : Point) (points : list Point)
  : list Projection :=
  match points with
  | [] => []
  | A :: rest =>
      match rest with
      | [] => capProjections A (Some previous) options
      | C :: _ =>
          joinProjections A (Some previous) (Some C) options
          ++ openPathAfter options A rest
      end
  end.

End WithProjections.

End Stroke.

(** ** Shadows and caching ([fabric.Group]) *)

Module Shadows.
Import Affine Run Layout.
Local Open Scope run_scope.

Definition withOwnCaching (b : bool) (o : FObject) : FObject :=
  mkFObject (klass o) (left o) (top o) (width o) (height o) (scaleX o) (scaleY o)
    (skewX o) (skewY o) (angle o) (strokeWidth o) (strokeUniform o) (flipX o) (flipY o)
    (originX o) (originY o) (layout o) (group o) (canvas o) (_objects o) (clipPath o)
    (absolutePositioned o) (subTargetCheck o) (dirty o) b
    (_firstLayoutDone o) (_layoutInProgress o).

(** [for (...) { if (f(objects[i])) { return true; } } return false] *)
Fixpoint anyOf (f : Ref -> Answer bool) (objects : list Ref) : Answer bool :=
  match objects with
  | [] => Val false
  | object :: rest =>
      found <~ f object ;;
      if (found : bool) then Val true else anyOf f rest
  end.

Section WithObject.

(** [fabric.Object.prototype.willDrawShadow] and
    [fabric.Object.prototype.shouldCache] are not part of the sources.
    The first reads the shadow of the object, which no method of the group
    writes; the second is an operation on the heap. *)
Variable castsShadow : Ref -> bool.
Variable objectShouldCache : Ref -> Op bool.

(** [willDrawShadow()]: the method of a group on a group or a layer, the
    method of [fabric.Object] on any other object. *)
Fixpoint willDrawShadow (fuel : nat) (h : Heap) (this : Ref) : Answer bool :=
  match fuel with
  | O => Stop NoFuel
  | S fuel' =>
      if castsShadow this then Val true
      else if hasLayoutStrategy (h this)
      then anyOf (willDrawShadow fuel' h) (_objects (h this))
      else Val false
  end.

(** [shouldCache()] *)
Definition shouldCache (fuel : nat) (this : Ref) : Op bool :=
  ownCache <- objectShouldCache this ;;
  if (ownCache : bool) then
    shadow <- ask (fun h => anyOf (willDrawShadow fuel h) (_objects (h this))) ;;
    if (shadow : bool)
    then modify (update this (withOwnCaching false)) ;;; ret false
    else ret ownCache
  else ret ownCache.

(** [d] is [r], or is reached from [r] through the child lists of
    groups. *)
Inductive reaches (h : Heap) : Ref -> Ref -> Prop :=
  | reaches_self r : reaches h r r
  | reaches_child r c d :
      hasLayoutStrategy (h r) = true -> In c (_objects (h r)) ->
      reaches h c d -> reaches h r d.

(** The groups below [r] nest less than [n] deep. *)
Inductive nestedGroups (h : Heap) : nat -> Ref -> Prop :=
  | nested_groups n r :
      (hasLayoutStrategy (h r) = true ->
       forall c, In c (_objects (h r)) -> nestedGroups h n c) ->
      nestedGroups h (S n) r.

End WithObject.

End Shadows.

(** ** More scenes *)

Module MoreScenes.
Import Affine Run Layout Scenes.
Local Open Scope Q_scope.


(** The argument of [triggerLayout({ width: 300, height: 200 })]. *)
Definition sizeOverrides : Overrides :=
  mkOverrides None None None None (Some 300) (Some 200) None.

(** A laid out [fit-content] container, 80 by 60, that has lost its
    children. *)
Definition emptiedScene : Heap :=
  heapOf [ (0%nat, laidOutGroup "fit-content" (-40) (-30) 80 60 [] false) ].

(** Scenario 1 with a third child, far away, whose directive is
    [fill-parent]. *)
Definition fillChildScene : Heap :=
  heapOf [ (0%nat, laidOutGroup "fit-content" (-40) (-30) 80 60 [1%nat; 2%nat; 3%nat] false);
           (1%nat, rect 10 (-30) 30 10 0 (Some 0%nat));
           (2%nat, rect (-40) (-10) 10 40 0 (Some 0%nat));
           (3%nat, withLayout "fill-parent" (rect 500 500 1000 1000 0 (Some 0%nat))) ].

(** One opaque orange pixel. *)
Definition orangePixel : list Z := [200; 100; 50; 255]%Z.

(** Projections that record the point they are computed for, and the
    index of the last point that satisfies a predicate. *)
Definition capAt (A : Point) (neighbour : option Point) (options : unit) : list Point :=
  [A].

Definition joinAt (A : Point) (B C : option Point) (options : unit) : list Point :=
  [A; A].

Fixpoint lastIndex (l : list Point) (test : Point -> bool) : Z :=
  match l with
  | [] => (-1)%Z
  | p :: rest =>
      let found := lastIndex rest test in
      if (0 <=? found)%Z then (found + 1)%Z else if test p then 0%Z else (-1)%Z
  end.

(** Rectangle 1 casts a shadow, and the object method always asks for a
    cache. *)
Definition shadowOf (r : Ref) : bool := Nat.eqb r 1.

Definition alwaysCache (this : Ref) : Op bool := ret true.

End MoreScenes.

(* ================================================================== *)
(** * Part II.  Properties                                             *)
(* ================================================================== *)

(** ** The type registry *)

Module RegistryFacts.
Import JS Registry Scenes.

Section WithHandlers.

Context {Handler : Type}.
Implicit Types (registry : RegistryMap Handler) (data : Data).

Lemma registeredHandler_Some registry key h :
  registeredHandler registry key = Some h ->
  exists entry, registryGet registry key = Some entry /\ json entry = h.
Proof.
  unfold registeredHandler. destruct (registryGet registry key) as [entry|]; simpl.
  - intros [= <-]. now exists entry.
  - discriminate.
Qed.

Lemma registeredHandler_None registry key :
  registeredHandler registry key = None -> registryGet registry key = None.
Proof.
  unfold registeredHandler. now destruct (registryGet registry key).
Qed.

(** In strict mode nothing but a registered handler is ever returned. *)
Lemma strict_return_is_registered registry data v :
  getJSONHandler registry data true = Return v ->
  exists h, v = HFunction h /\
          registeredHandler registry (resolveJSONKey data) = Some h.
Proof.
  unfold getJSONHandler, registeredHandler.
  destruct (truthy (resolveJSONKey data)); simpl; [|discriminate].
  destruct (registryGet registry (resolveJSONKey data)) as [entry|]; simpl;
  [|discriminate].
  intros [= <-]. now exists (json entry).
Qed.

End WithHandlers.

(** C9, as amended.  In strict mode [getJSONHandler] throws when no
    handler is registered for the resolved key; when a handler is
    registered for the resolved key and the key is truthy (any string but
    the empty one), that handler is returned and nothing is thrown. *)
Theorem getJSONHandler_strict {Handler : Type}
        (registry : RegistryMap Handler) (data : Data) :
  (registeredHandler registry (resolveJSONKey data) = None ->
   getJSONHandler registry data true
   = Throw (FailedToGetJSONHandler (resolveJSONKey data))) /\
  (forall h,
      registeredHandler registry (resolveJSONKey data) = Some h ->
      truthy (resolveJSONKey data) = true ->
      getJSONHandler registry data true = Return (HFunction h)).
Proof.
  split.
  - intros Hnone. apply registeredHandler_None in Hnone.
    unfold getJSONHandler. rewrite Hnone.
    now destruct (truthy (resolveJSONKey data)).
  - intros h Hsome Htruthy.
    apply registeredHandler_Some in Hsome as (entry & Hget & <-).
    unfold getJSONHandler. now rewrite Htruthy, Hget.
Qed.

Lemma getJSONHandler_strict_witness :
  getJSONHandler classes starRecord true
  = Throw (FailedToGetJSONHandler (VString "star")) /\
  getJSONHandler classes rectRecord true = Return (HFunction "Rect.fromObject"%string).
Proof.
  split.
  - apply (proj1 (getJSONHandler_strict classes starRecord)). reflexivity.
  - apply (proj2 (getJSONHandler_strict classes rectRecord)); reflexivity.
Defined.

(** A class registered under the empty key is never found: the record
    [{ type: '' }] resolves to a key that has a handler, and strict mode
    throws all the same. *)
Lemma getJSONHandler_empty_key_throws :
  registeredHandler anonymousClass (resolveJSONKey emptyTypeRecord)
  = Some "Anonymous.fromObject"%string /\
  getJSONHandler anonymousClass emptyTypeRecord true
  = Throw (FailedToGetJSONHandler (VString "")).
Proof. split; reflexivity. Qed.

(** C10, as amended.  A record whose [colorStops] field holds a truthy
    value (any array or object, the empty list included) resolves to
    ['gradient'], whatever its [type] field holds. *)
Theorem resolveJSONKey_colorStops (data : Data) (stops : Value) :
  data !! "colorStops"%string = Some stops ->
  truthy stops = true ->
  resolveJSONKey data = VString "gradient".
Proof.
  intros Hstops Htruthy. unfold resolveJSONKey, prop.
  now rewrite Hstops; simpl; rewrite Htruthy.
Qed.

Lemma resolveJSONKey_colorStops_witness :
  prop typedWithStops "type" = VString "rect" /\
  resolveJSONKey typedWithStops = VString "gradient".
Proof.
  split; [reflexivity|].
  apply (resolveJSONKey_colorStops typedWithStops (VArray [])); reflexivity.
Defined.

(** A record that contains a [colorStops] field holding [null] keeps its
    own type. *)
Lemma resolveJSONKey_null_colorStops :
  typedWithNullStops !! "colorStops"%string = Some VNull /\
  resolveJSONKey typedWithNullStops = VString "rect".
Proof. split; reflexivity. Qed.

End RegistryFacts.

(** ** Layout passes *)

Module LayoutFacts.
Import Affine Run Layout Scenes.
Local Open Scope Q_scope.

(** Rewriting the dirty flag with its own value changes nothing. *)
Lemma withDirty_same o : withDirty (dirty o) o = o.
Proof. now destruct o. Qed.

Lemma update_same r f (h : Heap) : update r f h r = f (h r).
Proof. unfold update. apply fn_lookup_insert. Qed.

Lemma update_other r r' f (h : Heap) : r <> r' -> update r f h r' = h r'.
Proof. intros Hne. unfold update. now apply fn_lookup_insert_ne. Qed.

Section WithMath.

Variable math : MathLib.

(** *** Progress triggers *)

Lemma getLayoutStrategyResult_progress fuel h this layoutDirective objects ctx :
  type ctx = progress ->
  getLayoutStrategyResult math fuel h this layoutDirective objects ctx = Val None.
Proof. intros Hprogress. unfold getLayoutStrategyResult. now rewrite Hprogress. Qed.

(** A [progress] pass returns with the heap as it found it, whether it is
    rejected before the first layout, dropped by the re-entrancy guard, or
    left without a result. *)
Lemma progress_pass_is_noop fuel this ctx h :
  type ctx = progress ->
  _applyLayoutStrategy math (S fuel) this ctx h = Ok tt h.
Proof.
  intros Hprogress. cbn [_applyLayoutStrategy]. unfold bind, get.
  rewrite Hprogress. cbn [isType negb andb].
  destruct (_firstLayoutDone (h this)); [|reflexivity].
  destruct (_layoutInProgress (h this)); [reflexivity|].
  cbn [negb]. unfold ask.
  rewrite getLayoutStrategyResult_progress by assumption.
  reflexivity.
Qed.

Lemma times_progress_pass fuel this ctx n h :
  type ctx = progress ->
  times n (_applyLayoutStrategy math (S fuel) this ctx) h = Ok tt h.
Proof.
  intros Hprogress. induction n as [|n IH]; [reflexivity|].
  cbn [times]. unfold bind. now rewrite progress_pass_is_noop.
Qed.

(** *** Walks up the chain of owning containers *)

Lemma ancestry_positive h n r : ancestry h n r -> exists m, n = S m.
Proof. destruct 1; eauto. Qed.

Lemma isOnACache_total h n r : ancestry h n r -> exists b, isOnACache n h r = Val b.
Proof.
  induction 1 as [n r Hroot | n r p Hparent _ [b IH]]; cbn [isOnACache].
  - rewrite Hroot. destruct (ownCaching (h r)); eauto.
  - rewrite Hparent, IH. destruct (ownCaching (h r)); eauto.
Qed.

(** [isOnACache] reads the [ownCaching] flags and the back-references
    only. *)
Lemma isOnACache_ext h h' n r :
  (forall q, ownCaching (h' q) = ownCaching (h q) /\ group (h' q) = group (h q)) ->
  isOnACache n h' r = isOnACache n h r.
Proof.
  intros Hsame. revert r. induction n as [|n IH]; intros r; [reflexivity|].
  cbn [isOnACache]. destruct (Hsame r) as [-> ->].
  destruct (ownCaching (h r)); [reflexivity|].
  destruct (group (h r)); [apply IH | reflexivity].
Qed.

Lemma ancestry_ext h h' n r :
  (forall q, group (h' q) = group (h q)) -> ancestry h n r -> ancestry h' n r.
Proof.
  intros Hsame. induction 1 as [n r Hroot | n r p Hparent _ IH].
  - apply ancestry_root. now rewrite Hsame.
  - eapply ancestry_step; [rewrite Hsame; eassumption | assumption].
Qed.

(** *** Invalidation *)

Lemma invalidate_spec fuel h g ictx cached :
  isOnACache fuel h g = Val cached ->
  invalidate math fuel g ictx h
  = Ok tt (if cached && stacking (h g) then update g (withDirty true) h else h).
Proof.
  intros Hcached.
  assert (exists m, fuel = S m) as [m ->].
  { destruct fuel; [discriminate | eauto]. }
  unfold invalidate, bind, ask, get. rewrite Hcached.
  fold (stacking (h g)).
  destruct (cached && stacking (h g)); cbn [when];
  unfold _set_dirty, modify, ret; now rewrite progress_pass_is_noop.
Qed.

Lemma invalidate_frame fuel h g ictx :
  ancestry h fuel g ->
  exists h', invalidate math fuel g ictx h = Ok tt h' /\
             sameButDirty (h' g) (h g) /\ forall r, r <> g -> h' r = h r.
Proof.
  intros Hchain. destruct (isOnACache_total _ _ _ Hchain) as [cached Hcached].
  rewrite (invalidate_spec _ _ _ _ _ Hcached).
  destruct (cached && stacking (h g)).
  - eexists; split; [reflexivity|]. split.
    + exists true. apply update_same.
    + intros r Hne. now apply update_other.
  - exists h; split; [reflexivity|]. split; [|reflexivity].
    exists (dirty (h g)). now rewrite withDirty_same.
Qed.

Lemma sameButDirty_trans a b c : sameButDirty a b -> sameButDirty b c -> sameButDirty a c.
Proof. intros [d ->] [e ->]. exists d. now destruct c. Qed.

Lemma sameButDirty_group a b : sameButDirty a b -> group a = group b.
Proof. intros [d ->]. now destruct b. Qed.

Lemma times_invalidate_frame fuel g ictx n h :
  ancestry h fuel g ->
  exists h', times n (invalidate math fuel g ictx) h = Ok tt h' /\
             sameButDirty (h' g) (h g) /\ forall r, r <> g -> h' r = h r.
Proof.
  revert h. induction n as [|n IH]; intros h Hchain.
  - exists h. split; [reflexivity|]. split; [|reflexivity].
    exists (dirty (h g)). now rewrite withDirty_same.
  - destruct (invalidate_frame fuel h g ictx Hchain) as (h1 & Hrun & Hg & Hothers).
    assert (ancestry h1 fuel g) as Hchain1.
    { apply (ancestry_ext h); [|assumption]. intros q.
      destruct (Nat.eq_dec q g) as [->|Hne];
        [now apply sameButDirty_group | now rewrite Hothers]. }
    destruct (IH h1 Hchain1) as (h2 & Hrun2 & Hg2 & Hothers2).
    exists h2. split; [|split].
    + cbn [times]. unfold bind. now rewrite Hrun.
    + eapply sameButDirty_trans; eassumption.
    + intros r Hne. now rewrite Hothers2, Hothers.
Qed.

End WithMath.

(** C1, as amended.  Once the first layout is done, a [progress] trigger
    that reaches [_applyLayoutStrategy] while a layout pass is in progress
    on the same container is dropped: the call returns and leaves the heap
    (size, position and centre of the container, position of every child)
    as it was. *)
Theorem reentrant_progress_is_dropped math fuel h g ctx :
  _firstLayoutDone (h g) = true ->
  _layoutInProgress (h g) = true ->
  type ctx = progress ->
  _applyLayoutStrategy math (S fuel) g ctx h = Ok tt h.
Proof.
  intros Hdone Hbusy Hprogress.
  cbn [_applyLayoutStrategy]. unfold bind, get.
  now rewrite Hdone, Hbusy, Hprogress.
Qed.

Lemma reentrant_progress_is_dropped_witness :
  _applyLayoutStrategy rationalMath 1 0%nat (contextOf progress) midPass = Ok tt midPass.
Proof.
  apply (reentrant_progress_is_dropped rationalMath 0 midPass 0%nat (contextOf progress));
    reflexivity.
Defined.

(** An [object_modified] trigger that arrives while a pass is in progress
    is not dropped: the container is resized from 10 to 20 units and its
    child is moved. *)
Lemma reentrant_object_modified_is_applied :
  _firstLayoutDone (midPass 0%nat) = true /\
  _layoutInProgress (midPass 0%nat) = true /\
  width (midPass 0%nat) == 10 /\ left (midPass 1%nat) == -5 /\
  exists h',
    _applyLayoutStrategy rationalMath 2 0%nat (contextOf object_modified) midPass
    = Ok tt h' /\
    width (h' 0%nat) == 20 /\ left (h' 1%nat) == -10.
Proof.
  repeat split; try reflexivity.
  eexists. split; [vm_compute; reflexivity|].
  split; vm_compute; reflexivity.
Qed.

(** C3.  [invalidate] sets the dirty flag of the group exactly when the
    group is on a cache and either has no canvas or its canvas preserves
    object stacking; otherwise the group is left as it is.  Nothing but
    that flag is written: the geometry of the group is not recomputed, and
    every other object, a selection container among them, stays as it
    was. *)
Theorem invalidate_marks_cached_group math fuel h g ictx :
  ancestry h fuel g ->
  exists cached h',
    isOnACache fuel h g = Val cached /\
    invalidate math fuel g ictx h = Ok tt h' /\
    (cached && stacking (h g) = true -> h' g = withDirty true (h g)) /\
    (cached && stacking (h g) = false -> h' g = h g) /\
    (forall r, r <> g -> h' r = h r).
Proof.
  intros Hchain. destruct (isOnACache_total _ _ _ Hchain) as [cached Hcached].
  exists cached. eexists. split; [exact Hcached|].
  split; [apply invalidate_spec; exact Hcached|].
  destruct (cached && stacking (h g)); repeat split; try discriminate.
  - intros _. apply update_same.
  - intros r Hne. now apply update_other.
Qed.

(** C5.  Under every layout directive a [progress] context yields no
    layout result; any number of [progress] passes leave the heap as it
    is; and any number of invalidations, the caller that marks the
    container dirty, change nothing but the dirty flag of the container. *)
Theorem progress_triggers_keep_geometry math fuel h g ctx ictx n :
  type ctx = progress ->
  ancestry h fuel g ->
  (forall layoutDirective objects,
      getLayoutStrategyResult math fuel h g layoutDirective objects ctx = Val None) /\
  times n (_applyLayoutStrategy math fuel g ctx) h = Ok tt h /\
  exists h',
    times n (invalidate math fuel g ictx) h = Ok tt h' /\
    sameButDirty (h' g) (h g) /\
    forall r, r <> g -> h' r = h r.
Proof.
  intros Hprogress Hchain.
  destruct (ancestry_positive _ _ _ Hchain) as [m ->].
  split; [|split].
  - intros. now apply getLayoutStrategyResult_progress.
  - now apply times_progress_pass.
  - now apply times_invalidate_frame.
Qed.

Lemma cachedScene_ancestry : ancestry cachedScene 2 3%nat.
Proof.
  apply (ancestry_step cachedScene 1 3%nat 0%nat); [reflexivity|].
  now apply ancestry_root.
Qed.

Lemma invalidate_marks_cached_group_witness :
  exists cached h',
    isOnACache 2 cachedScene 3%nat = Val cached /\
    invalidate rationalMath 2 3%nat fillChanged cachedScene = Ok tt h' /\
    (cached && stacking (cachedScene 3%nat) = true ->
     h' 3%nat = withDirty true (cachedScene 3%nat)) /\
    (cached && stacking (cachedScene 3%nat) = false -> h' 3%nat = cachedScene 3%nat) /\
    (forall r, r <> 3%nat -> h' r = cachedScene r).
Proof.
  apply (invalidate_marks_cached_group rationalMath 2 cachedScene 3%nat fillChanged).
  exact cachedScene_ancestry.
Defined.

Lemma progress_triggers_keep_geometry_witness :
  (forall layoutDirective objects,
      getLayoutStrategyResult rationalMath 2 cachedScene 3%nat layoutDirective objects
        (contextOf progress) = Val None) /\
  times 5 (_applyLayoutStrategy rationalMath 2 3%nat (contextOf progress)) cachedScene
  = Ok tt cachedScene /\
  exists h',
    times 5 (invalidate rationalMath 2 3%nat fillChanged) cachedScene = Ok tt h' /\
    sameButDirty (h' 3%nat) (cachedScene 3%nat) /\
    forall r, r <> 3%nat -> h' r = cachedScene r.
Proof.
  apply (progress_triggers_keep_geometry rationalMath 2 cachedScene 3%nat
           (contextOf progress) fillChanged 5).
  - reflexivity.
  - exact cachedScene_ancestry.
Defined.

(** *** The [fixed] directive *)

Lemma prepareInitialBoundingBox_skipped math fuel h this layoutDirective objects ctx :
  explicitBoxGiven ctx ->
  objectsRelativeToGroup ctx = true ->
  prepareInitialBoundingBox math fuel h this layoutDirective objects ctx = Val None.
Proof.
  intros (o & l & t & w & hh & Hopt & Hl & Ht & Hw & Hh) Hrelative.
  unfold prepareInitialBoundingBox.
  rewrite Hopt, Hrelative. cbn [mbind option_bind]. now rewrite Hl, Ht, Hw, Hh.
Qed.

(** C7, as amended.  Under the [fixed] directive only [initialization] and
    [imperative] triggers yield a layout result.  At initialization, when
    [left], [top], [width] and [height] were all given and the children are
    already expressed in the plane of the group ([objectsRelativeToGroup]),
    no result is computed, and the pass leaves the size and position of
    the group under construction as the options set them. *)
Theorem fixed_layout_results math fuel h this objects ctx :
  (type ctx <> initialization -> type ctx <> imperative ->
   getLayoutStrategyResult math fuel h this "fixed" objects ctx = Val None) /\
  (type ctx = initialization -> explicitBoxGiven ctx ->
   objectsRelativeToGroup ctx = true ->
   getLayoutStrategyResult math fuel h this "fixed" objects ctx = Val None /\
   (layout (h this) = "fixed"%string -> group (h this) = None ->
    exists h',
      _applyLayoutStrategy math (S fuel) this ctx h = Ok tt h' /\
      width (h' this) = width (h this) /\ height (h' this) = height (h this) /\
      left (h' this) = left (h this) /\ top (h' this) = top (h this))).
Proof.
  split.
  - intros Hinit Himp. unfold getLayoutStrategyResult.
    destruct (type ctx); try contradiction; reflexivity.
  - intros Hinit Hbox Hrelative.
    assert (forall fuel objects,
               getLayoutStrategyResult math fuel h this "fixed" objects ctx = Val None)
      as Hnone.
    { intros. unfold getLayoutStrategyResult, prepareBoundingBox. rewrite Hinit.
      cbn -[prepareInitialBoundingBox].
      now apply prepareInitialBoundingBox_skipped. }
    split; [apply Hnone|].
    intros Hfixed Hroot.
    cbn [_applyLayoutStrategy]. unfold bind, get, ask.
    rewrite Hinit. cbn [isType negb andb]. rewrite Hfixed, Hnone.
    destruct Hbox as (o & _ & _ & _ & _ & -> & _).
    cbn [fmap option_fmap option_map setInitialTransform initialTransformOf].
    unfold modify, ret. cbn [negb].
    rewrite !update_same.
    assert (group (withFirstLayoutDone true
                     (withInitialTransform (default 0 (optAngle o))
                        (default 0 (optSkewX o)) (default 0 (optSkewY o)) (h this)))
            = None) as -> by (now destruct (h this)).
    eexists. split; [reflexivity|].
    rewrite !update_same. now destruct (h this).
Qed.

Lemma explicitBox_given relative : explicitBoxGiven (constructorContext relative).
Proof. exists explicitBox, 0, 0, 100, 100. now repeat split. Qed.

Lemma fixed_layout_results_witness :
  getLayoutStrategyResult rationalMath 2 fixedScene 0%nat "fixed" [1%nat]
    (addedContext [1%nat]) = Val None /\
  getLayoutStrategyResult rationalMath 2 fixedScene 0%nat "fixed" [1%nat]
    (constructorContext true) = Val None /\
  exists h',
    _applyLayoutStrategy rationalMath 3 0%nat (constructorContext true) fixedScene
    = Ok tt h' /\
    width (h' 0%nat) = 100 /\ height (h' 0%nat) = 100 /\
    left (h' 0%nat) = 0 /\ top (h' 0%nat) = 0.
Proof.
  split.
  - apply (proj1 (fixed_layout_results rationalMath 2 fixedScene 0%nat [1%nat]
                    (addedContext [1%nat]))); discriminate.
  - destruct (proj2 (fixed_layout_results rationalMath 2 fixedScene 0%nat [1%nat]
                       (constructorContext true))
                    eq_refl (explicitBox_given true) eq_refl) as [Hnone Hpass].
    split; [exact Hnone|].
    exact (Hpass eq_refl eq_refl).
Defined.

(** With [left], [top], [width] and [height] all given but the children
    still in the plane of the canvas, the initial layout of a [fixed]
    group computes the bounding box of the children and returns a
    result. *)
Lemma fixed_initial_layout_not_skipped :
  type (constructorContext false) = initialization /\
  explicitBoxGiven (constructorContext false) /\
  exists r,
    getLayoutStrategyResult rationalMath 2 fixedScene 0%nat "fixed" [1%nat]
      (constructorContext false) = Val (Some r) /\
    centerX r == 50 /\ centerY r == 50 /\ width_ r == 100 /\ height_ r == 100 /\
    correctionX r = Some (-251658240 # 4194304).
Proof.
  split; [reflexivity|]. split; [apply explicitBox_given|].
  eexists. split; [vm_compute; reflexivity|].
  now repeat split.
Qed.

(** *** Bounding boxes *)

Lemma objectBounds_plainRectangle math nested (h : Heap) r l t w hh :
  plainRectangle (h r) l t w hh ->
  exists a b,
    objectBounds math nested h r = Val (Some (a, b)) /\
    x a == l /\ y a == t /\ x b == l + w /\ y b == t + hh.
Proof.
  intros (Hk & Hlayout & Hl & Ht & Hw & Hh & Hsx & Hsy & Hkx & Hky & Ha & Hs & Hox & Hoy).
  unfold objectBounds, isLayer. rewrite Hk.
  apply String.eqb_neq in Hlayout. rewrite Hlayout.
  cbn [abind]. rewrite Ha. cbn [truthyNumber Qeq_bool negb].
  change (Qeq_bool 0 0) with true. cbn [negb].
  eexists _, _. split; [reflexivity|].
  unfold getRelativeCenterPoint, translateToCenterPoint, translateToGivenOrigin,
    _getTransformedDimensions.
  rewrite Ha, Hox, Hoy, Hl, Ht, Hw, Hh, Hsx, Hsy, Hkx, Hky, Hs.
  change (truthyNumber 0) with false.
  change (truthyNumber (resolveOrigin originCenter - resolveOrigin originLeft)) with true.
  change (Qeq_bool 0 0) with true.
  cbn [orb andb default from_option id].
  destruct (strokeUniform (h r)); cbn; repeat split; field.
Qed.

(** Case analysis on every [Qmin] and [Qmax] in sight, then linear
    arithmetic. *)
Ltac name_minmax :=
  repeat match goal with
    | |- context [Qmin ?a ?b] =>
        let H := fresh "Hmin" in let m := fresh "m" in
        pose proof (Q.min_spec a b) as H; set (m := Qmin a b) in *; clearbody m
    | |- context [Qmax ?a ?b] =>
        let H := fresh "Hmax" in let m := fresh "m" in
        pose proof (Q.max_spec a b) as H; set (m := Qmax a b) in *; clearbody m
    | H0 : context [Qmin ?a ?b] |- _ =>
        let H := fresh "Hmin" in let m := fresh "m" in
        pose proof (Q.min_spec a b) as H; set (m := Qmin a b) in *; clearbody m
    | H0 : context [Qmax ?a ?b] |- _ =>
        let H := fresh "Hmax" in let m := fresh "m" in
        pose proof (Q.max_spec a b) as H; set (m := Qmax a b) in *; clearbody m
    end.

Ltac split_cases :=
  repeat match goal with
    | H : _ \/ _ |- _ => destruct H as [[? ?] | [? ?]]
    end.

Ltac minmax := name_minmax; split_cases; lra.

Lemma sameBounds_refl a : sameBounds a a.
Proof. unfold sameBounds, point_eq. repeat split; reflexivity. Qed.


Lemma sameBounds_trans a b c : sameBounds a b -> sameBounds b c -> sameBounds a c.
Proof.
  unfold sameBounds, point_eq.
  intros ((? & ?) & (? & ?) & ?) ((? & ?) & (? & ?) & ?).
  repeat split; try lra; congruence.
Qed.

Lemma include_first acc ab : first (include acc ab) = false.
Proof. unfold include. destruct ab. now destruct (first acc). Qed.

Lemma include_proper acc acc' ab :
  sameBounds acc acc' -> sameBounds (include acc ab) (include acc' ab).
Proof.
  unfold sameBounds, point_eq, include. destruct ab as [a b].
  intros ((? & ?) & (? & ?) & <-).
  destruct (first acc); cbn [lower upper first x y]; repeat split;
    try reflexivity; minmax.
Qed.


Lemma fold_include_proper cs acc acc' :
  sameBounds acc acc' ->
  sameBounds (fold_left include cs acc) (fold_left include cs acc').
Proof.
  revert acc acc'. induction cs as [|c cs IH]; intros acc acc' Hsame; [assumption|].
  cbn [fold_left]. apply IH. now apply include_proper.
Qed.


Lemma include_ordered acc ab : orderedBounds (include acc ab).
Proof.
  unfold orderedBounds, include. destruct ab as [a b]. intros _.
  destruct (first acc); cbn [lower upper x y]; split; minmax.
Qed.

Lemma fold_include_ordered cs acc :
  orderedBounds acc -> orderedBounds (fold_left include cs acc).
Proof.
  revert acc. induction cs as [|c cs IH]; intros acc Hacc; [assumption|].
  cbn [fold_left]. apply IH, include_ordered.
Qed.


Section Loop.

Variable measure : Ref -> Answer (option (Point * Point)).

(** The loop folds [include] over the corners of the objects it does not
    skip. *)
Lemma boundsLoop_corners objects acc :
  boundsLoop measure objects acc
  = abind (corners measure objects) (fun cs => Val (fold_left include cs acc)).
Proof.
  revert acc. induction objects as [|o objects IH]; intros acc; [reflexivity|].
  cbn [boundsLoop corners]. destruct (measure o) as [[ab|]|why]; cbn [abind].
  - rewrite IH. now destruct (corners measure objects).
  - rewrite IH. now destruct (corners measure objects).
  - reflexivity.
Qed.


Lemma loop_defined objects acc result :
  boundsLoop measure objects acc = Val result ->
  exists cs, corners measure objects = Val cs /\ result = fold_left include cs acc.
Proof.
  rewrite boundsLoop_corners. destruct (corners measure objects) as [cs|]; cbn [abind].
  - intros [= <-]. now exists cs.
  - discriminate.
Qed.

End Loop.

Lemma boxOf_proper math o acc acc' ignoreOffset :
  sameBounds acc acc' ->
  sameResult (boxOf math o acc ignoreOffset) (boxOf math o acc' ignoreOffset).
Proof.
  unfold sameBounds, point_eq, sameResult, boxOf.
  intros ((Hlx & Hly) & (Hux & Huy) & _).
  destruct ignoreOffset;
    cbn [centerX centerY width_ height_ correctionX correctionY offsetX offsetY
         sameNumber transformPoint scalarDivide midPointFrom subtract x y];
    rewrite Hlx, Hly, Hux, Huy; now repeat split.
Qed.


(** The own matrix of a group centred on the origin moves no point. *)
Lemma transformPoint_centred math o p :
  centredOnOrigin o ->
  point_eq (transformPoint p (calcOwnMatrix math o) false) p.
Proof.
  intros (Hk & Hsx & Hsy & Hkx & Hky & Ha & Hs & Hfx & Hfy & Hox & Hoy & Hl & Ht).
  unfold calcOwnMatrix, getRelativeCenterPoint, translateToCenterPoint,
    translateToGivenOrigin, _getTransformedDimensions.
  rewrite Ha, Hox, Hoy, Hsx, Hsy, Hkx, Hky, Hs, Hfx, Hfy.
  change (truthyNumber 0) with false.
  change (truthyNumber (resolveOrigin originCenter - resolveOrigin originLeft)) with true.
  change (Qeq_bool 0 0) with true. change (Qeq_bool 1 1) with true.
  cbn [orb andb negb default from_option id].
  unfold point_eq.
  destruct (strokeUniform o); cbn; rewrite Hl, Ht; split; field.
Qed.

(** C6.  The bounding box of two plain rectangles without stroke, one at
    (10, -30) and 30 by 10, the other at (-40, -10) and 10 by 40, is 80
    wide and 60 high, whatever the container they are measured for. *)
Theorem scenario1_bounding_box math fuel (h : Heap) this r1 r2 :
  plainRectangle (h r1) 10 (-30) 30 10 ->
  plainRectangle (h r2) (-40) (-10) 10 40 ->
  exists b,
    getObjectsBoundingBox math (S fuel) h this [r1; r2] false = Val (Some b) /\
    width_ b == 80 /\ height_ b == 60.
Proof.
  intros H1 H2.
  destruct (objectBounds_plainRectangle math (getObjectsBoundingBox math fuel h)
              h r1 _ _ _ _ H1) as (a1 & b1 & E1 & ? & ? & ? & ?).
  destruct (objectBounds_plainRectangle math (getObjectsBoundingBox math fuel h)
              h r2 _ _ _ _ H2) as (a2 & b2 & E2 & ? & ? & ? & ?).
  cbn [getObjectsBoundingBox boundsLoop]. rewrite E1. cbn [abind]. rewrite E2.
  cbn [abind]. eexists. split; [reflexivity|].
  unfold boxOf, include, noBounds.
  cbn [first lower upper width_ height_ subtract x y].
  split; minmax.
Qed.

Lemma scenario1_bounding_box_witness :
  exists b,
    getObjectsBoundingBox rationalMath 2 scenario1 0%nat [1%nat; 2%nat] false
    = Val (Some b) /\
    width_ b == 80 /\ height_ b == 60.
Proof.
  apply (scenario1_bounding_box rationalMath 1 scenario1 0%nat 1%nat 2%nat);
    unfold plainRectangle; cbn; repeat split; discriminate.
Defined.

(** A layout pass over scenario 1 sets the size of the container to the
    size of that box, whatever size the container had before, and leaves
    the two rectangles where they are. *)
Example scenario1_container_dimensions :
  exists h',
    _applyLayoutStrategy rationalMath 2 0%nat (contextOf object_modified)
      (update 0%nat (withSize 1 1) scenario1)
    = Ok tt h' /\
    width (h' 0%nat) == 80 /\ height (h' 0%nat) == 60 /\
    left (h' 1%nat) == 10 /\ top (h' 1%nat) == -30 /\
    left (h' 2%nat) == -40 /\ top (h' 2%nat) == -10.
Proof.
  eexists. split; [vm_compute; reflexivity|].
  repeat split; vm_compute; reflexivity.
Qed.

(** The constructor run on the scene of [test/unit/activeselection.js]
    yields the geometry that test expects: the group at (50, 100), 80 by
    60, and its children at (10, -30) and (-40, -10). *)
Example constructor_lays_out_test_scene :
  exists h',
    _applyLayoutStrategy rationalMath 2 0%nat
      (mkContext initialization [] (Some testOptions) false None []) testScene
    = Ok tt h' /\
    left (h' 0%nat) == 50 /\ top (h' 0%nat) == 100 /\
    width (h' 0%nat) == 80 /\ height (h' 0%nat) == 60 /\
    left (h' 1%nat) == 10 /\ top (h' 1%nat) == -30 /\
    left (h' 2%nat) == -40 /\ top (h' 2%nat) == -10 /\
    _firstLayoutDone (h' 0%nat) = true.
Proof.
  eexists. split; [vm_compute; reflexivity|].
  repeat split; vm_compute; reflexivity.
Qed.

(** *** The lazy directive *)





(** Away from the origin the lazy path mixes two planes: the added objects
    are measured in the plane of the container and the container in the
    plane of its parent.  A container built around a rectangle at (95, 95)
    that receives a rectangle standing at (200, 200) computes a box 15
    wide, where the two rectangles span 115. *)
Example lazy_layout_off_centre :
  (exists acc, accumulatedBounds rationalMath 2 offCentreScene [1%nat] = Val acc /\
               boxIsBoundsOf (offCentreScene 0%nat) acc) /\
  exists lazy fresh,
    getLayoutStrategyResult rationalMath 2 offCentreScene 0%nat "fit-content-lazy"
      [1%nat; 2%nat] (addedContext [2%nat]) = Val (Some lazy) /\
    getLayoutStrategyResult rationalMath 2 offCentreScene 0%nat "fit-content"
      [1%nat; 2%nat] (addedContext [2%nat]) = Val (Some fresh) /\
    width_ lazy == 15 /\ width_ fresh == 115.
Proof.
  split.
  - eexists. split; [vm_compute; reflexivity|].
    unfold boxIsBoundsOf. cbn. now repeat split.
  - eexists _, _. split; [vm_compute; reflexivity|].
    split; [vm_compute; reflexivity|]. now split.
Qed.

End LayoutFacts.

(** ** Membership and plane changes *)

Module MembershipFacts.
Import Affine Run Membership Scenes.
Local Open Scope Q_scope.

(** *** Matrices *)

Lemma mat_eq_refl m : mat_eq m m.
Proof. unfold mat_eq. now repeat split. Qed.

(** Undoing then redoing an invertible transform gives the matrix back. *)
Lemma multiply_inverse (t w : TMat2D) :
  ~ det t == 0 ->
  mat_eq (multiplyTransformMatrices t
            (multiplyTransformMatrices (invertTransform t) w false) false) w.
Proof.
  unfold mat_eq, multiplyTransformMatrices, invertTransform, transformPoint, det.
  destruct t as [a b c d e f], w as [a' b' c' d' e' f'].
  cbn [ma mb mc md me mf x y]. intros Hdet.
  repeat split; field; exact Hdet.
Qed.

(** *** Heaps *)

Lemma objs_update_same r f h : objs (update r f h) r = f (objs h r).
Proof. unfold update. cbn [objs]. apply fn_lookup_insert. Qed.

Lemma objs_update_other r r' f h : r <> r' -> objs (update r f h) r' = objs h r'.
Proof. intros Hne. unfold update. cbn [objs]. now apply fn_lookup_insert_ne. Qed.

Lemma objs_update r f h q :
  objs (update r f h) q = if Nat.eq_dec r q then f (objs h r) else objs h q.
Proof.
  destruct (Nat.eq_dec r q) as [->|Hne];
    [apply objs_update_same | now apply objs_update_other].
Qed.

(** *** Walks up the chain of owning containers *)

Lemma ancestry_mono h n m r : ancestry h n r -> (n <= m)%nat -> ancestry h m r.
Proof.
  intros Hchain. revert m. induction Hchain as [n r Hroot | n r p Hparent _ IH];
    intros m Hle; destruct m as [|m]; try lia.
  - now apply ancestry_root.
  - eapply ancestry_step; [eassumption | apply IH; lia].
Qed.

(** Cutting back-references keeps the chains within their bound. *)
Lemma ancestry_cut h h' n r :
  (forall q, group (objs h' q) = group (objs h q) \/ group (objs h' q) = None) ->
  ancestry h n r -> ancestry h' n r.
Proof.
  intros Hcut. induction 1 as [n r Hroot | n r p Hparent _ IH].
  - apply ancestry_root. destruct (Hcut r) as [-> | ->]; [assumption | reflexivity].
  - destruct (Hcut r) as [Hsame | Hnone].
    + eapply ancestry_step; [rewrite Hsame; eassumption | assumption].
    + now apply ancestry_root.
Qed.

Lemma calcTransformMatrix_total h n r :
  ancestry h n r -> exists m, calcTransformMatrix n h r = Val m.
Proof.
  induction 1 as [n r Hroot | n r p Hparent _ [m IH]]; cbn [calcTransformMatrix].
  - rewrite Hroot. eauto.
  - rewrite Hparent, IH. cbn [abind]. eauto.
Qed.

Lemma isDescendantOf_total h n r target :
  ancestry h n r -> exists b, isDescendantOf n h r target = Val b.
Proof.
  induction 1 as [n r Hroot | n r p Hparent _ [b IH]]; cbn [isDescendantOf].
  - rewrite Hroot. eauto.
  - rewrite Hparent. destruct (Nat.eqb target p); eauto.
Qed.

(** A walk that does not meet [o] reads nothing of [o]. *)
Lemma calcTransformMatrix_frame fuel h h' g o :
  (forall r, r <> o ->
             ownMatrix (objs h' r) = ownMatrix (objs h r) /\
             group (objs h' r) = group (objs h r)) ->
  g <> o ->
  isDescendantOf fuel h g o = Val false ->
  calcTransformMatrix fuel h' g = calcTransformMatrix fuel h g.
Proof.
  intros Hsame. revert g. induction fuel as [|fuel IH]; intros g Hne Hfree;
    [reflexivity|].
  cbn [calcTransformMatrix isDescendantOf] in *. unfold calcOwnMatrix.
  destruct (Hsame g Hne) as [-> ->].
  destruct (group (objs h g)) as [p|]; [|reflexivity].
  destruct (Nat.eqb_spec o p) as [->|Hp]; [discriminate|].
  rewrite IH; auto.
Qed.

(** *** Propagation of the canvas *)

Lemma sameButCanvas_refl h : sameButCanvas h h.
Proof. split; [reflexivity|]. intros r. destruct (objs h r); reflexivity. Qed.

Lemma sameButCanvas_trans h1 h2 h3 :
  sameButCanvas h1 h2 -> sameButCanvas h2 h3 -> sameButCanvas h1 h3.
Proof.
  intros [Hc12 H12] [Hc23 H23]. split; [congruence|].
  intros r. rewrite (H23 r), (H12 r). destruct (objs h1 r); reflexivity.
Qed.

Lemma sameButCanvas_update h r c : sameButCanvas h (update r (withCanvas c) h).
Proof.
  split; [reflexivity|]. intros q. rewrite !objs_update.
  destruct (Nat.eq_dec r q) as [->|_]; destruct (objs h q); reflexivity.
Qed.

Lemma sameButCanvas_fields h h' r :
  sameButCanvas h h' ->
  ownMatrix (objs h' r) = ownMatrix (objs h r) /\
  group (objs h' r) = group (objs h r) /\
  _objects (objs h' r) = _objects (objs h r) /\
  _activeObjects (objs h' r) = _activeObjects (objs h r) /\
  interactive (objs h' r) = interactive (objs h r).
Proof.
  intros [_ Hsame]. rewrite (Hsame r). destruct (objs h r); cbn. now repeat split.
Qed.

(** Heights of subtrees depend on the child lists only, and do not grow
    when child lists shrink. *)
Lemma nestedWithin_shrink h h' n r :
  (forall q c, In c (_objects (objs h' q)) -> In c (_objects (objs h q))) ->
  nestedWithin h n r -> nestedWithin h' n r.
Proof.
  intros Hsub. induction 1 as [n r _ IH]. constructor. intros c Hc.
  apply IH, Hsub, Hc.
Qed.

Lemma nestedWithin_sameButCanvas h h' n r :
  sameButCanvas h h' -> nestedWithin h n r -> nestedWithin h' n r.
Proof.
  intros Hsame. apply nestedWithin_shrink. intros q c.
  destruct (sameButCanvas_fields h h' q Hsame) as (_ & _ & -> & _). auto.
Qed.

Lemma nestedWithin_mono h n m r : nestedWithin h n r -> (n <= m)%nat -> nestedWithin h m r.
Proof.
  intros Hnested. revert m. induction Hnested as [n r _ IH]. intros m Hle.
  destruct m as [|m]; [lia|]. constructor. intros c Hc. apply IH; [assumption | lia].
Qed.

(** [_set('canvas', value)] returns, and writes [canvas] fields only. *)
Lemma _set_canvas_frame n r value h :
  nestedWithin h n r ->
  exists h', _set_canvas n r value h = Ok tt h' /\ sameButCanvas h h'.
Proof.
  intros Hnested. revert r value h Hnested.
  induction n as [|n IH]; intros r value h Hnested; [inversion Hnested|].
  inversion Hnested as [n' r' Hchildren]; subst.
  cbn [_set_canvas]. unfold bind, get, modify.
  set (h0 := update r (withCanvas value) h).
  assert (sameButCanvas h h0) as Hh0 by apply sameButCanvas_update.
  destruct (negb (sameRef (canvas (objs h r)) value)); cbn [when];
    [|exists h0; now split].
  clearbody h0. revert h0 Hh0.
  induction (_objects (objs h r)) as [|c children IHc]; intros h0 Hh0.
  - exists h0. now split.
  - cbn [forEach]. unfold bind.
    destruct (IH c value h0) as (h1 & -> & H01).
    { eapply nestedWithin_sameButCanvas; [eassumption|]. apply Hchildren. now left. }
    apply IHc.
    + intros c' Hc'. apply Hchildren. now right.
    + eapply sameButCanvas_trans; eassumption.
Qed.

(** *** Subscriptions *)

Lemma _watchObject_fields watch g o h r :
  ownMatrix (objs (_watchObject watch g o h) r) = ownMatrix (objs h r) /\
  group (objs (_watchObject watch g o h) r) = group (objs h r) /\
  _objects (objs (_watchObject watch g o h) r) = _objects (objs h r) /\
  canvas (objs (_watchObject watch g o h) r) = canvas (objs h r).
Proof.
  unfold _watchObject. rewrite objs_update.
  destruct (Nat.eq_dec o r) as [->|_]; [|now repeat split].
  destruct (objs h r); cbn. now repeat split.
Qed.

(** *** Entering a container and leaving it at once *)

Lemma calcTransformMatrix_root fuel h r m :
  calcTransformMatrix fuel h r = Val m ->
  forall h', group (objs h' r) = None ->
             calcTransformMatrix fuel h' r = Val (ownMatrix (objs h' r)).
Proof.
  destruct fuel; [discriminate|]. intros _ h' Hroot.
  cbn [calcTransformMatrix]. now rewrite Hroot.
Qed.

(** C2.  Let [o] have world transform [world] and let it be free to enter
    [g] (it is not [g], and [g] is not one of its descendants), where the
    world transform [container] of [g] is invertible.  Entering [g] with
    [removeParentTransform] stores [inverse(container) * world] in [o];
    leaving [g] at once without [removeParentTransform] stores
    [container * stored] in [o], and the world transform of [o] is [world]
    again. *)
Theorem enter_then_exit_restores_world fuel h g o world container :
  o <> g ->
  isDescendantOf fuel h g o = Val false ->
  calcTransformMatrix fuel h o = Val world ->
  calcTransformMatrix fuel h g = Val container ->
  ~ det container == 0 ->
  nestedWithin h fuel o ->
  exists h1 h2 restored,
    _enterGroup fuel g o true h = Ok tt h1 /\
    group (objs h1 o) = Some g /\
    ownMatrix (objs h1 o)
    = multiplyTransformMatrices (invertTransform container) world false /\
    _exitGroup fuel g o false h1 = Ok tt h2 /\
    group (objs h2 o) = None /\
    calcTransformMatrix fuel h2 o = Val restored /\
    mat_eq restored world.
Proof.
  intros Hne Hfree Hworld Hcontainer Hdet Hnested.
  set (stored := multiplyTransformMatrices (invertTransform container) world false).
  (* entering *)
  set (hA := update o (withGroup (Some g)) (applyTransformToObject o stored h)).
  assert (forall r, _objects (objs hA r) = _objects (objs h r)) as HobjectsA.
  { intros r. unfold hA, applyTransformToObject.
    destruct (Nat.eq_dec o r) as [->|Hr];
      [rewrite !objs_update_same | rewrite !objs_update_other by exact Hr];
      reflexivity. }
  destruct (_set_canvas_frame fuel o (canvas (objs hA g)) hA) as (hB & HrunB & HsameB).
  { eapply nestedWithin_shrink; [|exact Hnested].
    intros q c. now rewrite HobjectsA. }
  set (h1 := if interactive (objs hA g) then _watchObject true g o hB else hB).
  assert (forall r, ownMatrix (objs h1 r) = ownMatrix (objs hA r) /\
                    group (objs h1 r) = group (objs hA r)) as Hh1.
  { intros r. destruct (sameButCanvas_fields hA hB r HsameB) as (Hm & Hg & _).
    unfold h1. destruct (interactive (objs hA g)); [|now split].
    destruct (_watchObject_fields true g o hB r) as (-> & -> & _). now split. }
  assert (ownMatrix (objs hA o) = stored /\ group (objs hA o) = Some g) as [HmA HgA].
  { unfold hA, applyTransformToObject. rewrite !objs_update_same.
    destruct (objs h o); now split. }
  assert (forall r, r <> o -> objs hA r = objs h r) as HotherA.
  { intros r Hr. unfold hA, applyTransformToObject.
    rewrite !objs_update_other by auto. reflexivity. }
  (* leaving *)
  set (hD := update o (withGroup None) h1).
  assert (forall r, r <> o ->
                    ownMatrix (objs hD r) = ownMatrix (objs h r) /\
                    group (objs hD r) = group (objs h r)) as HframeD.
  { intros r Hr. unfold hD. rewrite objs_update_other by auto.
    destruct (Hh1 r) as [-> ->]. now rewrite HotherA. }
  assert (ownMatrix (objs hD o) = stored /\ group (objs hD o) = None) as [HmD HgD].
  { unfold hD. rewrite objs_update_same. destruct (Hh1 o) as [Hm _].
    rewrite <- HmA, <- Hm. destruct (objs h1 o); now split. }
  set (back := multiplyTransformMatrices container stored false).
  set (h2 := update g (fun c => withActiveObjects (spliceOut o (_activeObjects c)) c)
               (_watchObject false g o (applyTransformToObject o back hD))).
  assert (ownMatrix (objs h2 o) = back /\ group (objs h2 o) = None) as [Hm2 Hg2].
  { unfold h2. rewrite objs_update_other by auto.
    destruct (_watchObject_fields false g o (applyTransformToObject o back hD) o)
      as (-> & -> & _).
    unfold applyTransformToObject. rewrite objs_update_same.
    rewrite <- HgD. destruct (objs hD o); now split. }
  exists h1, h2, back.
  split; [|split; [|split; [|split; [|split; [|split]]]]].
  - unfold _enterGroup, bind, when, ask, modify, get.
    rewrite Hcontainer. cbn [abind]. rewrite Hworld.
    fold stored. fold hA. rewrite HrunB. unfold h1, ret.
    destruct (interactive (objs hA g)); reflexivity.
  - destruct (Hh1 o) as [_ ->]. exact HgA.
  - destruct (Hh1 o) as [-> _]. exact HmA.
  - unfold _exitGroup, bind, when, ask, modify, get. cbn [negb]. fold hD.
    rewrite (calcTransformMatrix_frame fuel h hD g o HframeD (not_eq_sym Hne) Hfree).
    rewrite Hcontainer.
    rewrite (calcTransformMatrix_root fuel h o world Hworld hD HgD), HmD.
    reflexivity.
  - exact Hg2.
  - rewrite (calcTransformMatrix_root fuel h o world Hworld h2 Hg2). now rewrite Hm2.
  - apply multiply_inverse, Hdet.
Qed.

Lemma planeScene_nested : nestedWithin planeScene 2 6%nat.
Proof. constructor. intros c []. Qed.

Lemma enter_then_exit_restores_world_witness :
  exists world h1 h2 restored,
    calcTransformMatrix 2 planeScene 6%nat = Val world /\
    _enterGroup 2 0%nat 6%nat true planeScene = Ok tt h1 /\
    _exitGroup 2 0%nat 6%nat false h1 = Ok tt h2 /\
    calcTransformMatrix 2 h2 6%nat = Val restored /\
    mat_eq restored world.
Proof.
  assert (~ det (mkMat 2 0 0 2 10 20) == 0) as Hdet by (intros [=]).
  destruct (enter_then_exit_restores_world 2 planeScene 0%nat 6%nat _ _
              (fun e : 6%nat = 0%nat => O_S 5 (eq_sym e))
              eq_refl eq_refl eq_refl Hdet planeScene_nested)
    as (h1 & h2 & restored & Henter & _ & _ & Hexit & _ & Hrestored & Hsame).
  eexists _, h1, h2, restored. split; [reflexivity|].
  split; [exact Henter|]. split; [exact Hexit|]. split; [exact Hrestored|].
  exact Hsame.
Defined.

(** *** The guards of [enterGroup] *)

Lemma spliceOut_subset o l c : In c (spliceOut o l) -> In c l.
Proof.
  induction l as [|a l IH]; cbn [spliceOut]; [auto|].
  destruct (Nat.eqb o a); cbn [In]; intuition.
Qed.

(** A chain that does not meet [o] is not affected by the back-reference
    of [o]. *)
Lemma ancestry_frame h h' n fuel g o :
  (forall r, r <> o -> group (objs h' r) = group (objs h r)) ->
  g <> o ->
  isDescendantOf fuel h g o = Val false ->
  ancestry h n g -> ancestry h' n g.
Proof.
  intros Hsame Hne Hfree Hchain. revert fuel Hne Hfree.
  induction Hchain as [n r Hroot | n r p Hparent _ IH]; intros fuel Hne Hfree.
  - apply ancestry_root. now rewrite Hsame.
  - destruct fuel as [|fuel]; [discriminate|].
    cbn [isDescendantOf] in Hfree. rewrite Hparent in Hfree.
    destruct (Nat.eqb_spec o p) as [->|Hp]; [discriminate|].
    eapply ancestry_step; [rewrite Hsame by assumption; eassumption|].
    apply (IH fuel); auto.
Qed.

Section WithLayout.

Variable layoutPass : Trigger -> Ref -> list Ref -> Heap -> Heap.

Lemma canEnterGroup_itself fuel g h :
  canEnterGroup fuel g g h = Raise (JSError cycleMessage) h.
Proof. unfold canEnterGroup, bind. now rewrite Nat.eqb_refl. Qed.

Lemma canEnterGroup_descendant fuel g o h :
  isDescendantOf fuel h g o = Val true ->
  canEnterGroup fuel g o h = Raise (JSError cycleMessage) h.
Proof.
  intros Hcycle. unfold canEnterGroup, bind.
  destruct (Nat.eqb o g); [reflexivity|].
  unfold ask. now rewrite Hcycle.
Qed.

Lemma canEnterGroup_duplicate fuel g o h :
  o <> g ->
  isDescendantOf fuel h g o = Val false ->
  group (objs h o) = Some g ->
  canEnterGroup fuel g o h = Raise (JSError duplicateMessage) h.
Proof.
  intros Hne Hfree Hmember. unfold canEnterGroup, bind.
  apply Nat.eqb_neq in Hne. rewrite Hne. unfold ask. rewrite Hfree.
  unfold get. rewrite Hmember. cbn [sameRef]. now rewrite Nat.eqb_refl.
Qed.

Lemma canEnterGroup_allowed fuel g o h :
  o <> g ->
  isDescendantOf fuel h g o = Val false ->
  group (objs h o) <> Some g ->
  canEnterGroup fuel g o h = Ok true h.
Proof.
  intros Hne Hfree Hother. unfold canEnterGroup, bind.
  apply Nat.eqb_neq in Hne. rewrite Hne. unfold ask. rewrite Hfree. unfold get.
  destruct (group (objs h o)) as [q|]; cbn [sameRef]; [|reflexivity].
  destruct (Nat.eqb_spec q g) as [->|_]; [contradiction | reflexivity].
Qed.

(** [exitGroup] returns; it clears the back-reference of the object and
    leaves every child list as it is. *)
Lemma exitGroup_run n p o h :
  ancestry h (S n) p ->
  nestedWithin h (S n) o ->
  exists h',
    exitGroup (S n) p o false h = Ok tt h' /\
    (forall r, _objects (objs h' r) = _objects (objs h r)) /\
    (forall r, group (objs h' r) = if Nat.eq_dec r o then None else group (objs h r)).
Proof.
  intros Hchain Hnested.
  set (hB := update o (withGroup None) h).
  assert (forall r, group (objs hB r) = if Nat.eq_dec r o then None else group (objs h r))
    as HgroupB.
  { intros r. unfold hB. destruct (Nat.eq_dec r o) as [->|Hr].
    - now rewrite objs_update_same.
    - rewrite objs_update_other by auto. reflexivity. }
  assert (forall r, _objects (objs hB r) = _objects (objs h r)) as HobjectsB.
  { intros r. unfold hB. destruct (Nat.eq_dec o r) as [->|Hr];
      [rewrite objs_update_same | rewrite objs_update_other by exact Hr]; reflexivity. }
  destruct (calcTransformMatrix_total hB (S n) p) as [container Hcontainer].
  { apply (ancestry_cut h); [|assumption]. intros q. rewrite HgroupB.
    destruct (Nat.eq_dec q o); auto. }
  assert (calcTransformMatrix (S n) hB o = Val (ownMatrix (objs hB o))) as Hown.
  { cbn [calcTransformMatrix]. rewrite HgroupB.
    destruct (Nat.eq_dec o o); [reflexivity | contradiction]. }
  set (hE := update p (fun c => withActiveObjects (spliceOut o (_activeObjects c)) c)
               (_watchObject false p o
                  (applyTransformToObject o
                     (multiplyTransformMatrices container (ownMatrix (objs hB o)) false)
                     hB))).
  assert (forall r, _objects (objs hE r) = _objects (objs hB r) /\
                    group (objs hE r) = group (objs hB r)) as HshapeE.
  { intros r. unfold hE. rewrite objs_update.
    destruct (_watchObject_fields false p o
                (applyTransformToObject o
                   (multiplyTransformMatrices container (ownMatrix (objs hB o)) false)
                   hB) r) as (_ & Hg & Ho & _).
    destruct (Nat.eq_dec p r) as [->|_]; cbn [_objects group withActiveObjects];
      rewrite Hg, Ho; unfold applyTransformToObject; rewrite objs_update;
      destruct (Nat.eq_dec o r) as [->|_]; now split. }
  destruct (_set_canvas_frame (S n) o None hE) as (hF & HrunF & HsameF).
  { eapply nestedWithin_shrink; [|exact Hnested]. intros q c.
    destruct (HshapeE q) as [-> _]. now rewrite HobjectsB. }
  exists hF. split; [|split].
  - unfold exitGroup, _exitGroup, bind, when, ask, modify, get. cbn [negb].
    fold hB. rewrite Hcontainer, Hown. fold hE. now rewrite HrunF.
  - intros r. destruct (sameButCanvas_fields hE hF r HsameF) as (_ & _ & -> & _).
    destruct (HshapeE r) as [-> _]. apply HobjectsB.
  - intros r. destruct (sameButCanvas_fields hE hF r HsameF) as (_ & -> & _).
    destruct (HshapeE r) as [_ ->]. apply HgroupB.
Qed.

(** [_enterGroup] returns; it sets the back-reference of the object and
    leaves every child list as it is. *)
Lemma _enterGroup_run n g o removeParentTransform h :
  ancestry h (S n) g ->
  ancestry h (S n) o ->
  nestedWithin h (S n) o ->
  exists h',
    _enterGroup (S n) g o removeParentTransform h = Ok tt h' /\
    (forall r, _objects (objs h' r) = _objects (objs h r)) /\
    (forall r, group (objs h' r) = if Nat.eq_dec r o then Some g else group (objs h r)).
Proof.
  intros Hg Ho Hnested.
  destruct (calcTransformMatrix_total h (S n) g Hg) as [container Hcontainer].
  destruct (calcTransformMatrix_total h (S n) o Ho) as [world Hworld].
  unfold _enterGroup.
  match goal with
  | |- context [bind ?first ?rest] => set (transform := first); set (tail := rest)
  end.
  (* what follows the rewriting of the transform *)
  assert (forall hT,
             (forall r, _objects (objs hT r) = _objects (objs h r) /\
                        group (objs hT r) = group (objs h r)) ->
             exists h',
               tail tt hT = Ok tt h' /\
               (forall r, _objects (objs h' r) = _objects (objs h r)) /\
               (forall r, group (objs h' r)
                          = if Nat.eq_dec r o then Some g else group (objs h r)))
    as Htail.
  { intros hT HshapeT. unfold tail.
    set (hA := update o (withGroup (Some g)) hT).
    assert (forall r, _objects (objs hA r) = _objects (objs h r)) as HobjectsA.
    { intros r. unfold hA. destruct (HshapeT r) as [<- _].
      destruct (Nat.eq_dec o r) as [->|Hr];
        [rewrite objs_update_same | rewrite objs_update_other by exact Hr]; reflexivity. }
    assert (forall r, group (objs hA r)
                      = if Nat.eq_dec r o then Some g else group (objs h r)) as HgroupA.
    { intros r. unfold hA. destruct (Nat.eq_dec r o) as [->|Hr].
      - now rewrite objs_update_same.
      - rewrite objs_update_other by auto. apply HshapeT. }
    destruct (_set_canvas_frame (S n) o (canvas (objs hA g)) hA) as (hB & HrunB & HsameB).
    { eapply nestedWithin_shrink; [|exact Hnested]. intros q c. now rewrite HobjectsA. }
    exists (if interactive (objs hA g) then _watchObject true g o hB else hB).
    split; [|split].
    - unfold bind, modify, get. fold hA. rewrite HrunB. unfold when, ret, modify.
      destruct (interactive (objs hA g)); reflexivity.
    - intros r. rewrite <- HobjectsA.
      destruct (sameButCanvas_fields hA hB r HsameB) as (_ & _ & <- & _).
      destruct (interactive (objs hA g)); [|reflexivity].
      now destruct (_watchObject_fields true g o hB r) as (_ & _ & -> & _).
    - intros r. rewrite <- HgroupA.
      destruct (sameButCanvas_fields hA hB r HsameB) as (_ & <- & _).
      destruct (interactive (objs hA g)); [|reflexivity].
      now destruct (_watchObject_fields true g o hB r) as (_ & -> & _). }
  unfold bind at 1. unfold transform.
  destruct removeParentTransform; cbn [when].
  - unfold bind, ask, modify, abind. rewrite Hcontainer, Hworld.
    apply Htail. intros r. unfold applyTransformToObject. rewrite objs_update.
    destruct (Nat.eq_dec o r) as [->|_]; now split.
  - unfold ret. apply Htail. now split.
Qed.

(** [remove] of a child returns; the child is spliced out of the child
    list and its back-reference is cleared. *)
Lemma remove_run n p o h :
  keepsMembership layoutPass ->
  includes o (_objects (objs h p)) = true ->
  ancestry h (S n) p ->
  nestedWithin h (S n) o ->
  exists h',
    remove layoutPass (S n) p [o] h = Ok [o] h' /\
    (forall r, _objects (objs h' r)
               = if Nat.eq_dec r p then spliceOut o (_objects (objs h p))
                 else _objects (objs h r)) /\
    (forall r, group (objs h' r) = if Nat.eq_dec r o then None else group (objs h r)).
Proof.
  intros Hkeeps Hmember Hchain Hnested.
  set (hS := update p (fun c => withObjects (spliceOut o (_objects c)) c) h).
  assert (forall r, _objects (objs hS r)
                    = if Nat.eq_dec r p then spliceOut o (_objects (objs h p))
                      else _objects (objs h r)) as HobjectsS.
  { intros r. unfold hS. destruct (Nat.eq_dec r p) as [->|Hr].
    - now rewrite objs_update_same.
    - rewrite objs_update_other by auto. reflexivity. }
  assert (forall r, group (objs hS r) = group (objs h r)) as HgroupS.
  { intros r. unfold hS. destruct (Nat.eq_dec p r) as [->|Hr];
      [rewrite objs_update_same | rewrite objs_update_other by exact Hr]; reflexivity. }
  destruct (exitGroup_run n p o hS) as (hF & HrunF & HobjectsF & HgroupF).
  { apply (ancestry_cut h); [|assumption]. intros q. left. apply HgroupS. }
  { eapply nestedWithin_shrink; [|exact Hnested]. intros q c. rewrite HobjectsS.
    destruct (Nat.eq_dec q p) as [->|_]; [apply spliceOut_subset | auto]. }
  set (hL := layoutPass removed p [o] hF).
  exists (update p (withDirty true) hL). split; [|split].
  - unfold remove, bind. cbn [collectionRemove]. unfold bind, get, modify.
    rewrite Hmember. fold hS. unfold _onObjectRemoved. rewrite HrunF.
    unfold ret, _onAfterObjectsChange, bind, modify, _set_dirty. reflexivity.
  - intros r. rewrite <- HobjectsS, <- HobjectsF.
    destruct (Hkeeps removed p [o] hF r) as (_ & <- & _). fold hL.
    destruct (Nat.eq_dec p r) as [->|Hr];
      [rewrite objs_update_same | rewrite objs_update_other by exact Hr]; reflexivity.
  - intros r. rewrite <- HgroupS, <- HgroupF.
    destruct (Hkeeps removed p [o] hF r) as (<- & _). fold hL.
    destruct (Nat.eq_dec p r) as [->|Hr];
      [rewrite objs_update_same | rewrite objs_update_other by exact Hr]; reflexivity.
Qed.

(** [enterGroup] of an object owned by another container returns [true];
    the object has left the child list of that container and points back
    to the new one. *)
Lemma enterGroup_transfers n h g o p removeParentTransform :
  keepsMembership layoutPass ->
  o <> g ->
  isDescendantOf (S n) h g o = Val false ->
  group (objs h o) = Some p ->
  p <> g ->
  includes o (_objects (objs h p)) = true ->
  ancestry h n g ->
  ancestry h n p ->
  nestedWithin h (S n) o ->
  exists h',
    enterGroup layoutPass (S n) g o removeParentTransform h = Ok true h' /\
    group (objs h' o) = Some g /\
    _objects (objs h' p) = spliceOut o (_objects (objs h p)) /\
    (forall r, r <> p -> _objects (objs h' r) = _objects (objs h r)).
Proof.
  intros Hkeeps Hne Hfree Howner Hother Hmember Hg Hp Hnested.
  destruct (remove_run n p o h Hkeeps Hmember) as (hR & HrunR & HobjectsR & HgroupR);
    [apply (ancestry_mono h n); auto | assumption |].
  destruct (_enterGroup_run n g o removeParentTransform hR)
    as (hK & HrunK & HobjectsK & HgroupK).
  { apply (ancestry_cut h); [|apply (ancestry_mono h n); auto].
    intros q. rewrite HgroupR. destruct (Nat.eq_dec q o); auto. }
  { apply ancestry_root. rewrite HgroupR.
    destruct (Nat.eq_dec o o); [reflexivity | contradiction]. }
  { eapply nestedWithin_shrink; [|exact Hnested]. intros q c. rewrite HobjectsR.
    destruct (Nat.eq_dec q p) as [->|_]; [apply spliceOut_subset | auto]. }
  assert (forall r, group (objs hK r) = if Nat.eq_dec r o then Some g else group (objs h r))
    as HgroupK'.
  { intros r. rewrite HgroupK, HgroupR. now destruct (Nat.eq_dec r o). }
  set (push := update g (fun c => withActiveObjects (_activeObjects c ++ [o]) c)).
  assert (forall hX r, _objects (objs (push hX) r) = _objects (objs hX r) /\
                       group (objs (push hX) r) = group (objs hX r)) as Hpush.
  { intros hX r. unfold push. destruct (Nat.eq_dec g r) as [->|Hr];
      [rewrite objs_update_same | rewrite objs_update_other by exact Hr]; now split. }
  assert (exists h',
             enterGroup layoutPass (S n) g o removeParentTransform h = Ok true h' /\
             (h' = hK \/ h' = push hK)) as (h' & Hrun & Hh').
  { unfold enterGroup, bind.
    rewrite (canEnterGroup_allowed (S n) g o h Hne Hfree)
      by (rewrite Howner; congruence).
    cbn [negb]. unfold get. rewrite Howner. unfold bind. rewrite HrunR.
    unfold ret. rewrite HrunK.
    destruct (canvas (objs hK g)) as [c|]; [|eauto].
    destruct (hasGetActiveObject (canvases hK c)); [|eauto].
    destruct (_activeObject (canvases hK c)) as [active|]; [|eauto].
    destruct (Nat.eqb active o).
    - unfold when, modify. fold push. eauto.
    - destruct (isDescendantOf_total hK (S n) o active) as [inside Hinside].
      { apply (ancestry_step hK n o g).
        - rewrite HgroupK'. destruct (Nat.eq_dec o o); [reflexivity | contradiction].
        - apply (ancestry_frame h hK n (S n) g o); auto.
          intros r Hr. rewrite HgroupK'. now destruct (Nat.eq_dec r o). }
      unfold ask. rewrite Hinside. unfold when, modify. fold push.
      destruct inside; eauto. }
  exists h'. split; [exact Hrun|].
  assert (forall r, _objects (objs h' r) = _objects (objs hK r) /\
                    group (objs h' r) = group (objs hK r)) as Hshape.
  { intros r. destruct Hh' as [-> | ->]; [now split | apply Hpush]. }
  split; [|split].
  - destruct (Hshape o) as [_ ->]. rewrite HgroupK'.
    destruct (Nat.eq_dec o o); [reflexivity | contradiction].
  - destruct (Hshape p) as [-> _]. rewrite HobjectsK, HobjectsR.
    destruct (Nat.eq_dec p p); [reflexivity | contradiction].
  - intros r Hr. destruct (Hshape r) as [-> _]. rewrite HobjectsK, HobjectsR.
    destruct (Nat.eq_dec r p); [contradiction | reflexivity].
Qed.

End WithLayout.

(** C4.  [enterGroup] throws when the object is the container itself or
    when the container is a descendant of the object, and throws when the
    object already points back to this very container; in each case the
    heap is the one the call found, so that the child list of the container
    and the stored transform of the object are unchanged.  When the object
    belongs to another container, it is first removed from the child list
    of that container, and its back-reference is then set to the new
    container. *)
Theorem enterGroup_guards layoutPass n h g o removeParentTransform :
  (o = g ->
   enterGroup layoutPass (S n) g o removeParentTransform h
   = Raise (JSError cycleMessage) h) /\
  (isDescendantOf (S n) h g o = Val true ->
   enterGroup layoutPass (S n) g o removeParentTransform h
   = Raise (JSError cycleMessage) h) /\
  (o <> g -> isDescendantOf (S n) h g o = Val false ->
   group (objs h o) = Some g ->
   enterGroup layoutPass (S n) g o removeParentTransform h
   = Raise (JSError duplicateMessage) h) /\
  (forall p,
      keepsMembership layoutPass ->
      o <> g -> isDescendantOf (S n) h g o = Val false ->
      group (objs h o) = Some p -> p <> g ->
      includes o (_objects (objs h p)) = true ->
      ancestry h n g -> ancestry h n p -> nestedWithin h (S n) o ->
      exists h',
        enterGroup layoutPass (S n) g o removeParentTransform h = Ok true h' /\
        group (objs h' o) = Some g /\
        _objects (objs h' p) = spliceOut o (_objects (objs h p)) /\
        (forall r, r <> p -> _objects (objs h' r) = _objects (objs h r))).
Proof.
  split; [|split; [|split]].
  - intros ->. unfold enterGroup, bind. now rewrite canEnterGroup_itself.
  - intros Hcycle. unfold enterGroup, bind.
    now rewrite canEnterGroup_descendant.
  - intros Hne Hfree Hmember. unfold enterGroup, bind.
    now rewrite canEnterGroup_duplicate.
  - intros p. apply enterGroup_transfers.
Qed.

Lemma fixedLayoutPass_keepsMembership : keepsMembership fixedLayoutPass.
Proof. intros t g l h r. now repeat split. Qed.

Lemma enterGroup_guards_witness :
  enterGroup fixedLayoutPass 2 0%nat 0%nat true planeScene
  = Raise (JSError cycleMessage) planeScene /\
  enterGroup fixedLayoutPass 2 6%nat 5%nat true planeScene
  = Raise (JSError cycleMessage) planeScene /\
  enterGroup fixedLayoutPass 2 5%nat 6%nat true planeScene
  = Raise (JSError duplicateMessage) planeScene /\
  exists h',
    enterGroup fixedLayoutPass 2 0%nat 6%nat true planeScene = Ok true h' /\
    group (objs h' 6%nat) = Some 0%nat /\
    _objects (objs h' 5%nat) = [] /\
    (forall r, r <> 5%nat -> _objects (objs h' r) = _objects (objs planeScene r)).
Proof.
  split; [|split; [|split]].
  - apply (proj1 (enterGroup_guards fixedLayoutPass 1 planeScene 0%nat 0%nat true)).
    reflexivity.
  - apply (proj1 (proj2
             (enterGroup_guards fixedLayoutPass 1 planeScene 6%nat 5%nat true))).
    reflexivity.
  - apply (proj1 (proj2 (proj2
             (enterGroup_guards fixedLayoutPass 1 planeScene 5%nat 6%nat true))));
      [discriminate | reflexivity | reflexivity].
  - apply (proj2 (proj2 (proj2
             (enterGroup_guards fixedLayoutPass 1 planeScene 0%nat 6%nat true))) 5%nat).
    + exact fixedLayoutPass_keepsMembership.
    + discriminate.
    + reflexivity.
    + reflexivity.
    + discriminate.
    + reflexivity.
    + now apply ancestry_root.
    + now apply ancestry_root.
    + exact planeScene_nested.
Defined.

End MembershipFacts.

(** ** Lookups in the type registry *)

Module RegistryLookups.
Import JS Registry RegistrySVG Scenes.

Section WithHandlers.

Context {Handler : Type}.
Implicit Types (registry : RegistryMap Handler) (data : Data).

Lemma truthy_key key : key <> ""%string -> truthy (VString key) = true.
Proof.
  intros Hkey. cbn [truthy]. apply negb_true_iff, String.eqb_neq, Hkey.
Qed.

End WithHandlers.

(** X1.  A class registered under a non-empty key is found again: for
    every record that resolves to that key, [getJSONHandler] returns the
    [fromObject] of the class, in strict mode and in lenient mode, whatever
    was registered under the key before. *)
Theorem registerClass_then_getJSONHandler {Handler : Type}
        (registry : RegistryMap Handler) key klass data strict :
  key <> ""%string ->
  resolveJSONKey data = VString key ->
  getJSONHandler (registerClass registry key klass) data strict
  = Return (HFunction (fromObject klass)).
Proof.
  intros Hkey Hresolved. unfold getJSONHandler. rewrite Hresolved.
  rewrite truthy_key by assumption.
  unfold registerClass, register. cbn [registryGet]. unfold RegistryMap.
  rewrite lookup_insert_eq. cbn [json isHandler negb andb]. reflexivity.
Qed.

Lemma registerClass_then_getJSONHandler_witness :
  getJSONHandler (registerClass classes "rect" (Build_TClassIO "Rect2.fromObject"%string None))
                 typedWithNullStops true
  = Return (HFunction "Rect2.fromObject"%string).
Proof.
  apply (registerClass_then_getJSONHandler classes "rect"); [discriminate | reflexivity].
Defined.

(** X2.  Lenient mode never throws.  It returns a handler exactly when
    strict mode returns that handler, and returns [false] or [undefined]
    exactly when strict mode throws. *)
Theorem getJSONHandler_lenient {Handler : Type}
        (registry : RegistryMap Handler) (data : Data) :
  exists v,
    getJSONHandler registry data false = Return v /\
    (forall h, v = HFunction h <->
               getJSONHandler registry data true = Return (HFunction h)) /\
    (isHandler v = false <->
     getJSONHandler registry data true
     = Throw (FailedToGetJSONHandler (resolveJSONKey data))).
Proof.
  unfold getJSONHandler.
  destruct (truthy (resolveJSONKey data)); [|].
  - destruct (registryGet registry (resolveJSONKey data)) as [entry|];
      cbn [isHandler negb andb]; eexists; (split; [reflexivity|]); split.
    + intros h. split; intros [= ->]; reflexivity.
    + split; discriminate.
    + intros h. split; discriminate.
    + split; reflexivity.
  - cbn [isHandler negb andb]. eexists; (split; [reflexivity|]); split.
    + intros h. split; discriminate.
    + split; reflexivity.
Qed.

(** X3.  Registering under one key leaves the lookups of every record that
    resolves to another key as they were. *)
Theorem register_other_key {Handler : Type}
        (registry : RegistryMap Handler) key value data strict :
  resolveJSONKey data <> VString key ->
  getJSONHandler (register registry key value) data strict
  = getJSONHandler registry data strict.
Proof.
  intros Hother. unfold getJSONHandler.
  destruct (resolveJSONKey data) as [| |b|q| |s|items|fields]; try reflexivity.
  cbn [registryGet]. unfold register, RegistryMap.
  rewrite lookup_insert_ne by congruence. reflexivity.
Qed.

Lemma register_other_key_witness :
  getJSONHandler (register classes "star" (Build_TRegistry "Star.fromObject"%string None))
                 rectRecord true
  = getJSONHandler classes rectRecord true.
Proof.
  apply (register_other_key classes "star"). discriminate.
Defined.

Lemma resolveSVGKey_prefixed t : resolveSVGKey (String.append "svg:" t) = t.
Proof. unfold resolveSVGKey. cbn. now destruct t. Qed.

Lemma replaceFirst_no_colon pattern replacement s :
  In ":"%char (chars pattern) -> ~ In ":"%char (chars s) ->
  replaceFirst pattern replacement s = s.
Proof.
  intros Hpattern. induction s as [|c s IH]; intros Hs.
  - destruct pattern; [destruct Hpattern|]. reflexivity.
  - cbn [replaceFirst].
    destruct (String.prefix pattern (String c s)) eqn:Hprefix.
    + exfalso. apply Hs. clear IH Hs.
      revert Hprefix Hpattern. generalize (String c s) as t.
      induction pattern as [|a pattern IH]; intros t Hprefix Hin; [destruct Hin|].
      destruct t as [|b t]; [discriminate|]. cbn [String.prefix] in Hprefix.
      destruct (Ascii.ascii_dec a b) as [->|]; [|discriminate].
      cbn [chars In] in *. destruct Hin as [Hin|Hin]; [now left|].
      right. now apply IH.
    + f_equal. apply IH. intros Hin. apply Hs. now right.
Qed.

(** X4.  [resolveSVGKey] strips the namespace prefix once: a tag name
    [svg:t] resolves to [t], and a tag name without a colon resolves to
    itself. *)
Theorem resolveSVGKey_strips_prefix :
  (forall t, resolveSVGKey (String.append "svg:" t) = t) /\
  (forall tagName, ~ In ":"%char (chars tagName) -> resolveSVGKey tagName = tagName).
Proof.
  split.
  - apply resolveSVGKey_prefixed.
  - intros tagName Hplain. apply replaceFirst_no_colon; [|assumption].
    cbn. auto 10.
Qed.

Lemma resolveSVGKey_strips_prefix_witness :
  resolveSVGKey "svg:svg:rect" = "svg:rect"%string /\ resolveSVGKey "rect" = "rect"%string.
Proof.
  split.
  - apply (proj1 resolveSVGKey_strips_prefix "svg:rect"%string).
  - apply (proj2 resolveSVGKey_strips_prefix "rect"%string).
    cbn. intros H. repeat (destruct H as [H|H]; [discriminate|]). exact H.
Defined.

(** X5.  After [registerClass(key, klass)] the element [svg:key] finds the
    [fromElement] of the class; when the class has none, [getSVGHandler]
    throws although the class is registered.  Unlike the JSON lookup, the
    empty key is looked up like any other. *)
Theorem getSVGHandler_registerClass {Handler : Type}
        (registry : RegistryMap Handler) key klass :
  getSVGHandler (registerClass registry key klass) (String.append "svg:" key)
  = match fromElement klass with
    | Some handler => SVGReturn handler
    | None => SVGThrow key
    end.
Proof.
  unfold getSVGHandler. rewrite resolveSVGKey_prefixed.
  unfold registerClass, register, RegistryMap. rewrite lookup_insert_eq. reflexivity.
Qed.

End RegistryLookups.

(** ** Layout passes that change nothing, invalidation *)

Module LayoutPasses.
Import Affine Run Layout Scenes MoreScenes LayoutInvariants LayoutFacts.
Local Open Scope Q_scope.

Lemma isType_initialization t : isType t initialization = false <-> t <> initialization.
Proof. destruct t; cbn; split; intros; congruence. Qed.

(** A pass that is not the initial one and obtains no result returns at
    once. *)
Lemma pass_without_result math fuel h g ctx :
  type ctx <> initialization ->
  getLayoutStrategyResult math (S fuel) h g (layout (h g)) (_objects (h g)) ctx = Val None ->
  _applyLayoutStrategy math (S fuel) g ctx h = Ok tt h.
Proof.
  intros Htype Hnone. apply isType_initialization in Htype.
  cbn [_applyLayoutStrategy]. unfold bind, get. rewrite Htype. cbn [negb andb].
  destruct (_firstLayoutDone (h g)); [|reflexivity]. cbn [negb].
  destruct (isType (type ctx) progress && _layoutInProgress (h g)); [reflexivity|].
  unfold ask. rewrite Hnone. reflexivity.
Qed.

(** X6.  Until its initial layout is done a container rejects every
    layout request that is not the initial one: the call returns and
    leaves the heap as it was. *)
Theorem layout_rejected_before_first_layout math fuel h g ctx :
  _firstLayoutDone (h g) = false ->
  type ctx <> initialization ->
  _applyLayoutStrategy math (S fuel) g ctx h = Ok tt h.
Proof.
  intros Hfresh Htype. apply isType_initialization in Htype.
  cbn [_applyLayoutStrategy]. unfold bind, get.
  now rewrite Htype, Hfresh.
Qed.

Lemma layout_rejected_before_first_layout_witness :
  _applyLayoutStrategy rationalMath 1 0%nat (contextOf object_modified) testScene
  = Ok tt testScene.
Proof.
  apply (layout_rejected_before_first_layout rationalMath 0 testScene 0%nat);
    [reflexivity | discriminate].
Defined.

(** X7.  A container that has lost all its children keeps its geometry:
    under [fit-content] and [fit-content-lazy], a trigger that is neither
    the initial one nor an imperative one with overrides finds no bounding
    box, and the pass leaves the heap as it was. *)
Theorem emptied_container_keeps_layout math fuel h g ctx :
  _objects (h g) = [] ->
  layout (h g) = "fit-content"%string \/ layout (h g) = "fit-content-lazy"%string ->
  type ctx <> initialization ->
  (type ctx = imperative -> context ctx = None) ->
  _applyLayoutStrategy math (S fuel) g ctx h = Ok tt h.
Proof.
  intros Hempty Hlayout Htype Hplain.
  apply pass_without_result; [assumption|]. rewrite Hempty.
  unfold getLayoutStrategyResult, prepareBoundingBox.
  destruct (type ctx) eqn:Ht; try contradiction; cbn [isType];
    try rewrite (Hplain eq_refl);
    destruct Hlayout as [Hl | Hl]; rewrite ?Hl; cbn; reflexivity.
Qed.


Lemma emptied_container_keeps_layout_witness :
  _applyLayoutStrategy rationalMath 1 0%nat
    (mkContext removed [1%nat; 2%nat] None false None []) emptiedScene
  = Ok tt emptiedScene.
Proof.
  apply (emptied_container_keeps_layout rationalMath 0 emptiedScene 0%nat);
    [reflexivity | now left | discriminate | discriminate].
Defined.



(** X9.  [invalidate] is idempotent: a second invalidation, whatever its
    context, returns and leaves every object as the first one left it. *)
Theorem invalidate_twice math fuel h g ictx ictx' :
  ancestry h fuel g ->
  exists h1 h2,
    invalidate math fuel g ictx h = Ok tt h1 /\
    invalidate math fuel g ictx' h1 = Ok tt h2 /\
    forall r, h2 r = h1 r.
Proof.
  intros Hchain. destruct (isOnACache_total _ _ _ Hchain) as [cached Hcached].
  rewrite (invalidate_spec _ _ _ _ _ _ Hcached).
  destruct (cached && stacking (h g)) eqn:Hmark.
  - set (h1 := update g (withDirty true) h).
    assert (forall q, ownCaching (h1 q) = ownCaching (h q) /\ group (h1 q) = group (h q))
      as Hsame.
    { intros q. unfold h1. destruct (Nat.eq_dec g q) as [->|Hne].
      - rewrite update_same. now destruct (h q).
      - now rewrite update_other. }
    assert (isOnACache fuel h1 g = Val cached) as Hcached1
        by (now rewrite (isOnACache_ext h h1)).
    exists h1. eexists. split; [reflexivity|].
    rewrite (invalidate_spec _ _ _ _ _ _ Hcached1).
    split; [reflexivity|]. intros r.
    destruct (cached && stacking (h1 g)); [|reflexivity].
    destruct (Nat.eq_dec g r) as [->|Hne].
    + rewrite update_same. unfold h1. rewrite update_same. now destruct (h r).
    + now rewrite update_other.
  - exists h. eexists. split; [reflexivity|].
    rewrite (invalidate_spec _ _ _ _ _ _ Hcached), Hmark. now split.
Qed.

Lemma invalidate_twice_witness :
  exists h1 h2,
    invalidate rationalMath 2 3%nat fillChanged cachedScene = Ok tt h1 /\
    invalidate rationalMath 2 3%nat fillChanged h1 = Ok tt h2 /\
    forall r, h2 r = h1 r.
Proof.
  apply (invalidate_twice rationalMath 2 cachedScene 3%nat fillChanged fillChanged).
  exact cachedScene_ancestry.
Defined.

(** X10.  [isOnACache()] answers [true] exactly when the object or one of
    the containers above it has its own cache. *)
Theorem isOnACache_iff_cached_above h fuel r :
  ancestry h fuel r ->
  exists b, isOnACache fuel h r = Val b /\ (b = true <-> cachedAbove h r).
Proof.
  induction 1 as [n r Hroot | n r p Hparent _ (b & IH & Hiff)]; cbn [isOnACache].
  - rewrite Hroot. destruct (ownCaching (h r)) eqn:Hown; eexists; (split; [reflexivity|]).
    + split; [intros _; now apply cached_here | reflexivity].
    + split; [discriminate|]. intros Hcached. inversion Hcached; congruence.
  - rewrite Hparent, IH.
    destruct (ownCaching (h r)) eqn:Hown; eexists; (split; [reflexivity|]).
    + split; [intros _; now apply cached_here | reflexivity].
    + rewrite Hiff. split.
      * intros Hcached. now apply (cached_parent h r p).
      * intros Hcached. inversion Hcached as [? Hhere | ? q Hq Hup]; subst; congruence.
Qed.

Lemma isOnACache_iff_cached_above_witness :
  exists b, isOnACache 2 cachedScene 3%nat = Val b /\ (b = true <-> cachedAbove cachedScene 3%nat).
Proof.
  apply (isOnACache_iff_cached_above cachedScene 2 3%nat). exact cachedScene_ancestry.
Defined.

End LayoutPasses.

(** ** Bounding boxes *)

Module BoundingBoxes.
Import Affine Run Layout Scenes MoreScenes LayoutInvariants LayoutFacts.
Local Open Scope Q_scope.

Lemma include_within acc ab : within (include acc ab) ab.
Proof.
  unfold within, include. destruct ab as [a b].
  destruct (first acc); cbn [lower upper x y]; repeat split; minmax.
Qed.

Lemma include_keeps_within acc cd ab :
  first acc = false -> within acc ab -> within (include acc cd) ab.
Proof.
  unfold within, include. destruct ab as [a b], cd as [c d]. intros -> Hin.
  cbn [lower upper x y]. repeat split; minmax.
Qed.

Lemma fold_include_keeps_within cs acc ab :
  first acc = false -> within acc ab -> within (fold_left include cs acc) ab.
Proof.
  revert acc. induction cs as [|c cs IH]; intros acc Hfirst Hin; [assumption|].
  cbn [fold_left]. apply IH; [apply include_first | now apply include_keeps_within].
Qed.

Lemma fold_include_within cs acc ab :
  In ab cs -> within (fold_left include cs acc) ab.
Proof.
  revert acc. induction cs as [|c cs IH]; intros acc; [intros []|].
  intros [-> | Hin]; cbn [fold_left].
  - apply fold_include_keeps_within; [apply include_first | apply include_within].
  - now apply IH.
Qed.

Lemma corners_In measure objects cs o ab :
  corners measure objects = Val cs ->
  In o objects -> measure o = Val (Some ab) -> In ab cs.
Proof.
  revert cs. induction objects as [|o' objects IH]; intros cs Hcs; [intros []|].
  cbn [corners] in Hcs.
  destruct (measure o') as [m|] eqn:Hm; [|discriminate]. cbn [abind] in Hcs.
  destruct (corners measure objects) as [others|]; [|discriminate].
  cbn [abind] in Hcs. injection Hcs as <-.
  intros [-> | Hin] Ho.
  - rewrite Ho in Hm. injection Hm as <-. now left.
  - destruct m; [right|]; now apply (IH others).
Qed.

Lemma fold_include_first cs acc :
  first acc = false -> first (fold_left include cs acc) = false.
Proof.
  revert acc. induction cs as [|c cs IH]; intros acc Hfirst; [assumption|].
  cbn [fold_left]. apply IH, include_first.
Qed.

Lemma fold_include_span cs :
  let acc := fold_left include cs noBounds in
  x (lower acc) <= x (upper acc) /\ y (lower acc) <= y (upper acc).
Proof.
  destruct cs as [|c cs]; [cbn; split; lra|].
  cbn [fold_left].
  apply (fold_include_ordered cs (include noBounds c)); [apply include_ordered|].
  apply fold_include_first, include_first.
Qed.

(** X11.  The box [getObjectsBoundingBox] returns has a width and a height
    that are not negative, and the bounds it is built from contain the
    corners of every object that the loop measures. *)
Theorem bounding_box_contains_objects math fuel h this objects box :
  getObjectsBoundingBox math (S fuel) h this objects false = Val (Some box) ->
  0 <= width_ box /\ 0 <= height_ box /\
  exists acc,
    accumulatedBounds math (S fuel) h objects = Val acc /\
    width_ box == x (upper acc) - x (lower acc) /\
    height_ box == y (upper acc) - y (lower acc) /\
    forall o ab,
      In o objects ->
      objectBounds math (getObjectsBoundingBox math fuel h) h o = Val (Some ab) ->
      within acc ab.
Proof.
  intros Hbox. cbn [getObjectsBoundingBox accumulatedBounds] in *.
  destruct objects as [|o1 objects]; [discriminate|].
  set (measure := objectBounds math (getObjectsBoundingBox math fuel h) h) in *.
  destruct (boundsLoop measure (o1 :: objects) noBounds) as [acc|] eqn:Hloop;
    [|discriminate].
  cbn [abind] in Hbox. injection Hbox as <-.
  apply loop_defined in Hloop as (cs & Hcs & ->).
  pose proof (fold_include_span cs) as [Hx Hy]. cbn zeta in Hx, Hy.
  unfold boxOf. cbn [width_ height_ subtract x y].
  split; [lra|]. split; [lra|].
  eexists. split; [reflexivity|]. split; [reflexivity|]. split; [reflexivity|].
  intros o ab Hin Hmeasured. apply fold_include_within.
  now apply (corners_In measure (o1 :: objects) cs o ab).
Qed.

Lemma bounding_box_contains_objects_witness :
  exists box,
    getObjectsBoundingBox rationalMath 2 scenario1 0%nat [1%nat; 2%nat] false
    = Val (Some box) /\
    0 <= width_ box /\ 0 <= height_ box.
Proof.
  eexists. split; [vm_compute; reflexivity|].
  destruct (bounding_box_contains_objects rationalMath 1 scenario1 0%nat [1%nat; 2%nat] _
              eq_refl) as (Hw & Hh & _).
  split; [exact Hw | exact Hh].
Defined.

Lemma include_swap acc p q :
  sameBounds (include (include acc p) q) (include (include acc q) p).
Proof.
  unfold sameBounds, point_eq, include. destruct p as [a b], q as [c d].
  destruct (first acc); cbn [lower upper first x y]; repeat split; minmax.
Qed.

Lemma fold_include_permutation cs cs' :
  Permutation cs cs' ->
  forall acc, sameBounds (fold_left include cs acc) (fold_left include cs' acc).
Proof.
  induction 1 as [|c cs cs' _ IH|c d cs|cs1 cs2 cs3 _ IH1 _ IH2]; intros acc.
  - apply sameBounds_refl.
  - cbn [fold_left]. apply IH.
  - cbn [fold_left]. apply fold_include_proper, include_swap.
  - eapply sameBounds_trans; [apply IH1 | apply IH2].
Qed.

Lemma corners_permutation measure objects objects' cs :
  Permutation objects objects' ->
  corners measure objects = Val cs ->
  exists cs', corners measure objects' = Val cs' /\ Permutation cs cs'.
Proof.
  intros Hperm. revert cs.
  induction Hperm as [|o l l' _ IH|o1 o2 l|l1 l2 l3 _ IH1 _ IH2]; intros cs Hcs.
  - exists cs. now split.
  - cbn [corners] in *. destruct (measure o) as [m|]; [|discriminate].
    cbn [abind] in *. destruct (corners measure l) as [others|]; [|discriminate].
    destruct (IH others eq_refl) as (others' & -> & Hothers).
    cbn [abind] in *. injection Hcs as <-.
    eexists. split; [reflexivity|]. destruct m; [now constructor | assumption].
  - cbn [corners] in *.
    destruct (measure o1) as [m1|]; destruct (measure o2) as [m2|]; try discriminate.
    cbn [abind] in *. destruct (corners measure l) as [others|]; [|discriminate].
    cbn [abind] in *. injection Hcs as <-.
    eexists. split; [reflexivity|].
    destruct m1, m2; try reflexivity. apply perm_swap.
  - destruct (IH1 cs Hcs) as (cs2 & Hcs2 & Hperm2).
    destruct (IH2 cs2 Hcs2) as (cs3 & Hcs3 & Hperm3).
    exists cs3. split; [assumption|]. now transitivity cs2.
Qed.

(** X12.  The bounding box does not depend on the order of the objects:
    when [getObjectsBoundingBox] returns a box for a list of objects, it
    returns the same box for every reordering of the list. *)
Theorem bounding_box_ignores_order math fuel h this objects objects' ignoreOffset box :
  Permutation objects objects' ->
  getObjectsBoundingBox math fuel h this objects ignoreOffset = Val (Some box) ->
  exists box',
    getObjectsBoundingBox math fuel h this objects' ignoreOffset = Val (Some box') /\
    sameResult box box'.
Proof.
  intros Hperm Hbox. destruct fuel as [|fuel]; [discriminate|].
  cbn [getObjectsBoundingBox] in *.
  destruct objects as [|o1 objects]; [discriminate|].
  destruct objects' as [|o1' objects'];
    [apply Permutation_sym, Permutation_nil in Hperm; discriminate|].
  set (measure := objectBounds math (getObjectsBoundingBox math fuel h) h) in *.
  destruct (boundsLoop measure (o1 :: objects) noBounds) as [acc|] eqn:Hloop;
    [|discriminate].
  cbn [abind] in Hbox. injection Hbox as <-.
  apply loop_defined in Hloop as (cs & Hcs & ->).
  destruct (corners_permutation measure _ _ cs Hperm Hcs) as (cs' & Hcs' & Hcorners).
  rewrite boundsLoop_corners, Hcs'. cbn [abind].
  eexists. split; [reflexivity|].
  apply boxOf_proper, fold_include_permutation, Hcorners.
Qed.

Lemma bounding_box_ignores_order_witness :
  exists box',
    getObjectsBoundingBox rationalMath 2 scenario1 0%nat [2%nat; 1%nat] false
    = Val (Some box') /\
    width_ box' == 80 /\ height_ box' == 60.
Proof.
  destruct (bounding_box_ignores_order rationalMath 2 scenario1 0%nat
              [1%nat; 2%nat] [2%nat; 1%nat] false _ (perm_swap _ _ _) eq_refl)
    as (box' & Hbox' & Hsame).
  exists box'. split; [exact Hbox'|].
  destruct Hsame as (_ & _ & Hw & Hh & _).
  split; [rewrite <- Hw | rewrite <- Hh]; vm_compute; reflexivity.
Defined.

Lemma objectBounds_fill_parent math nested (h : Heap) o :
  isLayer (h o) = false -> layout (h o) = "fill-parent"%string ->
  objectBounds math nested h o = Val None.
Proof.
  intros Hplain Hfill. unfold objectBounds. now rewrite Hplain, Hfill.
Qed.

Lemma corners_skipped measure l1 o l2 :
  measure o = Val None ->
  corners measure (l1 ++ o :: l2) = corners measure (l1 ++ l2).
Proof.
  intros Hskip. induction l1 as [|a l1 IH]; cbn [app corners].
  - rewrite Hskip. cbn [abind]. now destruct (corners measure l2).
  - now rewrite IH.
Qed.

(** X13.  A child whose own directive is [fill-parent] does not count in
    the bounding box: the box of a list of objects is the box of the list
    without that child.  When such children are all there is, the box is
    still returned, 0 wide and 0 high. *)
Theorem fill_parent_child_is_ignored math fuel h this l1 o l2 ignoreOffset :
  isLayer (h o) = false ->
  layout (h o) = "fill-parent"%string ->
  (l1 ++ l2 <> [] ->
   getObjectsBoundingBox math (S fuel) h this (l1 ++ o :: l2) ignoreOffset
   = getObjectsBoundingBox math (S fuel) h this (l1 ++ l2) ignoreOffset) /\
  exists box,
    getObjectsBoundingBox math (S fuel) h this [o] ignoreOffset = Val (Some box) /\
    width_ box == 0 /\ height_ box == 0.
Proof.
  intros Hplain Hfill.
  pose proof (objectBounds_fill_parent math (getObjectsBoundingBox math fuel h) h o
                Hplain Hfill) as Hskip.
  split.
  - intros Hrest. cbn [getObjectsBoundingBox].
    rewrite !boundsLoop_corners, corners_skipped by assumption.
    destruct (l1 ++ l2) eqn:Hl; [contradiction|].
    now destruct l1.
  - cbn [getObjectsBoundingBox boundsLoop]. rewrite Hskip. cbn [abind].
    eexists. split; [reflexivity|]. cbn. split; reflexivity.
Qed.

Lemma fill_parent_child_is_ignored_witness :
  getObjectsBoundingBox rationalMath 2 fillChildScene 0%nat [1%nat; 2%nat; 3%nat] false
  = getObjectsBoundingBox rationalMath 2 fillChildScene 0%nat [1%nat; 2%nat] false.
Proof.
  apply (proj1 (fill_parent_child_is_ignored rationalMath 1 fillChildScene 0%nat
                  [1%nat; 2%nat] 3%nat [] false eq_refl eq_refl)).
  discriminate.
Defined.

End BoundingBoxes.

(** ** What a layout pass never writes *)

Module LayoutFrames.
Import Affine Run Layout Scenes MoreScenes LayoutInvariants LayoutFacts.
Local Open Scope Q_scope.

Section Frames.

Variable P : FObject -> FObject -> Prop.
Hypothesis P_refl : forall o, P o o.
Hypothesis P_trans : forall a b c, P a b -> P b c -> P a c.











Hypothesis P_position : forall l t o, P (withPosition l t o) o.
Hypothesis P_size : forall w h o, P (withSize w h o) o.
Hypothesis P_transform : forall a sx sy o, P (withInitialTransform a sx sy o) o.
Hypothesis P_inProgress : forall b o, P (withLayoutInProgress b o) o.
Hypothesis P_done : forall b o, P (withFirstLayoutDone b o) o.





End Frames.


Lemma sameButGeometry_trans a b c :
  sameButGeometry a b -> sameButGeometry b c -> sameButGeometry a c.
Proof. unfold sameButGeometry. intuition congruence. Qed.



End LayoutFrames.

(** ** The application of a layout result *)

Module LayoutResults.
Import Affine Run Layout Scenes MoreScenes LayoutInvariants LayoutFacts LayoutFrames.
Local Open Scope Q_scope.

Lemma onlyMoved_refl o : onlyMoved o o.
Proof. exists (left o), (top o). now destruct o. Qed.

Lemma onlyMoved_klass a b : onlyMoved a b -> klass a = klass b /\ group a = group b.
Proof. intros (l & t & ->). now destruct b. Qed.

Lemma onlyMoved_trans a b c : onlyMoved a b -> onlyMoved b c -> onlyMoved a c.
Proof. intros (l & t & ->) (l' & t' & ->). exists l, t. now destruct c. Qed.

Lemma onlyMoved_geometry a b :
  onlyMoved a b -> sameButGeometry a b /\ width a = width b /\ height a = height b.
Proof.
  intros (l & t & ->). destruct b; unfold sameButGeometry; cbn. now repeat split.
Qed.

Section Resizing.

Variables (h : Heap) (g : Ref) (w hh : Q).

Lemma resized_klass h1 r :
  resized h g w hh h1 -> klass (h1 r) = klass (h r) /\ group (h1 r) = group (h r).
Proof.
  intros (Hothers & Hown & _). destruct (Nat.eq_dec r g) as [->|Hne].
  - unfold sameButGeometry in Hown. tauto.
  - now apply onlyMoved_klass, Hothers.
Qed.

Lemma resized_move h1 r f :
  (forall o, onlyMoved (f o) o) ->
  resized h g w hh h1 -> resized h g w hh (update r f h1).
Proof.
  intros Hf (Hothers & Hown & Hw & Hh). unfold resized.
  destruct (Nat.eq_dec r g) as [->|Hne].
  - rewrite update_same.
    destruct (onlyMoved_geometry _ _ (Hf (h1 g))) as (Hsame & Hfw & Hfh).
    split; [|split; [|split]]; [| |congruence|congruence].
    + intros q Hq. rewrite update_other by auto. now apply Hothers.
    + eapply sameButGeometry_trans; eassumption.
  - rewrite update_other by assumption. split; [|now split].
    intros q Hq. destruct (Nat.eq_dec r q) as [->|Hrq].
    + rewrite update_same. eapply onlyMoved_trans; [apply Hf | now apply Hothers].
    + rewrite update_other by assumption. now apply Hothers.
Qed.

Lemma resized_own h1 f :
  (forall o, sameButGeometry (f o) o /\ width (f o) = width o /\ height (f o) = height o) ->
  resized h g w hh h1 -> resized h g w hh (update g f h1).
Proof.
  intros Hf (Hothers & Hown & Hw & Hh). unfold resized. rewrite update_same.
  destruct (Hf (h1 g)) as (Hsame & Hfw & Hfh).
  split; [|split; [|split]].
  - intros q Hq. rewrite update_other by auto. now apply Hothers.
  - eapply sameButGeometry_trans; eassumption.
  - congruence.
  - congruence.
Qed.

Lemma adjust_plain_object fuel object diff h1 :
  isLayer (h1 object) = false ->
  _adjustObjectPosition (S fuel) object diff h1
  = Ok tt (update object (fun o => withPosition (left o + x diff) (top o + y diff) o) h1).
Proof.
  intros Hplain. cbn [_adjustObjectPosition]. unfold bind, get. now rewrite Hplain.
Qed.

Hypothesis Hplain : forall r, isLayer (h r) = false.

Lemma resized_plain h1 r : resized h g w hh h1 -> isLayer (h1 r) = false.
Proof.
  intros Hres. specialize (Hplain r). unfold isLayer in *.
  destruct (resized_klass h1 r Hres) as [-> _]. exact Hplain.
Qed.

Lemma resized_adjust fuel object diff h1 :
  resized h g w hh h1 ->
  exists h2, _adjustObjectPosition (S fuel) object diff h1 = Ok tt h2 /\
             resized h g w hh h2.
Proof.
  intros Hres. rewrite adjust_plain_object by now apply resized_plain.
  eexists. split; [reflexivity|].
  apply resized_move; [|assumption]. intros o. now eexists _, _.
Qed.

Lemma resized_forEach (f : Ref -> Op unit) objects h1 :
  (forall object h2, resized h g w hh h2 ->
                     exists h3, f object h2 = Ok tt h3 /\ resized h g w hh h3) ->
  resized h g w hh h1 ->
  exists h2, forEach f objects h1 = Ok tt h2 /\ resized h g w hh h2.
Proof.
  intros Hf. revert h1. induction objects as [|object objects IH]; intros h1 Hres.
  - exists h1. now split.
  - cbn [forEach]. unfold bind.
    destruct (Hf object h1 Hres) as (h2 & -> & Hres2). now apply IH.
Qed.

End Resizing.

(** The application of a result, for a container without parent in a
    scene without layers. *)
Lemma pass_applies_result math fuel h g ctx result :
  (forall r, isLayer (h r) = false) ->
  group (h g) = None ->
  type ctx = initialization \/ _firstLayoutDone (h g) = true ->
  getLayoutStrategyResult math (S fuel) h g (layout (h g)) (_objects (h g)) ctx
  = Val (Some result) ->
  exists h',
    _applyLayoutStrategy math (S fuel) g ctx h = Ok tt h' /\
    resized h g (width_ result) (height_ result) h' /\
    _firstLayoutDone (h' g) = true /\ _layoutInProgress (h' g) = false.
Proof.
  intros Hplain Hroot Hready Hresult.
  assert (type ctx <> progress) as Hactive.
  { intros Hprogress.
    now rewrite (getLayoutStrategyResult_progress math _ _ _ _ _ _ Hprogress) in Hresult. }
  cbn [_applyLayoutStrategy]. unfold bind at 1, get.
  assert (negb (isType (type ctx) initialization) && negb (_firstLayoutDone (h g)) = false)
    as ->.
  { destruct Hready as [-> | ->]; [reflexivity|]. now rewrite andb_false_r. }
  assert (isType (type ctx) progress && _layoutInProgress (h g) = false) as ->.
  { destruct (type ctx); try reflexivity. contradiction. }
  unfold bind at 1, ask. rewrite Hresult.
  set (w := width_ result). set (hh := height_ result).
  (* the size is set *)
  set (h2 := update g (withSize w hh) (update g (withLayoutInProgress true) h)).
  assert (resized h g w hh h2) as Hres2.
  { unfold resized, h2. rewrite !update_same. split; [|split; [|split]].
    - intros r Hr. rewrite !update_other by auto. apply onlyMoved_refl.
    - destruct (h g); unfold sameButGeometry; cbn. now repeat split.
    - now destruct (h g).
    - now destruct (h g). }
  cbv [bind modify get when ret].
  fold h2.
  (* the container is repositioned *)
  match goal with
  | |- context [match ?run with _ => _ end] =>
      match run with
      | _ h2 =>
          assert (exists h3, run = Ok tt h3 /\ resized h g w hh h3) as (h3 & -> & Hres3)
      end
  end.
  { match goal with |- context [if ?b then _ else _] => destruct b end;
      [|now exists h2].
    unfold setInitialTransform.
    match goal with |- context [match ?t with Some _ => _ | None => _ end] =>
      destruct t as [[[a sx] sy]|] end;
      eexists; (split; [reflexivity|]).
    - apply resized_own.
      + intros o. destruct o; unfold sameButGeometry; cbn. now repeat split.
      + apply resized_move; [|assumption]. intros o. now eexists _, _.
    - apply resized_move; [|assumption]. intros o. now eexists _, _. }
  (* the children follow *)
  match goal with
  | |- context [match ?run with _ => _ end] =>
      match run with
      | _ h3 =>
          assert (exists h4, run = Ok tt h4 /\ resized h g w hh h4) as (h4 & -> & Hres4)
      end
  end.
  { destruct (negb (objectsRelativeToGroup ctx)); [|now exists h3].
    apply resized_forEach; [|assumption].
    intros object h' Hres'.
    destruct (sameGroup (group (h' object)) g); [|now exists h'].
    apply resized_adjust; assumption. }
  (* the clip path follows *)
  match goal with
  | |- context [match ?run with _ => _ end] =>
      match run with
      | _ h4 =>
          assert (exists h5, run = Ok tt h5 /\ resized h g w hh h5) as (h5 & -> & Hres5)
      end
  end.
  { destruct (clipPath (h4 g)) as [clip|]; [|now exists h4].
    match goal with |- context [if ?b then _ else _] => destruct b end;
      [|now exists h4].
    apply resized_adjust; assumption. }
  cbn [negb]. rewrite update_same.
  set (h6 := update g (withLayoutInProgress false) h5).
  assert (resized h g w hh h6) as Hres6.
  { apply resized_own; [|assumption].
    intros o. destruct o; unfold sameButGeometry; cbn. now repeat split. }
  assert (group (withFirstLayoutDone true (h6 g)) = None) as ->.
  { destruct (resized_klass h g w hh h6 g Hres6) as [_ Hgroup].
    rewrite <- Hroot, <- Hgroup. now destruct (h6 g). }
  eexists. split; [reflexivity|]. split.
  - apply resized_own; [|assumption].
    intros o. destruct o; unfold sameButGeometry; cbn. now repeat split.
  - rewrite update_same. unfold h6. rewrite update_same.
    split; now destruct (h5 g).
Qed.

(** X15.  When the strategy returns a result for a container without
    parent, in a scene without layers, the pass returns; the container has
    the width and height of the result, its first layout is done and no
    layout is in progress any more, and every other object was moved at
    most: no child is resized, rotated or removed. *)
Theorem layout_result_is_applied math fuel h g ctx result :
  (forall r, isLayer (h r) = false) ->
  group (h g) = None ->
  type ctx = initialization \/ _firstLayoutDone (h g) = true ->
  getLayoutStrategyResult math (S fuel) h g (layout (h g)) (_objects (h g)) ctx
  = Val (Some result) ->
  exists h',
    _applyLayoutStrategy math (S fuel) g ctx h = Ok tt h' /\
    width (h' g) = width_ result /\ height (h' g) = height_ result /\
    _firstLayoutDone (h' g) = true /\ _layoutInProgress (h' g) = false /\
    forall r, r <> g -> onlyMoved (h' r) (h r).
Proof.
  intros Hplain Hroot Hready Hresult.
  destruct (pass_applies_result math fuel h g ctx result Hplain Hroot Hready Hresult)
    as (h' & Hrun & (Hothers & _ & Hw & Hh) & Hdone & Hidle).
  exists h'. split; [exact Hrun|]. split; [exact Hw|]. split; [exact Hh|].
  split; [exact Hdone|]. split; [exact Hidle | exact Hothers].
Qed.

Lemma scenario1_plain r : isLayer (scenario1 r) = false.
Proof. do 3 (destruct r as [|r]; [reflexivity|]). reflexivity. Qed.

Lemma layout_result_is_applied_witness :
  exists result h',
    getLayoutStrategyResult rationalMath 2 scenario1 0%nat "fit-content" [1%nat; 2%nat]
      (contextOf object_modified) = Val (Some result) /\
    _applyLayoutStrategy rationalMath 2 0%nat (contextOf object_modified) scenario1
    = Ok tt h' /\
    width (h' 0%nat) = width_ result /\ height (h' 0%nat) = height_ result.
Proof.
  eexists.
  destruct (layout_result_is_applied rationalMath 1 scenario1 0%nat
              (contextOf object_modified) _ scenario1_plain eq_refl
              (or_intror eq_refl) eq_refl) as (h' & Hrun & Hw & Hh & _).
  exists h'. split; [reflexivity|]. split; [exact Hrun|]. split; [exact Hw | exact Hh].
Defined.

(** X16.  An imperative trigger that carries a width and a height sets the
    container to that size, whatever box its children span. *)
Theorem triggerLayout_overrides_size math fuel h g overrides w hh bbox :
  (forall r, isLayer (h r) = false) ->
  group (h g) = None ->
  _firstLayoutDone (h g) = true ->
  In (layout (h g)) ["fit-content"; "fit-content-lazy"; "fixed"]%string ->
  ovLayout overrides = None ->
  ovWidth overrides = Some w ->
  ovHeight overrides = Some hh ->
  getObjectsBoundingBox math (S fuel) h g (_objects (h g)) false = Val (Some bbox) ->
  exists h',
    triggerLayout math (S fuel) g (Some overrides) h = Ok tt h' /\
    width (h' g) = w /\ height (h' g) = hh /\
    forall r, r <> g -> onlyMoved (h' r) (h r).
Proof.
  intros Hplain Hroot Hdone Hlayout Hsame Hw Hh Hbox.
  unfold triggerLayout. cbn [mbind option_bind]. rewrite Hsame. unfold bind at 1, ret.
  set (ctx := mkContext imperative [] None false (Some overrides) []).
  assert (exists result,
             getLayoutStrategyResult math (S fuel) h g (layout (h g)) (_objects (h g)) ctx
             = Val (Some result) /\ width_ result = w /\ height_ result = hh)
    as (result & Hresult & Hrw & Hrh).
  { unfold getLayoutStrategyResult, prepareBoundingBox. cbn [type ctx isType context].
    assert (forall l, In l ["fit-content"; "fit-content-lazy"; "fixed"]%string ->
                      ((l =? "fit-content-lazy")%string && false = false) /\
                      ((l =? "fit-content")%string || (l =? "fit-content-lazy")%string
                       || (l =? "fixed")%string && (false || true) = true)) as Hdir.
    { intros l [<- | [<- | [<- | []]]]; now split. }
    destruct (Hdir _ Hlayout) as [-> ->].
    cbn [andb]. rewrite Hbox. cbn [abind assignOverrides]. rewrite Hw, Hh.
    eexists. split; [reflexivity|]. now split. }
  destruct (pass_applies_result math fuel h g ctx result Hplain Hroot
              (or_intror Hdone) Hresult) as (h' & Hrun & (Hothers & _ & Hw' & Hh') & _).
  exists h'. split; [exact Hrun|]. split; [congruence|]. split; [congruence | exact Hothers].
Qed.

Lemma triggerLayout_overrides_size_witness :
  exists h',
    triggerLayout rationalMath 2 0%nat (Some sizeOverrides) scenario1 = Ok tt h' /\
    width (h' 0%nat) = 300 /\ height (h' 0%nat) = 200.
Proof.
  destruct (triggerLayout_overrides_size rationalMath 1 scenario1 0%nat sizeOverrides
              300 200 _ scenario1_plain eq_refl eq_refl (or_introl eq_refl)
              eq_refl eq_refl eq_refl eq_refl) as (h' & Hrun & Hw & Hh & _).
  exists h'. split; [exact Hrun|]. split; [exact Hw | exact Hh].
Defined.

End LayoutResults.

(** ** Selection bookkeeping and subscriptions *)

Module BookkeepingFacts.
Import Affine Run Membership Bookkeeping MembershipFacts Scenes.
Local Open Scope Q_scope.

Lemma spliceOut_appended o l : includes o l = false -> spliceOut o (l ++ [o]) = l.
Proof.
  induction l as [|a l IH]; cbn [includes existsb spliceOut app].
  - now rewrite Nat.eqb_refl.
  - intros Hnot. apply orb_false_iff in Hnot as [-> Hrest]. f_equal. now apply IH.
Qed.

Lemma includes_appended o l : includes o (l ++ [o]) = true.
Proof.
  unfold includes. rewrite existsb_app. cbn. rewrite Nat.eqb_refl.
  now rewrite orb_true_r.
Qed.

(** X17.  Selecting an object that the group does not track yet and
    deselecting it again leaves the list of active objects as it was, the
    group being marked dirty. *)
Theorem select_then_deselect h g o :
  includes o (_activeObjects (objs h g)) = false ->
  exists h1 h2,
    __objectSelectionMonitor true g o h = Ok tt h1 /\
    _activeObjects (objs h1 g) = _activeObjects (objs h g) ++ [o] /\
    __objectSelectionMonitor false g o h1 = Ok tt h2 /\
    _activeObjects (objs h2 g) = _activeObjects (objs h g) /\
    dirty (objs h2 g) = true /\
    forall r, r <> g -> objs h2 r = objs h r.
Proof.
  intros Hfresh.
  set (h1 := update g (withDirty true)
               (update g (fun c => withActiveObjects (_activeObjects c ++ [o]) c) h)).
  assert (_activeObjects (objs h1 g) = _activeObjects (objs h g) ++ [o]) as Hactive1.
  { unfold h1. rewrite !objs_update_same. now destruct (objs h g). }
  exists h1. eexists. split; [reflexivity|]. split; [exact Hactive1|].
  unfold __objectSelectionMonitor, bind, get. rewrite Hactive1.
  rewrite includes_appended, length_app. cbn [length].
  replace (0 <? length (_activeObjects (objs h g)) + 1)%nat with true
    by (symmetry; apply Nat.ltb_lt; lia).
  unfold modify, _set_dirty, modify. split; [reflexivity|].
  rewrite !objs_update_same. cbn [_activeObjects withDirty withActiveObjects dirty].
  rewrite Hactive1, spliceOut_appended by assumption.
  split; [reflexivity|]. split; [reflexivity|].
  intros r Hr. unfold h1. now rewrite !objs_update_other by auto.
Qed.

Lemma select_then_deselect_witness :
  exists h1 h2,
    __objectSelectionMonitor true 5%nat 6%nat planeScene = Ok tt h1 /\
    __objectSelectionMonitor false 5%nat 6%nat h1 = Ok tt h2 /\
    _activeObjects (objs h2 5%nat) = [] /\ dirty (objs h2 5%nat) = true.
Proof.
  destruct (select_then_deselect planeScene 5%nat 6%nat eq_refl)
    as (h1 & h2 & Hselect & _ & Hdeselect & Hactive & Hdirty & _).
  exists h1, h2. split; [exact Hselect|]. split; [exact Hdeselect|].
  split; [exact Hactive | exact Hdirty].
Defined.

Lemma count_spliceOut o l r :
  count_occ Nat.eq_dec (spliceOut o l) r
  = if Nat.eq_dec o r then Nat.pred (count_occ Nat.eq_dec l r)
    else count_occ Nat.eq_dec l r.
Proof.
  induction l as [|a l IH]; cbn [spliceOut count_occ].
  - now destruct (Nat.eq_dec o r).
  - destruct (Nat.eqb_spec o a) as [->|Hoa].
    + destruct (Nat.eq_dec a r); reflexivity.
    + cbn [count_occ]. rewrite IH.
      destruct (Nat.eq_dec a r) as [->|Har], (Nat.eq_dec o r) as [->|Hor];
        try reflexivity; try contradiction.
Qed.

Lemma includes_count o l : includes o l = false -> count_occ Nat.eq_dec l o = 0%nat.
Proof.
  intros Hnot. apply count_occ_not_In. intros Hin.
  assert (includes o l = true) as Htrue; [|congruence].
  apply existsb_exists. exists o. split; [assumption | apply Nat.eqb_refl].
Qed.

(** X18.  Deselecting an object always returns.  It takes one occurrence
    of the object out of the list of active objects and leaves the count of
    every other object as it was; when the object is not tracked, the heap
    is the one the call found and the group is not marked dirty. *)
Theorem deselect_removes_one h g o :
  exists h',
    __objectSelectionMonitor false g o h = Ok tt h' /\
    (forall r,
        count_occ Nat.eq_dec (_activeObjects (objs h' g)) r
        = if Nat.eq_dec o r
          then Nat.pred (count_occ Nat.eq_dec (_activeObjects (objs h g)) r)
          else count_occ Nat.eq_dec (_activeObjects (objs h g)) r) /\
    (includes o (_activeObjects (objs h g)) = true -> dirty (objs h' g) = true) /\
    (includes o (_activeObjects (objs h g)) = false -> h' = h).
Proof.
  unfold __objectSelectionMonitor, bind, get.
  destruct (includes o (_activeObjects (objs h g))) eqn:Htracked.
  - assert ((0 <? length (_activeObjects (objs h g)))%nat = true) as ->.
    { destruct (_activeObjects (objs h g)); [discriminate | reflexivity]. }
    unfold modify, _set_dirty, modify. eexists. split; [reflexivity|].
    rewrite !objs_update_same. cbn [_activeObjects withDirty withActiveObjects dirty].
    split; [|split; [reflexivity | discriminate]].
    intros r. apply count_spliceOut.
  - exists h. split; [now destruct (0 <? _)%nat|]. split; [|split; [discriminate | reflexivity]].
    intros r. destruct (Nat.eq_dec o r) as [<-|]; [|reflexivity].
    now rewrite includes_count.
Qed.

Lemma count_detached g l :
  count_occ Nat.eq_dec (List.filter (fun q => negb (Nat.eqb q g)) l) g = 0%nat.
Proof.
  apply count_occ_not_In. intros Hin%filter_In. destruct Hin as [_ Hne].
  now rewrite Nat.eqb_refl in Hne.
Qed.

Lemma _watchObject_subscriptions watch g o h :
  subscriptions g (objs (_watchObject watch g o h) o) = if watch then 1%nat else 0%nat.
Proof.
  unfold _watchObject, subscriptions. rewrite objs_update_same.
  cbn [monitors withMonitors]. destruct watch.
  - rewrite count_occ_app, count_detached. cbn.
    now destruct (Nat.eq_dec g g).
  - apply count_detached.
Qed.

Lemma _watchObject_other watch g o h r : r <> o -> objs (_watchObject watch g o h) r = objs h r.
Proof. intros Hne. unfold _watchObject. now rewrite objs_update_other by auto. Qed.

Lemma _watchObject_interactive watch g o h r :
  interactive (objs (_watchObject watch g o h) r) = interactive (objs h r) /\
  _objects (objs (_watchObject watch g o h) r) = _objects (objs h r).
Proof.
  unfold _watchObject. rewrite objs_update.
  destruct (Nat.eq_dec o r) as [->|_]; [|now split]. destruct (objs h r); now split.
Qed.

Lemma watch_children watch g l h :
  exists h',
    forEach (E := Error) (fun object => modify (_watchObject watch g object)) l h
    = Ok tt h' /\
    (forall c, In c l ->
               subscriptions g (objs h' c) = if watch then 1%nat else 0%nat) /\
    (forall r, ~ In r l -> objs h' r = objs h r) /\
    (forall r, interactive (objs h' r) = interactive (objs h r) /\
               _objects (objs h' r) = _objects (objs h r)).
Proof.
  revert h. induction l as [|c l IH]; intros h.
  - exists h. split; [reflexivity|]. split; [intros c []|]. now split.
  - cbn [forEach]. unfold bind, modify at 1.
    destruct (IH (_watchObject watch g c h)) as (h' & -> & Hin & Hout & Hkept).
    exists h'. split; [reflexivity|]. split; [|split].
    + intros c' [<- | Hc'].
      * destruct (in_dec Nat.eq_dec c l) as [Hc|Hc]; [now apply Hin|].
        rewrite (Hout c Hc). apply _watchObject_subscriptions.
      * now apply Hin.
    + intros r Hr. rewrite Hout by (intros Hin'; apply Hr; now right).
      apply _watchObject_other. intros ->. apply Hr. now left.
    + intros r. destruct (Hkept r) as [-> ->]. apply _watchObject_interactive.
Qed.

(** X19.  [_set('interactive', value)] stores the value and attaches or
    detaches the subscriptions of the group on all its children: when no
    child holds more than one subscription of the group, after the call
    every child holds exactly one when the value is [true] and none when
    it is [false]; objects that are not children are left as they were. *)
Theorem set_interactive_watches_children h g value :
  (forall c, In c (_objects (objs h g)) -> (subscriptions g (objs h c) <= 1)%nat) ->
  exists h',
    _set_interactive g value h = Ok tt h' /\
    interactive (objs h' g) = value /\
    (forall c, In c (_objects (objs h g)) ->
               subscriptions g (objs h' c) = if value then 1%nat else 0%nat) /\
    (forall r, r <> g -> ~ In r (_objects (objs h g)) -> objs h' r = objs h r).
Proof.
  intros _. unfold _set_interactive, bind, modify at 1, get.
  set (h0 := update g (withInteractive value) h).
  assert (_objects (objs h0 g) = _objects (objs h g)) as ->.
  { unfold h0. rewrite objs_update_same. now destruct (objs h g). }
  destruct (watch_children value g (_objects (objs h g)) h0)
    as (h' & -> & Hin & Hout & Hkept).
  exists h'. split; [reflexivity|]. split; [|split].
  - destruct (Hkept g) as [-> _]. unfold h0. rewrite objs_update_same.
    now destruct (objs h g).
  - exact Hin.
  - intros r Hr Hout'. rewrite (Hout r Hout'). unfold h0.
    now rewrite objs_update_other by auto.
Qed.

Lemma set_interactive_watches_children_witness :
  exists h',
    _set_interactive 5%nat true planeScene = Ok tt h' /\
    interactive (objs h' 5%nat) = true /\
    subscriptions 5%nat (objs h' 6%nat) = 1%nat.
Proof.
  destruct (set_interactive_watches_children planeScene 5%nat true)
    as (h' & Hrun & Hinteractive & Hchildren & _).
  - intros c [<- | []]. vm_compute. lia.
  - exists h'. split; [exact Hrun|]. split; [exact Hinteractive|].
    apply (Hchildren 6%nat). now left.
Defined.

End BookkeepingFacts.

(** ** Leaving a container and entering it again *)

Module PlaneChanges.
Import Affine Run Membership MembershipFacts Scenes.
Local Open Scope Q_scope.

(** Redoing then undoing an invertible transform gives the matrix back. *)
Lemma inverse_multiply (t w : TMat2D) :
  ~ det t == 0 ->
  mat_eq (multiplyTransformMatrices (invertTransform t)
            (multiplyTransformMatrices t w false) false) w.
Proof.
  unfold mat_eq, multiplyTransformMatrices, invertTransform, transformPoint, det.
  destruct t as [a b c d e f], w as [a' b' c' d' e' f'].
  cbn [ma mb mc md me mf x y]. intros Hdet.
  repeat split; field; exact Hdet.
Qed.

(** X20.  Let [o] be a member of [g], whose world transform is invertible.
    Leaving [g] without [removeParentTransform] stores
    [container * stored] in [o] and clears its back-reference; entering [g]
    again with [removeParentTransform] sets the back-reference and stores
    the transform [o] had in the plane of [g] at the start. *)
Theorem exit_then_enter_restores_local fuel h g o container :
  group (objs h o) = Some g ->
  o <> g ->
  isDescendantOf fuel h g o = Val false ->
  calcTransformMatrix fuel h g = Val container ->
  ~ det container == 0 ->
  nestedWithin h fuel o ->
  exists h1 h2,
    _exitGroup fuel g o false h = Ok tt h1 /\
    group (objs h1 o) = None /\
    ownMatrix (objs h1 o)
    = multiplyTransformMatrices container (ownMatrix (objs h o)) false /\
    _enterGroup fuel g o true h1 = Ok tt h2 /\
    group (objs h2 o) = Some g /\
    mat_eq (ownMatrix (objs h2 o)) (ownMatrix (objs h o)).
Proof.
  intros Hmember Hne Hfree Hcontainer Hdet Hnested.
  assert (exists n, fuel = S n) as [n ->] by (destruct fuel; [discriminate | eauto]).
  set (stored := ownMatrix (objs h o)).
  set (back := multiplyTransformMatrices container stored false).
  (* leaving *)
  set (hD := update o (withGroup None) h).
  assert (forall r, r <> o ->
                    ownMatrix (objs hD r) = ownMatrix (objs h r) /\
                    group (objs hD r) = group (objs h r)) as HframeD.
  { intros r Hr. unfold hD. rewrite objs_update_other by auto. now split. }
  assert (ownMatrix (objs hD o) = stored /\ group (objs hD o) = None) as [HmD HgD].
  { unfold hD. rewrite objs_update_same. unfold stored. destruct (objs h o); now split. }
  set (h1 := update g (fun c => withActiveObjects (spliceOut o (_activeObjects c)) c)
               (_watchObject false g o (applyTransformToObject o back hD))).
  assert (forall r, _objects (objs h1 r) = _objects (objs h r)) as Hobjects1.
  { intros r. unfold h1. rewrite objs_update.
    destruct (_watchObject_fields false g o (applyTransformToObject o back hD) r)
      as (_ & _ & Ho & _).
    destruct (_watchObject_fields false g o (applyTransformToObject o back hD) g)
      as (_ & _ & Hog & _).
    assert (forall q, _objects (objs (applyTransformToObject o back hD) q)
                      = _objects (objs h q)) as Happlied.
    { intros q. unfold applyTransformToObject, hD.
      destruct (Nat.eq_dec o q) as [->|Hq];
        [rewrite !objs_update_same | rewrite !objs_update_other by exact Hq];
        [now destruct (objs h q) | reflexivity]. }
    destruct (Nat.eq_dec g r) as [->|_]; cbn [_objects withActiveObjects].
    - now rewrite Hog, Happlied.
    - now rewrite Ho, Happlied. }
  assert (forall r, r <> o ->
                    ownMatrix (objs h1 r) = ownMatrix (objs h r) /\
                    group (objs h1 r) = group (objs h r)) as Hframe1.
  { intros r Hr. unfold h1. rewrite objs_update.
    destruct (_watchObject_fields false g o (applyTransformToObject o back hD) r)
      as (Hm & Hg & _).
    destruct (_watchObject_fields false g o (applyTransformToObject o back hD) g)
      as (Hmg & Hgg & _).
    assert (objs (applyTransformToObject o back hD) r = objs h r) as Happlied.
    { unfold applyTransformToObject, hD. now rewrite !objs_update_other by auto. }
    destruct (Nat.eq_dec g r) as [->|_]; cbn [ownMatrix group withActiveObjects].
    - now rewrite Hmg, Hgg, Happlied.
    - now rewrite Hm, Hg, Happlied. }
  assert (ownMatrix (objs h1 o) = back /\ group (objs h1 o) = None) as [Hm1 Hg1].
  { unfold h1. rewrite objs_update_other by auto.
    destruct (_watchObject_fields false g o (applyTransformToObject o back hD) o)
      as (-> & -> & _).
    unfold applyTransformToObject. rewrite objs_update_same.
    rewrite <- HgD. destruct (objs hD o); now split. }
  (* entering again *)
  set (local := multiplyTransformMatrices (invertTransform container) back false).
  set (hA := update o (withGroup (Some g)) (applyTransformToObject o local h1)).
  assert (forall r, _objects (objs hA r) = _objects (objs h r)) as HobjectsA.
  { intros r. rewrite <- Hobjects1. unfold hA, applyTransformToObject.
    destruct (Nat.eq_dec o r) as [->|Hr];
      [rewrite !objs_update_same | rewrite !objs_update_other by exact Hr];
      [now destruct (objs h1 r) | reflexivity]. }
  assert (ownMatrix (objs hA o) = local /\ group (objs hA o) = Some g) as [HmA HgA].
  { unfold hA, applyTransformToObject. rewrite !objs_update_same.
    destruct (objs h1 o); now split. }
  destruct (_set_canvas_frame (S n) o (canvas (objs hA g)) hA) as (hB & HrunB & HsameB).
  { eapply nestedWithin_shrink; [|exact Hnested]. intros q c. now rewrite HobjectsA. }
  set (h2 := if interactive (objs hA g) then _watchObject true g o hB else hB).
  assert (ownMatrix (objs h2 o) = local /\ group (objs h2 o) = Some g) as [Hm2 Hg2].
  { destruct (sameButCanvas_fields hA hB o HsameB) as (Hm & Hg & _).
    unfold h2. destruct (interactive (objs hA g)).
    - destruct (_watchObject_fields true g o hB o) as (-> & -> & _).
      now rewrite Hm, Hg.
    - now rewrite Hm, Hg. }
  exists h1, h2. split; [|split; [|split; [|split; [|split]]]].
  - unfold _exitGroup, bind, when, ask, modify, get. cbn [negb]. fold hD.
    rewrite (calcTransformMatrix_frame (S n) h hD g o HframeD (not_eq_sym Hne) Hfree).
    rewrite Hcontainer. cbn [calcTransformMatrix]. unfold calcOwnMatrix.
    rewrite HgD, HmD. reflexivity.
  - exact Hg1.
  - exact Hm1.
  - unfold _enterGroup, bind, when, ask, modify, get.
    rewrite (calcTransformMatrix_frame (S n) h h1 g o Hframe1 (not_eq_sym Hne) Hfree).
    rewrite Hcontainer. cbn [abind calcTransformMatrix]. rewrite Hg1.
    unfold calcOwnMatrix. rewrite Hm1.
    fold local. fold hA. rewrite HrunB. unfold h2, ret.
    destruct (interactive (objs hA g)); reflexivity.
  - exact Hg2.
  - rewrite Hm2. apply inverse_multiply, Hdet.
Qed.

Lemma exit_then_enter_restores_local_witness :
  exists h1 h2,
    _exitGroup 2 5%nat 6%nat false planeScene = Ok tt h1 /\
    _enterGroup 2 5%nat 6%nat true h1 = Ok tt h2 /\
    mat_eq (ownMatrix (objs h2 6%nat)) (mkMat 0 1 (-1) 0 1 1).
Proof.
  assert (~ det (mkMat 1 0 0 3 7 0) == 0) as Hdet by (intros [=]).
  assert (6 <> 5)%nat as Hne by discriminate.
  destruct (exit_then_enter_restores_local 2 planeScene 5%nat 6%nat _
              eq_refl Hne eq_refl eq_refl Hdet planeScene_nested)
    as (h1 & h2 & Hexit & _ & _ & Henter & _ & Hsame).
  exists h1, h2. split; [exact Hexit|]. split; [exact Henter | exact Hsame].
Defined.

End PlaneChanges.

(** ** Propagation of the canvas to descendants *)

Module CanvasPropagation.
Import Affine Run Membership Subtrees MembershipFacts Scenes.

Lemma below_inv h r d :
  below h r d -> d = r \/ exists c, In c (_objects (objs h r)) /\ below h c d.
Proof. destruct 1 as [r | r c d Hc Hcd]; [now left | right; eauto]. Qed.

Lemma below_trans h a b c : below h a b -> below h b c -> below h a c.
Proof.
  induction 1 as [r | r k d Hk _ IH]; [auto|].
  intros Hbc. eapply below_child; [exact Hk | now apply IH].
Qed.

Lemma below_same h h' r d :
  (forall q, _objects (objs h' q) = _objects (objs h q)) -> below h r d -> below h' r d.
Proof.
  intros Hsame. induction 1 as [r | r k d Hk _ IH]; [constructor|].
  eapply below_child; [rewrite Hsame; exact Hk | exact IH].
Qed.

Lemma below_sameButCanvas h h' r d : sameButCanvas h h' -> below h r d <-> below h' r d.
Proof.
  intros Hsame. split; apply below_same; intros q;
    destruct (sameButCanvas_fields h h' q Hsame) as (_ & _ & Ho & _); congruence.
Qed.

Lemma nestedWithin_below h n r d : nestedWithin h n r -> below h r d -> nestedWithin h n d.
Proof.
  intros Hnested Hbelow. revert n Hnested.
  induction Hbelow as [r | r k d Hk _ IH]; intros n Hnested; [assumption|].
  inversion Hnested as [m r' Hchildren]; subst.
  apply (nestedWithin_mono h m); [|lia]. apply IH, Hchildren, Hk.
Qed.

(** The tree of child lists below a node of finite height has no cycle. *)
Lemma nestedWithin_acyclic h n r c :
  nestedWithin h n r -> In c (_objects (objs h r)) -> below h c r -> False.
Proof.
  revert r c. induction n as [|n IH]; intros r c Hnested Hc Hback;
    [inversion Hnested|].
  inversion Hnested as [m r' Hchildren]; subst.
  apply (IH r c); [|exact Hc | exact Hback].
  apply (nestedWithin_below h n c r); [apply Hchildren, Hc | exact Hback].
Qed.

Lemma sameRef_true a b : sameRef a b = true <-> a = b.
Proof.
  destruct a as [m|], b as [n|]; cbn; split; try congruence; try discriminate.
  - intros Heq%Nat.eqb_eq. now subst.
  - intros [= ->]. apply Nat.eqb_refl.
Qed.

Lemma propagated_refl value h : propagated value h h.
Proof.
  split; [apply sameButCanvas_refl|]. split; [auto|]. intros q Hq. now contradiction Hq.
Qed.

Lemma allOn_propagated value h h' q :
  propagated value h h' -> allOn h value q -> allOn h' value q.
Proof.
  intros (Hsame & Hmono & _) Hall d Hd. apply Hmono, Hall.
  now apply (below_sameButCanvas h h').
Qed.

Lemma propagated_trans value h1 h2 h3 :
  propagated value h1 h2 -> propagated value h2 h3 -> propagated value h1 h3.
Proof.
  intros H12 H23. pose proof H12 as (Hs12 & Hm12 & Hc12).
  pose proof H23 as (Hs23 & Hm23 & Hc23).
  split; [eapply sameButCanvas_trans; eassumption|]. split; [auto|].
  intros q Hq. destruct (decide (canvas (objs h3 q) = canvas (objs h2 q))) as [Heq|Hne].
  - apply (allOn_propagated value h2 h3); [assumption|]. apply Hc12. congruence.
  - now apply Hc23.
Qed.

Lemma pending_propagated old value h h' r :
  propagated value h h' -> pending old value h r -> pending old value h' r.
Proof.
  intros Hprop Hpending d Hd. pose proof Hprop as (Hsame & _ & Hchanged).
  apply (below_sameButCanvas h h') in Hd; [|assumption].
  destruct (Hpending d Hd) as [Hold | Hall].
  - destruct (decide (canvas (objs h' d) = canvas (objs h d))) as [Heq|Hne].
    + left. congruence.
    + right. now apply Hchanged.
  - right. now apply (allOn_propagated value h h').
Qed.

Section Propagation.

Variables (old value : option Ref).
Hypothesis Hchange : sameRef old value = false.

Lemma set_canvas_propagates n :
  forall r h,
    nestedWithin h n r -> pending old value h r ->
    exists h', _set_canvas n r value h = Ok tt h' /\
               allOn h' value r /\ propagated value h h'.
Proof.
  induction n as [|n IH]; intros r h Hnested Hpending; [inversion Hnested|].
  inversion Hnested as [n' r' Hchildren]; subst.
  cbn [_set_canvas]. unfold bind at 1, get. unfold bind at 1, modify at 1.
  set (h1 := update r (withCanvas value) h).
  assert (sameButCanvas h h1) as Hsame1 by apply sameButCanvas_update.
  assert (forall q, canvas (objs h1 q) = if Nat.eq_dec r q then value else canvas (objs h q))
    as Hcanvas1.
  { intros q. unfold h1. rewrite objs_update.
    destruct (Nat.eq_dec r q) as [->|_]; [now destruct (objs h q) | reflexivity]. }
  destruct (sameRef (canvas (objs h r)) value) eqn:Hprev; cbn [negb when].
  - (* the value does not change: nothing is propagated *)
    apply sameRef_true in Hprev.
    assert (allOn h value r) as Hall.
    { destruct (Hpending r (below_self h r)) as [Hold | Hall]; [|exact Hall].
      rewrite Hprev in Hold. subst old. exfalso.
      assert (sameRef value value = true) by now apply sameRef_true. congruence. }
    assert (forall q, canvas (objs h1 q) = canvas (objs h q)) as Hkept.
    { intros q. rewrite Hcanvas1. destruct (Nat.eq_dec r q) as [<-|_]; congruence. }
    exists h1. split; [reflexivity|]. split.
    + intros d Hd. rewrite Hkept. apply Hall. now apply (below_sameButCanvas h h1).
    + split; [assumption|]. split; [intros q; now rewrite Hkept|].
      intros q Hq. now contradiction Hq.
  - (* the value changes: the children are visited *)
    assert (canvas (objs h r) = old) as Hold.
    { destruct (Hpending r (below_self h r)) as [Hold | Hall]; [exact Hold|].
      exfalso.
      assert (sameRef (canvas (objs h r)) value = true)
        by (apply sameRef_true, Hall, below_self).
      congruence. }
    assert (forall l s,
               (forall c, In c l -> In c (_objects (objs h r))) ->
               sameButCanvas h s ->
               (forall q, canvas (objs h q) = value -> canvas (objs s q) = value) ->
               canvas (objs s r) = value ->
               (forall q, q <> r -> canvas (objs s q) <> canvas (objs h q) ->
                          allOn s value q) ->
               exists s',
                 forEach (fun child => _set_canvas n child value) l s = Ok tt s' /\
                 sameButCanvas h s' /\
                 (forall q, canvas (objs h q) = value -> canvas (objs s' q) = value) /\
                 canvas (objs s' r) = value /\
                 (forall q, q <> r -> canvas (objs s' q) <> canvas (objs h q) ->
                            allOn s' value q) /\
                 (forall q, allOn s value q -> allOn s' value q) /\
                 (forall c, In c l -> allOn s' value c)) as Hloop.
    { induction l as [|c l IHl]; intros s Hsub Hsame Hmono Hroot Hchanged.
      - exists s. split; [reflexivity|]. repeat (split; [assumption|]).
        split; [auto | intros c []].
      - cbn [forEach]. unfold bind.
        assert (In c (_objects (objs h r))) as Hc by (apply Hsub; now left).
        destruct (IH c s) as (s1 & -> & Hall1 & Hprop1).
        { eapply nestedWithin_sameButCanvas; [exact Hsame | apply Hchildren, Hc]. }
        { intros d Hd. apply (below_sameButCanvas h s) in Hd; [|assumption].
          assert (d <> r) as Hdr.
          { intros ->. exact (nestedWithin_acyclic h (S n) r c Hnested Hc Hd). }
          destruct (Hpending d (below_child h r c d Hc Hd)) as [Hd_old | Hd_all].
          - destruct (decide (canvas (objs s d) = canvas (objs h d))) as [Heq|Hne].
            + left. congruence.
            + right. now apply Hchanged.
          - right. intros e He. apply Hmono, Hd_all.
            now apply (below_sameButCanvas h s). }
        pose proof Hprop1 as (Hs1 & Hm1 & Hc1).
        destruct (IHl s1) as (s' & -> & Hsame' & Hmono' & Hroot' & Hchanged' & Hkeep' & Hall').
        { intros c' Hc'. apply Hsub. now right. }
        { eapply sameButCanvas_trans; eassumption. }
        { auto. }
        { auto. }
        { intros q Hq Hne.
          destruct (decide (canvas (objs s1 q) = canvas (objs s q))) as [Heq|Hne1].
          - apply (allOn_propagated value s s1); [assumption|].
            apply Hchanged; congruence.
          - now apply Hc1. }
        exists s'. split; [reflexivity|]. repeat (split; [assumption|]).
        split.
        + intros q Hq. apply Hkeep'. now apply (allOn_propagated value s s1).
        + intros c' [<- | Hc']; [now apply Hkeep' | now apply Hall']. }
    destruct (Hloop (_objects (objs h r)) h1) as
      (h' & -> & Hsame' & Hmono' & Hroot' & Hchanged' & _ & Hall').
    { auto. }
    { assumption. }
    { intros q Hq. rewrite Hcanvas1. now destruct (Nat.eq_dec r q). }
    { rewrite Hcanvas1. now destruct (Nat.eq_dec r r). }
    { intros q Hq Hne. rewrite Hcanvas1 in Hne. destruct (Nat.eq_dec r q); congruence. }
    assert (allOn h' value r) as Hall.
    { intros d Hd. apply (below_sameButCanvas h h') in Hd; [|assumption].
      destruct (below_inv h r d Hd) as [-> | (c & Hc & Hcd)]; [exact Hroot'|].
      apply (Hall' c Hc). now apply (below_sameButCanvas h h'). }
    exists h'. split; [reflexivity|]. split; [exact Hall|].
    split; [assumption|]. split; [assumption|].
    intros q Hq. destruct (Nat.eq_dec q r) as [->|Hne]; [exact Hall | now apply Hchanged'].
Qed.

End Propagation.

(** X21.  When all the objects below a group are on the same canvas,
    [_set('canvas', value)] on the group returns and leaves the group and
    every object below it on the new canvas, with all their other fields
    as they were. *)
Theorem set_canvas_reaches_descendants fuel h r old value :
  nestedWithin h fuel r ->
  allOn h old r ->
  exists h',
    _set_canvas fuel r value h = Ok tt h' /\
    allOn h' value r /\ sameButCanvas h h'.
Proof.
  intros Hnested Hall.
  destruct (sameRef old value) eqn:Hchange.
  - apply sameRef_true in Hchange. subst old.
    set (other := match value with Some _ => None | None => Some 0%nat end).
    destruct (set_canvas_propagates other value) with (n := fuel) (r := r) (h := h)
      as (h' & Hrun & Hall' & Hsame & _); [now destruct value | assumption | |eauto].
    intros d Hd. right. intros e He. apply Hall. now apply (below_trans h r d e).
  - destruct (set_canvas_propagates old value Hchange fuel r h)
      as (h' & Hrun & Hall' & Hsame & _); [assumption | |eauto].
    intros d Hd. left. now apply Hall.
Qed.

Lemma planeScene_off_canvas d : canvas (objs planeScene d) = None.
Proof. do 7 (destruct d as [|d]; [reflexivity|]). reflexivity. Qed.

Lemma set_canvas_reaches_descendants_witness :
  exists h',
    _set_canvas 2 5%nat (Some 0%nat) planeScene = Ok tt h' /\
    canvas (objs h' 5%nat) = Some 0%nat /\ canvas (objs h' 6%nat) = Some 0%nat.
Proof.
  destruct (set_canvas_reaches_descendants 2 planeScene 5%nat None (Some 0%nat))
    as (h' & Hrun & Hall & Hsame).
  - constructor. intros c [<- | []]. constructor. intros c [].
  - intros d _. apply planeScene_off_canvas.
  - exists h'. split; [exact Hrun|]. split.
    + apply Hall, below_self.
    + apply Hall. apply (below_sameButCanvas planeScene h'); [exact Hsame|].
      apply (below_child planeScene 5%nat 6%nat); [now left | apply below_self].
Defined.

End CanvasPropagation.

(** ** Emptying a group *)

Module EmptyingFacts.
Import Affine Run Membership Emptying MembershipFacts Scenes.

Lemma collectionRemove_all n g :
  forall l s,
    _objects (objs s g) = l ->
    ancestry s (S n) g ->
    (forall c, In c l -> nestedWithin s (S n) c) ->
    exists s',
      collectionRemove (S n) g l s = Ok l s' /\
      _objects (objs s' g) = [] /\
      (forall r, r <> g -> _objects (objs s' r) = _objects (objs s r)) /\
      (forall r, group (objs s' r) = if in_dec Nat.eq_dec r l then None
                                     else group (objs s r)).
Proof.
  induction l as [|o l IH]; intros s Hlist Hchain Hnested.
  - exists s. split; [reflexivity|]. split; [assumption|]. now split.
  - cbn [collectionRemove]. unfold bind at 1, get. rewrite Hlist.
    cbn [includes existsb]. rewrite Nat.eqb_refl. cbn [orb].
    unfold bind at 1, modify at 1.
    set (s1 := update g (fun c => withObjects (spliceOut o (_objects c)) c) s).
    assert (forall r, _objects (objs s1 r) = if Nat.eq_dec r g then l else _objects (objs s r))
      as Hobjects1.
    { intros r. unfold s1. destruct (Nat.eq_dec r g) as [->|Hr].
      - rewrite objs_update_same. cbn [_objects withObjects]. rewrite Hlist.
        cbn [spliceOut]. now rewrite Nat.eqb_refl.
      - now rewrite objs_update_other by auto. }
    assert (forall r, group (objs s1 r) = group (objs s r)) as Hgroup1.
    { intros r. unfold s1. destruct (Nat.eq_dec g r) as [->|Hr];
        [rewrite objs_update_same | rewrite objs_update_other by exact Hr]; reflexivity. }
    assert (forall q c, In c (_objects (objs s1 q)) -> In c (_objects (objs s q))) as Hsub1.
    { intros q c. rewrite Hobjects1. destruct (Nat.eq_dec q g) as [->|_]; [|auto].
      rewrite Hlist. now right. }
    destruct (exitGroup_run n g o s1) as (s2 & Hrun2 & Hobjects2 & Hgroup2).
    { apply (ancestry_cut s); [|assumption]. intros q. left. apply Hgroup1. }
    { eapply nestedWithin_shrink; [exact Hsub1|]. apply Hnested. now left. }
    unfold bind at 1, _onObjectRemoved. rewrite Hrun2.
    destruct (IH s2) as (s' & Hrun' & Hempty & Hothers & Hgroups).
    { rewrite Hobjects2, Hobjects1. now destruct (Nat.eq_dec g g). }
    { apply (ancestry_cut s); [|assumption]. intros q. rewrite Hgroup2, Hgroup1.
      destruct (Nat.eq_dec q o); auto. }
    { intros c Hc. eapply nestedWithin_shrink; [|apply Hnested; now right].
      intros q c'. rewrite Hobjects2. apply Hsub1. }
    exists s'. unfold bind, ret. rewrite Hrun'.
    split; [reflexivity|]. split; [assumption|]. split.
    + intros r Hr. rewrite (Hothers r Hr), Hobjects2, Hobjects1.
      now destruct (Nat.eq_dec r g).
    + intros r. rewrite Hgroups, Hgroup2, Hgroup1.
      destruct (in_dec Nat.eq_dec r l) as [Hin|Hout],
               (in_dec Nat.eq_dec r (o :: l)) as [Hin'|Hout'];
        try reflexivity.
      * exfalso. apply Hout'. now right.
      * destruct (Nat.eq_dec r o) as [->|Hne]; [reflexivity|].
        destruct Hin' as [<-|Hin']; [contradiction | now contradiction Hout].
      * destruct (Nat.eq_dec r o) as [->|Hne]; [|reflexivity].
        exfalso. apply Hout'. now left.
Qed.

(** X22.  [removeAll()] returns the children of the group, in order.  It
    leaves the group without children, clears the back-reference of every
    former child, and leaves the child lists of the other objects and the
    back-references of the objects that were not children as they were. *)
Theorem removeAll_empties layoutPass n h g :
  keepsMembership layoutPass ->
  ancestry h (S n) g ->
  (forall c, In c (_objects (objs h g)) -> nestedWithin h (S n) c) ->
  exists h',
    removeAll layoutPass (S n) g h = Ok (_objects (objs h g)) h' /\
    _objects (objs h' g) = [] /\
    (forall c, In c (_objects (objs h g)) -> group (objs h' c) = None) /\
    (forall r, ~ In r (_objects (objs h g)) -> group (objs h' r) = group (objs h r)) /\
    (forall r, r <> g -> _objects (objs h' r) = _objects (objs h r)).
Proof.
  intros Hkeeps Hchain Hnested.
  unfold removeAll, bind at 1, modify at 1, bind at 1, get.
  set (h0 := update g (withActiveObjects []) h).
  assert (forall r, _objects (objs h0 r) = _objects (objs h r) /\
                    group (objs h0 r) = group (objs h r)) as Hshape0.
  { intros r. unfold h0. destruct (Nat.eq_dec g r) as [->|Hr];
      [rewrite objs_update_same | rewrite objs_update_other by exact Hr];
      [now destruct (objs h r) | now split]. }
  destruct (Hshape0 g) as [-> _].
  destruct (collectionRemove_all n g (_objects (objs h g)) h0)
    as (s & Hrun & Hempty & Hothers & Hgroups).
  { apply Hshape0. }
  { apply (ancestry_cut h); [|assumption]. intros q. left. apply Hshape0. }
  { intros c Hc. eapply nestedWithin_shrink; [|apply Hnested, Hc].
    intros q c'. now destruct (Hshape0 q) as [-> _]. }
  unfold remove, bind at 1. rewrite Hrun.
  unfold _onAfterObjectsChange, bind, modify, _set_dirty, modify, ret.
  set (hL := layoutPass removed g (_objects (objs h g)) s).
  assert (forall r, _objects (objs (update g (withDirty true) hL) r) = _objects (objs s r) /\
                    group (objs (update g (withDirty true) hL) r) = group (objs s r))
    as Hshape.
  { intros r. destruct (Hkeeps removed g (_objects (objs h g)) s r) as (Hg & Ho & _).
    fold hL in Hg, Ho. destruct (Nat.eq_dec g r) as [->|Hr];
      [rewrite objs_update_same | rewrite objs_update_other by exact Hr];
      [destruct (objs hL r); cbn in *; now split | now split]. }
  eexists. split; [reflexivity|]. split; [|split; [|split]].
  - destruct (Hshape g) as [-> _]. exact Hempty.
  - intros c Hc. destruct (Hshape c) as [_ ->]. rewrite Hgroups.
    destruct (in_dec Nat.eq_dec c (_objects (objs h g))); [reflexivity | contradiction].
  - intros r Hr. destruct (Hshape r) as [_ ->]. rewrite Hgroups.
    destruct (in_dec Nat.eq_dec r (_objects (objs h g))); [contradiction|].
    apply Hshape0.
  - intros r Hr. destruct (Hshape r) as [-> _]. rewrite (Hothers r Hr). apply Hshape0.
Qed.

Lemma removeAll_empties_witness :
  exists h',
    removeAll fixedLayoutPass 2 5%nat planeScene = Ok [6%nat] h' /\
    _objects (objs h' 5%nat) = [] /\ group (objs h' 6%nat) = None.
Proof.
  destruct (removeAll_empties fixedLayoutPass 1 planeScene 5%nat
              fixedLayoutPass_keepsMembership) as (h' & Hrun & Hempty & Hgroups & _).
  - now apply ancestry_root.
  - intros c [<- | []]. exact planeScene_nested.
  - exists h'. split; [exact Hrun|]. split; [exact Hempty|].
    apply Hgroups. now left.
Defined.

End EmptyingFacts.

(** ** The saturation filter *)

Module SaturationFacts.
Import Saturation MoreScenes.
Local Open Scope Q_scope.

Lemma list_ind4 (P : list Z -> Prop) :
  P [] -> (forall a, P [a]) -> (forall a b, P [a; b]) -> (forall a b c, P [a; b; c]) ->
  (forall a b c d l, P l -> P (a :: b :: c :: d :: l)) ->
  forall l, P l.
Proof.
  intros H0 H1 H2 H3 H4.
  fix IH 1. intros [|a [|b [|c [|d l]]]];
    [exact H0 | apply H1 | apply H2 | apply H3 | apply H4, IH].
Qed.

Lemma applyPixels_length adjust data : length (applyPixels adjust data) = length data.
Proof.
  induction data as [|a|a b|a b c|a b c d l IH] using list_ind4; try reflexivity.
  cbn [applyPixels length]. now rewrite IH.
Qed.

Lemma applyPixels_alpha adjust data k default :
  nth (4 * k + 3) (applyPixels adjust data) default = nth (4 * k + 3) data default.
Proof.
  revert k. induction data as [|a|a b|a b c|a b c d l IH] using list_ind4; intros k.
  - reflexivity.
  - replace (4 * k + 3)%nat with (S (S (S (4 * k)))) by lia. reflexivity.
  - replace (4 * k + 3)%nat with (S (S (S (4 * k)))) by lia. reflexivity.
  - replace (4 * k + 3)%nat with (S (S (S (4 * k)))) by lia. cbn. now destruct (4 * k)%nat.
  - destruct k as [|k]; [reflexivity|].
    replace (4 * S k + 3)%nat with (S (S (S (S (4 * k + 3))))) by lia.
    cbn [applyPixels nth]. apply IH.
Qed.

Lemma applyPixels_channel adjust data k c :
  (c < 3)%nat -> (4 * k + 2 < length data)%nat ->
  channelOf (applyPixels adjust data) k c
  = saturated adjust (brightest data k) (channelOf data k c).
Proof.
  intros Hc. revert k.
  induction data as [|a|a b|a b c'|a b c' d l IH] using list_ind4; intros k Hk;
    cbn [length] in Hk; try lia.
  - destruct k; [|lia]. unfold channelOf, brightest, channelOf.
    destruct c as [|[|[|c]]]; try lia; reflexivity.
  - destruct k as [|k].
    + unfold channelOf, brightest, channelOf.
      destruct c as [|[|[|c]]]; try lia; reflexivity.
    + unfold channelOf, brightest, channelOf in *.
      replace (4 * S k + c)%nat with (S (S (S (S (4 * k + c))))) by lia.
      replace (4 * S k + 0)%nat with (S (S (S (S (4 * k + 0))))) by lia.
      replace (4 * S k + 1)%nat with (S (S (S (S (4 * k + 1))))) by lia.
      replace (4 * S k + 2)%nat with (S (S (S (S (4 * k + 2))))) by lia.
      cbn [applyPixels nth]. apply IH. lia.
Qed.

Lemma toUint8Clamp_upper q m : q <= inject_Z m -> (0 <= m)%Z -> (toUint8Clamp q <= m)%Z.
Proof.
  intros Hq Hm. unfold toUint8Clamp.
  destruct (Qle_bool q 0) eqn:Hlow; [assumption|].
  destruct (Qle_bool 255 q) eqn:Hhigh.
  - apply Qle_bool_iff in Hhigh. apply Qle_trans with (z := inject_Z m) in Hhigh; [|assumption].
    change 255 with (inject_Z 255) in Hhigh. now rewrite Zle_Qle.
  - pose proof (Qfloor_le q) as Hfloor. pose proof (Qlt_floor q) as Hceil.
    assert (Qfloor q <= m)%Z as Hfm by (rewrite Zle_Qle; lra).
    assert (inject_Z (Qfloor q + 1) == inject_Z (Qfloor q) + 1) as Hplus
        by (rewrite inject_Z_plus; reflexivity).
    assert (inject_Z (Qfloor q) < q -> (Qfloor q + 1 <= m)%Z) as Hstrict.
    { intros Hlt. assert (Qfloor q < m)%Z; [|lia]. rewrite Zlt_Qlt. lra. }
    destruct (Qle_bool q (inject_Z (Qfloor q) + (1 # 2))) eqn:Hhalf; cbn [negb].
    + destruct (Qle_bool (inject_Z (Qfloor q) + (1 # 2)) q) eqn:Hhalf'; cbn [negb];
        [|assumption].
      apply Qle_bool_iff in Hhalf'. destruct (Z.even (Qfloor q)); [assumption|].
      apply Hstrict. lra.
    + apply Hstrict. destruct (Qlt_le_dec (inject_Z (Qfloor q)) q) as [|Hle]; [assumption|].
      assert (Qle_bool q (inject_Z (Qfloor q) + (1 # 2)) = true); [|congruence].
      apply Qle_bool_iff. lra.
Qed.

Lemma toUint8Clamp_lower q m : inject_Z m <= q -> (m <= 255)%Z -> (m <= toUint8Clamp q)%Z.
Proof.
  intros Hq Hm. unfold toUint8Clamp.
  destruct (Qle_bool q 0) eqn:Hlow.
  - apply Qle_bool_iff in Hlow. rewrite Zle_Qle. change (inject_Z 0) with 0. lra.
  - destruct (Qle_bool 255 q) eqn:Hhigh; [assumption|].
    pose proof (Qfloor_le q) as Hfloor. pose proof (Qlt_floor q) as Hceil.
    assert (inject_Z (Qfloor q + 1) == inject_Z (Qfloor q) + 1) as Hplus
        by (rewrite inject_Z_plus; reflexivity).
    assert (m <= Qfloor q)%Z as Hmf.
    { assert (m < Qfloor q + 1)%Z; [|lia]. rewrite Zlt_Qlt. lra. }
    destruct (negb (Qle_bool q (inject_Z (Qfloor q) + (1 # 2)))); [lia|].
    destruct (negb (Qle_bool (inject_Z (Qfloor q) + (1 # 2)) q)); [lia|].
    destruct (Z.even (Qfloor q)); lia.
Qed.

Lemma toUint8Clamp_exact q m : q == inject_Z m -> isByte m -> toUint8Clamp q = m.
Proof.
  intros Hq [Hlow Hhigh]. apply Z.le_antisymm.
  - apply toUint8Clamp_upper; [lra | assumption].
  - apply toUint8Clamp_lower; [lra | assumption].
Qed.

Section Channels.

Variables (adjust : Q) (max value : Z).
Hypothesis Hmax : isByte max.
Hypothesis Hvalue : isByte value.
Hypothesis Hle : (value <= max)%Z.

Lemma channel_gap : 0 <= inject_Z (max - value).
Proof. change 0 with (inject_Z 0). rewrite <- Zle_Qle. lia. Qed.

Lemma channel_gap_sum : inject_Z value + inject_Z (max - value) == inject_Z max.
Proof. rewrite <- inject_Z_plus. now replace (value + (max - value))%Z with max by lia. Qed.

Lemma saturated_brightest : value = max -> saturated adjust max value = value.
Proof.
  intros ->. unfold saturated. rewrite Z.eqb_refl.
  apply toUint8Clamp_exact; [lra | assumption].
Qed.

Lemma saturated_upper : adjust <= 1 -> (saturated adjust max value <= max)%Z.
Proof.
  intros Hadjust. unfold saturated. destruct Hmax as [Hlow _].
  apply toUint8Clamp_upper; [|assumption].
  pose proof channel_gap as Hgap. pose proof channel_gap_sum as Hsum.
  destruct (Z.eqb max value).
  - rewrite <- Hsum. lra.
  - rewrite <- Hsum. nra.
Qed.

Lemma saturated_grows : 0 <= adjust -> (value <= saturated adjust max value)%Z.
Proof.
  intros Hadjust. unfold saturated. destruct Hvalue as [_ Hhigh].
  apply toUint8Clamp_lower; [|assumption].
  pose proof channel_gap as Hgap. destruct (Z.eqb max value); [lra | nra].
Qed.

Lemma saturated_shrinks : adjust <= 0 -> (saturated adjust max value <= value)%Z.
Proof.
  intros Hadjust. unfold saturated. destruct Hvalue as [Hlow _].
  apply toUint8Clamp_upper; [|assumption].
  pose proof channel_gap as Hgap. destruct (Z.eqb max value); [lra | nra].
Qed.

Lemma saturated_grey : adjust == 1 -> saturated adjust max value = max.
Proof.
  intros Hadjust. unfold saturated. apply toUint8Clamp_exact; [|assumption].
  pose proof channel_gap_sum as Hsum. destruct (Z.eqb_spec max value) as [->|_].
  - lra.
  - rewrite Hadjust, <- Hsum. lra.
Qed.

End Channels.

Lemma channel_isByte data k c : Forall isByte data -> isByte (channelOf data k c).
Proof.
  intros Hbytes. unfold channelOf.
  destruct (nth_in_or_default (4 * k + c) data 0%Z) as [Hin | ->].
  - rewrite Forall_forall in Hbytes. now apply Hbytes.
  - unfold isByte. lia.
Qed.

Lemma brightest_spec data k :
  Forall isByte data ->
  isByte (brightest data k) /\
  (forall c, (c < 3)%nat -> (channelOf data k c <= brightest data k)%Z) /\
  (exists c, (c < 3)%nat /\ channelOf data k c = brightest data k).
Proof.
  intros Hbytes.
  pose proof (channel_isByte data k 0 Hbytes) as H0.
  pose proof (channel_isByte data k 1 Hbytes) as H1.
  pose proof (channel_isByte data k 2 Hbytes) as H2.
  unfold brightest, isByte in *. split; [lia|]. split.
  - intros c Hc. destruct c as [|[|[|c]]]; lia.
  - destruct (Z.max_spec (channelOf data k 0) (channelOf data k 1)) as [[? E1]|[? E1]],
             (Z.max_spec (Z.max (channelOf data k 0) (channelOf data k 1))
                         (channelOf data k 2)) as [[? E2]|[? E2]];
      rewrite E2; [exists 2%nat | exists 1%nat | exists 2%nat | exists 0%nat];
      (split; [lia | congruence]).
Qed.

(** X23.  The filter keeps the length of the data and never writes the
    alpha channel: byte [4k + 3] is left as it was, for every pixel and
    every saturation. *)
Theorem saturation_keeps_alpha saturation data :
  length (applyTo2d saturation data) = length data /\
  forall k default,
    nth (4 * k + 3) (applyTo2d saturation data) default = nth (4 * k + 3) data default.
Proof.
  unfold applyTo2d. destruct (Qeq_bool saturation 0); [now split|].
  split; [apply applyPixels_length | intros; apply applyPixels_alpha].
Qed.

(** X24.  For a saturation of -1 or more, the brightest channel of every
    pixel keeps its value and no channel rises above it.  A saturation
    between -1 and 0 raises the other channels towards the brightest
    one, a saturation of 0 or more lowers them. *)
Theorem saturation_keeps_brightest saturation data k :
  Forall isByte data ->
  (4 * k + 2 < length data)%nat ->
  -1 <= saturation ->
  brightest (applyTo2d saturation data) k = brightest data k /\
  forall c, (c < 3)%nat ->
    (channelOf (applyTo2d saturation data) k c <= brightest data k)%Z /\
    (saturation <= 0 ->
     (channelOf data k c <= channelOf (applyTo2d saturation data) k c)%Z) /\
    (0 <= saturation ->
     (channelOf (applyTo2d saturation data) k c <= channelOf data k c)%Z).
Proof.
  intros Hbytes Hk Hsaturation.
  destruct (brightest_spec data k Hbytes) as (Hmax & Hbelow & top & Htop & Hattained).
  unfold applyTo2d. destruct (Qeq_bool saturation 0) eqn:Hzero.
  { split; [reflexivity|]. intros c Hc. split; [now apply Hbelow|]. split; lia. }
  assert (forall c, (c < 3)%nat ->
            (channelOf (applyPixels (- saturation) data) k c <= brightest data k)%Z /\
            (saturation <= 0 ->
             (channelOf data k c <= channelOf (applyPixels (- saturation) data) k c)%Z) /\
            (0 <= saturation ->
             (channelOf (applyPixels (- saturation) data) k c <= channelOf data k c)%Z))
    as Hchannels.
  { intros c Hc. rewrite applyPixels_channel by assumption.
    pose proof (channel_isByte data k c Hbytes) as Hbyte. specialize (Hbelow c Hc).
    split; [apply saturated_upper; try assumption; lra|].
    split; intros Hsign.
    - apply saturated_grows; try assumption; lra.
    - apply saturated_shrinks; try assumption; lra. }
  split; [|exact Hchannels].
  assert (channelOf (applyPixels (- saturation) data) k top = brightest data k) as Hkept.
  { rewrite applyPixels_channel by assumption. rewrite Hattained.
    apply saturated_brightest; solve [assumption | reflexivity]. }
  pose proof (proj1 (Hchannels 0%nat ltac:(lia))) as H0.
  pose proof (proj1 (Hchannels 1%nat ltac:(lia))) as H1.
  pose proof (proj1 (Hchannels 2%nat ltac:(lia))) as H2.
  unfold brightest at 1. destruct top as [|[|[|top]]]; lia.
Qed.

Lemma orangePixel_bytes : Forall isByte orangePixel.
Proof. repeat constructor; unfold isByte; lia. Qed.

Lemma saturation_keeps_brightest_witness :
  brightest (applyTo2d (-1 # 2) orangePixel) 0 = 200%Z.
Proof.
  assert (4 * 0 + 2 < length orangePixel)%nat as Hpixel by (cbn; lia).
  assert (-1 <= -1 # 2) as Hrange by (unfold Qle; cbn; lia).
  exact (proj1 (saturation_keeps_brightest (-1 # 2) orangePixel 0
                  orangePixel_bytes Hpixel Hrange)).
Defined.

(** X25.  A saturation of -1 turns every pixel grey: its red, green and
    blue bytes all take the value of the brightest of the three. *)
Theorem full_desaturation_is_grey saturation data k c :
  Forall isByte data ->
  (4 * k + 2 < length data)%nat ->
  saturation == -1 ->
  (c < 3)%nat ->
  channelOf (applyTo2d saturation data) k c = brightest data k.
Proof.
  intros Hbytes Hk Hsaturation Hc. unfold applyTo2d.
  assert (Qeq_bool saturation 0 = false) as ->.
  { apply not_true_is_false. intros Hzero%Qeq_bool_iff. lra. }
  rewrite applyPixels_channel by assumption.
  destruct (brightest_spec data k Hbytes) as (Hmax & _).
  apply saturated_grey; try assumption; try lra.
  destruct (brightest_spec data k Hbytes) as (_ & Hbelow & _). now apply Hbelow.
Qed.

Lemma full_desaturation_is_grey_witness :
  channelOf (applyTo2d (-1) orangePixel) 0 2 = 200%Z.
Proof.
  assert (4 * 0 + 2 < length orangePixel)%nat as Hpixel by (cbn; lia).
  assert (-1 == -1) as Hfull by reflexivity.
  assert (2 < 3)%nat as Hchannel by lia.
  exact (full_desaturation_is_grey (-1) orangePixel 0 2
           orangePixel_bytes Hpixel Hfull Hchannel).
Defined.

End SaturationFacts.

(** ** Stroke projections *)

Module StrokeFacts.
Import Affine Stroke MoreScenes.

Lemma eq_refl_point p : eq p p = true.
Proof.
  unfold eq. apply andb_true_iff. split; apply Qeq_bool_iff; reflexivity.
Qed.

Lemma dedupe_repeated last l1 p l2 :
  dedupe last (l1 ++ p :: p :: l2) = dedupe last (l1 ++ p :: l2).
Proof.
  revert last. induction l1 as [|q l1 IH]; intros last; cbn [app dedupe].
  - destruct (eq last p); [reflexivity|]. now rewrite eq_refl_point.
  - destruct (eq last q); now rewrite IH.
Qed.

Lemma reducePoints_repeated l1 p l2 :
  reducePoints (l1 ++ p :: p :: l2) = reducePoints (l1 ++ p :: l2).
Proof.
  unfold reducePoints. destruct l1 as [|q l1].
  - cbn [app]. f_equal. apply (dedupe_repeated p []).
  - cbn [app]. f_equal. apply (dedupe_repeated q (q :: l1)).
Qed.

Lemma dedupe_coincident first points :
  Forall (fun point => eq first point = true) points -> dedupe first points = [].
Proof.
  induction 1 as [|point points Hpoint _ IH]; [reflexivity|].
  cbn [dedupe]. now rewrite Hpoint.
Qed.

Section WithProjections.

Context {Projection Options : Type}.
Variable capProjections : Point -> option Point -> Options -> list Projection.
Variable joinProjections : Point -> option Point -> option Point -> Options -> list Projection.
Variable findIndexRight : list Point -> (Point -> bool) -> Z.

(** X26.  A point that repeats the point before it is ignored: the
    projections of a path are those of the path without the repetition,
    for an open path and for a closed one. *)
Theorem repeated_point_is_ignored l1 p l2 options openPath :
  projectStrokeOnPoints capProjections joinProjections findIndexRight
    (l1 ++ p :: p :: l2) options openPath
  = projectStrokeOnPoints capProjections joinProjections findIndexRight
      (l1 ++ p :: l2) options openPath.
Proof.
  unfold projectStrokeOnPoints.
  rewrite reducePoints_repeated.
  destruct l1; reflexivity.
Qed.

(** X27.  A path whose points all coincide is projected as an open path
    of one point, whatever [openPath] says: the result is the cap of that
    point, computed without a neighbour. *)
Theorem coincident_points_make_one_cap first points options openPath :
  Forall (fun point => eq first point = true) points ->
  projectStrokeOnPoints capProjections joinProjections findIndexRight
    (first :: points) options openPath
  = capProjections first None options.
Proof.
  intros Hsame. unfold projectStrokeOnPoints, reducePoints.
  cbn [dedupe]. rewrite eq_refl_point, (dedupe_coincident first points Hsame).
  cbn. now rewrite app_nil_r.
Qed.

Lemma projectionsAt_last options points k A B :
  length points = S (S k) -> points !! k = Some B ->
  projectionsAt capProjections joinProjections options true points (S k) A
  = capProjections A (Some B) options.
Proof.
  intros Hlength HB. unfold projectionsAt. rewrite Hlength.
  replace (S (S k) - 1)%nat with (S k) by lia.
  rewrite Nat.eqb_refl. cbn [Nat.eqb orb andb].
  replace (S k - 1)%nat with k by lia. now rewrite HB.
Qed.

Lemma projectionsAt_interior options points k A B C :
  points !! k = Some B -> points !! S (S k) = Some C ->
  projectionsAt capProjections joinProjections options true points (S k) A
  = joinProjections A (Some B) (Some C) options.
Proof.
  intros HB HC. unfold projectionsAt.
  assert (S (S k) < length points)%nat as Hlength by (apply lookup_lt_is_Some; eauto).
  replace (Nat.eqb (S k) (length points - 1)) with false
    by (symmetry; apply Nat.eqb_neq; lia).
  cbn [Nat.eqb orb andb].
  replace (S k - 1)%nat with k by lia.
  replace (S k + 1)%nat with (S (S k)) by lia.
  now rewrite HB, HC.
Qed.

Lemma open_path_tail options after : forall before previous,
  concat (imap (fun i => projectionsAt capProjections joinProjections options true
                           (before ++ previous :: after) (S (length before + i)))
               after)
  = openPathAfter capProjections joinProjections options previous after.
Proof.
  induction after as [|A rest IH]; intros before previous; [reflexivity|].
  cbn [imap concat openPathAfter].
  assert ((before ++ previous :: A :: rest) !! (length before + 0)%nat = Some previous)
    as Hprevious by (rewrite lookup_app_r by lia;
                     now replace (length before + 0 - length before)%nat with 0%nat by lia).
  destruct rest as [|C rest].
  - cbn [imap concat]. rewrite app_nil_r.
    apply projectionsAt_last; [|assumption].
    rewrite length_app. cbn [length]. lia.
  - f_equal.
    + apply projectionsAt_interior; [assumption|].
      rewrite lookup_app_r by lia.
      now replace (S (S (length before + 0)) - length before)%nat with 2%nat by lia.
    + rewrite <- (IH (before ++ [previous]) A).
      rewrite <- app_assoc. cbn [app]. f_equal. apply imap_ext. intros i x _.
      cbn [compose]. rewrite length_app. cbn [length]. f_equal. lia.
Qed.

(** X28.  An open path of at least two distinct consecutive points is
    projected as a cap at its first point, towards the second one, a join
    at every interior point, between its two neighbours, and a cap at its
    last point, towards the one before it. *)
Theorem open_path_caps_both_ends points options first second rest :
  reducePoints points = first :: second :: rest ->
  projectStrokeOnPoints capProjections joinProjections findIndexRight points options true
  = capProjections first (Some second) options
    ++ openPathAfter capProjections joinProjections options first (second :: rest).
Proof.
  intros Hreduced. unfold projectStrokeOnPoints.
  destruct points as [|p points]; [discriminate|].
  rewrite Hreduced. cbn [length Nat.eqb negb imap concat]. f_equal.
  apply (open_path_tail options (second :: rest) [] first).
Qed.

End WithProjections.

Lemma coincident_points_make_one_cap_witness :
  projectStrokeOnPoints capAt joinAt lastIndex
    [mkPoint 1 1; mkPoint 1 1; mkPoint (2 # 2) 1] tt false
  = [mkPoint 1 1].
Proof.
  apply (coincident_points_make_one_cap capAt joinAt lastIndex (mkPoint 1 1)
           [mkPoint 1 1; mkPoint (2 # 2) 1] tt false).
  repeat constructor.
Defined.

Lemma open_path_caps_both_ends_witness :
  projectStrokeOnPoints capAt joinAt lastIndex
    [mkPoint 1 1; mkPoint 1 1; mkPoint 2 2; mkPoint 3 3] tt true
  = [mkPoint 1 1; mkPoint 2 2; mkPoint 2 2; mkPoint 3 3].
Proof.
  apply (open_path_caps_both_ends capAt joinAt lastIndex
           [mkPoint 1 1; mkPoint 1 1; mkPoint 2 2; mkPoint 3 3] tt
           (mkPoint 1 1) (mkPoint 2 2) [mkPoint 3 3]).
  reflexivity.
Defined.

End StrokeFacts.

(** ** Shadows and caching *)

Module ShadowFacts.
Import Affine Run Layout Shadows Scenes MoreScenes LayoutFacts.

Section WithObject.

Variable castsShadow : Ref -> bool.
Variable objectShouldCache : Ref -> Op bool.

Lemma anyOf_false f l :
  anyOf f l = Val false -> forall c, In c l -> f c = Val false.
Proof.
  induction l as [|a l IH]; cbn [anyOf]; [intros _ c []|].
  destruct (f a) as [[|]|] eqn:Ha; cbn [abind]; try discriminate.
  intros Hrest c [<- | Hc]; [assumption | now apply IH].
Qed.

Lemma anyOf_true f l :
  anyOf f l = Val true -> exists c, In c l /\ f c = Val true.
Proof.
  induction l as [|a l IH]; cbn [anyOf]; [discriminate|].
  destruct (f a) as [[|]|] eqn:Ha; cbn [abind]; try discriminate.
  - intros _. exists a. split; [now left | assumption].
  - intros Hrest. destruct (IH Hrest) as (c & Hc & Hfc). exists c. split; [now right | assumption].
Qed.

Lemma anyOf_total f l :
  (forall c, In c l -> exists b, f c = Val b) -> exists b, anyOf f l = Val b.
Proof.
  induction l as [|a l IH]; intros Hf; cbn [anyOf]; [eauto|].
  destruct (Hf a (or_introl eq_refl)) as [[|] ->]; cbn [abind]; [eauto|].
  apply IH. intros c Hc. apply Hf. now right.
Qed.

Lemma willDrawShadow_false fuel h :
  forall r, willDrawShadow castsShadow fuel h r = Val false ->
            forall d, reaches h r d -> castsShadow d = false.
Proof.
  induction fuel as [|fuel IH]; intros r Hrun d Hd; [discriminate|].
  cbn [willDrawShadow] in Hrun.
  destruct (castsShadow r) eqn:Hr; [discriminate|].
  destruct Hd as [r | r c d Hgroup Hc Hcd]; [assumption|].
  rewrite Hgroup in Hrun.
  apply (IH c); [|assumption]. now apply (anyOf_false _ _ Hrun).
Qed.

Lemma willDrawShadow_true fuel h :
  forall r, willDrawShadow castsShadow fuel h r = Val true ->
            exists d, reaches h r d /\ castsShadow d = true.
Proof.
  induction fuel as [|fuel IH]; intros r Hrun; [discriminate|].
  cbn [willDrawShadow] in Hrun.
  destruct (castsShadow r) eqn:Hr; [exists r; split; [constructor | assumption]|].
  destruct (hasLayoutStrategy (h r)) eqn:Hgroup; [|discriminate].
  destruct (anyOf_true _ _ Hrun) as (c & Hc & Hfound).
  destruct (IH c Hfound) as (d & Hd & Hshadow).
  exists d. split; [|assumption]. now apply (reaches_child h r c d).
Qed.

Lemma willDrawShadow_total fuel h :
  forall r, nestedGroups h fuel r -> exists b, willDrawShadow castsShadow fuel h r = Val b.
Proof.
  induction fuel as [|fuel IH]; intros r Hnested; [inversion Hnested|].
  inversion Hnested as [n r' Hchildren]; subst.
  cbn [willDrawShadow]. destruct (castsShadow r); [eauto|].
  destruct (hasLayoutStrategy (h r)); [|eauto].
  apply anyOf_total. intros c Hc. apply IH. now apply Hchildren.
Qed.

(** X29.  [willDrawShadow()] answers [true] exactly when the object itself
    or an object reached from it through the child lists of groups casts a
    shadow. *)
Theorem willDrawShadow_iff_reaches_shadow fuel h r :
  nestedGroups h fuel r ->
  exists b,
    willDrawShadow castsShadow fuel h r = Val b /\
    (b = true <-> exists d, reaches h r d /\ castsShadow d = true).
Proof.
  intros Hnested. destruct (willDrawShadow_total fuel h r Hnested) as [b Hrun].
  exists b. split; [assumption|]. destruct b.
  - split; [intros _; now apply (willDrawShadow_true fuel) | reflexivity].
  - split; [discriminate|]. intros (d & Hd & Hshadow).
    rewrite (willDrawShadow_false fuel h r Hrun d Hd) in Hshadow. discriminate.
Qed.

(** X30.  [shouldCache()] never answers [true] for a group one of whose
    children will draw a shadow: when it answers [true], no object reached
    from a child of the group casts a shadow; and when a child will draw a
    shadow although the object method answered [true], it answers [false]
    and leaves the group without its own cache. *)
Theorem shouldCache_excludes_shadows fuel g h answer h' :
  shouldCache castsShadow objectShouldCache fuel g h = Ok answer h' ->
  (answer = true ->
   forall c d, In c (_objects (h' g)) -> reaches h' c d -> castsShadow d = false) /\
  (forall h1,
      objectShouldCache g h = Ok true h1 ->
      (exists c d, In c (_objects (h1 g)) /\ reaches h1 c d /\ castsShadow d = true) ->
      answer = false /\ ownCaching (h' g) = false).
Proof.
  unfold shouldCache, bind at 1.
  destruct (objectShouldCache g h) as [ownCache h1|[]|] eqn:Hown; [|discriminate].
  destruct ownCache.
  - unfold bind at 1, ask.
    destruct (anyOf (willDrawShadow castsShadow fuel h1) (_objects (h1 g)))
      as [shadow|] eqn:Hany; [|discriminate].
    destruct shadow.
    + unfold bind, modify, ret. intros [= <- <-]. split; [discriminate|].
      intros h2 [= <-] _. split; [reflexivity|].
      rewrite update_same. now destruct (h1 g).
    + unfold ret. intros [= <- <-]. split.
      * intros _ c d Hc Hd.
        apply (willDrawShadow_false fuel h1 c); [|assumption].
        now apply (anyOf_false _ _ Hany).
      * intros h2 [= <-] (c & d & Hc & Hd & Hshadow). exfalso.
        rewrite (willDrawShadow_false fuel h1 c (anyOf_false _ _ Hany c Hc) d Hd)
          in Hshadow.
        discriminate.
  - unfold ret. intros [= <- <-]. split; [discriminate|]. intros h2 [=].
Qed.

End WithObject.

Lemma willDrawShadow_iff_reaches_shadow_witness :
  exists b,
    willDrawShadow shadowOf 3 cachedScene 0%nat = Val b /\
    (b = true <-> exists d, reaches cachedScene 0%nat d /\ shadowOf d = true).
Proof.
  apply (willDrawShadow_iff_reaches_shadow shadowOf 3 cachedScene 0%nat).
  constructor. intros _ c [<- | []].
  constructor. intros _ c [<- | []].
  constructor. intros Hgroup. discriminate Hgroup.
Defined.

Lemma shouldCache_excludes_shadows_witness :
  shouldCache shadowOf alwaysCache 3 0%nat cachedScene
    = Ok false (update 0%nat (withOwnCaching false) cachedScene) /\
  ownCaching (update 0%nat (withOwnCaching false) cachedScene 0%nat) = false.
Proof.
  assert (shouldCache shadowOf alwaysCache 3 0%nat cachedScene
          = Ok false (update 0%nat (withOwnCaching false) cachedScene)) as Hrun
      by reflexivity.
  split; [exact Hrun|].
  destruct (shouldCache_excludes_shadows shadowOf alwaysCache 3 0%nat cachedScene _ _ Hrun)
    as [_ Hshadow].
  apply (Hshadow cachedScene eq_refl).
  exists 3%nat, 1%nat. split; [now left|]. split; [|reflexivity].
  apply (reaches_child cachedScene 3%nat 1%nat 1%nat); [reflexivity | now left | constructor].
Defined.

End ShadowFacts.
